(** * SillyTavern-Chess: the opponent-move resolver and its orchestrator

    A shallow embedding of [parseMove] and [ChessGame.tryMoveOpponent]
    (the extension's index.js, kept in src/webpack.config.js) together with the properties that the
    specification states about them.

    Modelling choices.
    - A JavaScript string is a list of code units.  The development covers
      the code units below 256 (the Latin-1 block), for which
      [String.prototype.trim] and [String.prototype.toLowerCase] act unit by
      unit; [ascii] is used for one code unit.
    - A regular expression literal is an abstract syntax tree, run by a
      backtracking matcher written in continuation-passing style, as in the
      ECMAScript description of pattern semantics.
    - The rules engine (chess.js), the board widget, the text generator and
      [Math.random] are collaborators: they are parameters of the
      orchestrator, and every call made to them is recorded, in order, in a
      trace.  The queries of the engine do not change the position; the
      board widget and the status texts do not throw.
    - [tryMoveOpponent] is run from its call to its return: nothing else is
      interleaved at its [await].
    - A Number is an IEEE 754 binary64 value, with the operations of the
      Standard Library's specification of floating-point arithmetic
      ([SpecFloat]): [Math.random() * moves.length] is the product rounded
      to the nearest value of the format.  An array has fewer than [2 ^ 32]
      elements. *)

From Stdlib Require Import List Ascii Bool Arith Lia ZArith SpecFloat.
Import ListNotations.

(* ================================================================= *)
(** * JavaScript strings *)

Definition jsstring := list ascii.

Inductive js_lit := JNil | JCons (c : ascii) (s : js_lit).

Fixpoint js_parse (l : list Byte.byte) : js_lit :=
  match l with
  | [] => JNil
  | b :: l' => JCons (ascii_of_byte b) (js_parse l')
  end.

Fixpoint js_print (s : js_lit) : list Byte.byte :=
  match s with
  | JNil => []
  | JCons c s' => byte_of_ascii c :: js_print s'
  end.

Declare Scope js_scope.
Delimit Scope js_scope with js.
Bind Scope js_scope with jsstring.
#[warnings="-via-type-remapping,-via-type-mismatch"]
String Notation jsstring js_parse js_print
  (via js_lit mapping [[nil] => JNil, [cons] => JCons]) : js_scope.

Open Scope char_scope.

Module JsString.

(** The numeric value of a code unit. *)
Definition code (c : ascii) : nat := nat_of_ascii c.

Definition between (lo hi c : ascii) : bool :=
  ((code lo <=? code c) && (code c <=? code hi))%nat.

(** WhiteSpace and LineTerminator code units below 256: TAB, LF, VT, FF,
    CR, SPACE and NO-BREAK SPACE. *)
Definition isWhiteSpace (c : ascii) : bool :=
  (((9 <=? code c) && (code c <=? 13)) || (code c =? 32) || (code c =? 160))%nat.

Fixpoint trimStart (s : jsstring) : jsstring :=
  match s with
  | [] => []
  | c :: s' => if isWhiteSpace c then trimStart s' else s
  end.

Definition trimEnd (s : jsstring) : jsstring := rev (trimStart (rev s)).

(** [String.prototype.trim] *)
Definition trim (s : jsstring) : jsstring := trimEnd (trimStart s).

(** Lower-case mapping of one code unit below 256: A-Z, and the Latin-1
    capitals U+00C0..U+00DE except the multiplication sign U+00D7. *)
Definition lowerChar (c : ascii) : ascii :=
  let n := code c in
  if (((65 <=? n) && (n <=? 90))
      || ((192 <=? n) && (n <=? 214))
      || ((216 <=? n) && (n <=? 222)))%nat
  then ascii_of_nat (n + 32)
  else c.

(** [String.prototype.toLowerCase] *)
Definition toLowerCase (s : jsstring) : jsstring := map lowerChar s.

(** [String.prototype.startsWith] *)
Fixpoint startsWith (s t : jsstring) {struct t} : bool :=
  match t, s with
  | [], _ => true
  | _ :: _, [] => false
  | c :: t', d :: s' => Ascii.eqb c d && startsWith s' t'
  end.

(** [String.prototype.includes] *)
Fixpoint includes (s t : jsstring) : bool :=
  startsWith s t ||
  match s with
  | [] => false
  | _ :: s' => includes s' t
  end.

(** [String.prototype.split] with a separator of one code unit. *)
Fixpoint split (sep : ascii) (s : jsstring) : list jsstring :=
  match s with
  | [] => [[]]
  | c :: s' =>
      if Ascii.eqb c sep then [] :: split sep s'
      else match split sep s' with
           | p :: ps => (c :: p) :: ps
           | [] => [[c]]
           end
  end.

(** [Array.prototype.join] *)
Fixpoint join (sep : jsstring) (l : list jsstring) : jsstring :=
  match l with
  | [] => []
  | [x] => x
  | x :: l' => x ++ sep ++ join sep l'
  end.

(** A string without white space at either end. *)
Definition clean (w : jsstring) : Prop :=
  trimStart w = w /\ trimStart (rev w) = rev w.

End JsString.

(* ================================================================= *)
(** * Regular expressions *)

Module Regex.

Inductive citem :=
| One (c : ascii)
| Range (lo hi : ascii).

Inductive regex :=
| Empty
| Lit (c : ascii)
| Class (l : list citem)
| Cat (r1 r2 : regex)
| Or (r1 r2 : regex)
| Opt (r : regex)
| Group (r : regex)
| Bol
| Eol.

Definition in_item (c : ascii) (i : citem) : bool :=
  match i with
  | One d => Ascii.eqb c d
  | Range lo hi => JsString.between lo hi c
  end.

Definition in_class (l : list citem) (c : ascii) : bool :=
  existsb (in_item c) l.

Fixpoint seq (l : list regex) : regex :=
  match l with
  | [] => Empty
  | [r] => r
  | r :: l' => Cat r (seq l')
  end.

(** The matcher.  [i] is the index, in the whole input, of the first code
    unit of [s], the part of the input still to be read; [k] is the
    continuation, run on the index and the rest left by [r].  Neither
    regular expression of the program has the [m] flag: [^] is the
    beginning and [$] the end of the input. *)
Fixpoint rmatch {X : Type} (r : regex) (i : nat) (s : jsstring)
         (k : nat -> jsstring -> option X) : option X :=
  match r with
  | Empty => k i s
  | Lit c =>
      match s with
      | d :: s' => if Ascii.eqb d c then k (S i) s' else None
      | [] => None
      end
  | Class l =>
      match s with
      | d :: s' => if in_class l d then k (S i) s' else None
      | [] => None
      end
  | Cat r1 r2 => rmatch r1 i s (fun j t => rmatch r2 j t k)
  | Or r1 r2 =>
      match rmatch r1 i s k with
      | Some x => Some x
      | None => rmatch r2 i s k
      end
  | Opt r1 =>
      match rmatch r1 i s k with
      | Some x => Some x
      | None => k i s
      end
  | Group r1 => rmatch r1 i s k
  | Bol => if (i =? 0)%nat then k i s else None
  | Eol => match s with [] => k i s | _ :: _ => None end
  end.

(** The end index of the match of [r] that starts at [i], if there is
    one. *)
Definition match_at (r : regex) (i : nat) (s : jsstring) : option nat :=
  rmatch r i s (fun j _ => Some j).

(** One run of the matcher over the input, from left to right: the index
    of the leftmost match and the matched text. *)
Fixpoint exec_from (r : regex) (i : nat) (s : jsstring)
  : option (nat * jsstring) :=
  match match_at r i s with
  | Some j => Some (i, firstn (j - i) s)
  | None =>
      match s with
      | [] => None
      | _ :: s' => exec_from r (S i) s'
      end
  end.

(** [String.prototype.match] with a regular expression without the [g]
    flag; the result is element 0 of the array, or [None] for [null]. *)
Definition string_match (r : regex) (s : jsstring) : option jsstring :=
  option_map snd (exec_from r 0 s).

(** With the [g] flag: every match, from left to right, each search
    starting where the previous match ended (one code unit further after an
    empty match).  [skip] counts the code units of the last match that are
    still to be passed. *)
Fixpoint match_all (r : regex) (i : nat) (s : jsstring) (skip : nat)
  : list jsstring :=
  match skip with
  | S n =>
      match s with
      | [] => []
      | _ :: s' => match_all r (S i) s' n
      end
  | 0 =>
      match match_at r i s with
      | Some j =>
          firstn (j - i) s ::
          match s with
          | [] => []
          | _ :: s' => match_all r (S i) s' (j - i - 1)
          end
      | None =>
          match s with
          | [] => []
          | _ :: s' => match_all r (S i) s' 0
          end
      end
  end.

(** [String.prototype.match] with the [g] flag: the array of the matched
    texts, or [None] for [null] when there is none. *)
Definition string_match_g (r : regex) (s : jsstring)
  : option (list jsstring) :=
  match match_all r 0 s 0 with
  | [] => None
  | l => Some l
  end.

(** The declarative reading of a pattern: [matches r i s j t] when [r]
    can read, at index [i], the code units that lead from [s] to [t],
    which starts at index [j]. *)
Inductive matches : regex -> nat -> jsstring -> nat -> jsstring -> Prop :=
| M_Empty i s : matches Empty i s i s
| M_Lit c i s : matches (Lit c) i (c :: s) (S i) s
| M_Class l d i s : in_class l d = true -> matches (Class l) i (d :: s) (S i) s
| M_Cat r1 r2 i s j t k u :
    matches r1 i s j t -> matches r2 j t k u -> matches (Cat r1 r2) i s k u
| M_OrL r1 r2 i s j t : matches r1 i s j t -> matches (Or r1 r2) i s j t
| M_OrR r1 r2 i s j t : matches r2 i s j t -> matches (Or r1 r2) i s j t
| M_OptSome r i s j t : matches r i s j t -> matches (Opt r) i s j t
| M_OptNone r i s : matches (Opt r) i s i s
| M_Group r i s j t : matches r i s j t -> matches (Group r) i s j t
| M_Bol s : matches Bol 0 s 0 s
| M_Eol i : matches Eol i [] i [].

End Regex.

(* ================================================================= *)
(** * The resolver: [parseMove] *)

Import Regex.

(** What [parseMove] returns: [null], a string or an array of strings. *)
Inductive value :=
| VNull
| VString (s : jsstring)
| VArray (l : list jsstring).

(** JavaScript truthiness, as tested by [if (!move)]. *)
Definition truthy (v : value) : bool :=
  match v with
  | VNull => false
  | VString [] => false
  | VString (_ :: _) => true
  | VArray _ => true
  end.

(** The character classes [[a-h]], [[1-8]] and [[NBRQK]]. *)
Definition files : list citem := [Range "a" "h"].
Definition ranks : list citem := [Range "1" "8"].
Definition pieces : list citem := [One "N"; One "B"; One "R"; One "Q"; One "K"].

Definition re_file : regex := Class files.
Definition re_rank : regex := Class ranks.
Definition re_piece : regex := Class pieces.

(** [/([a-h][1-8]-[a-h][1-8])/g] *)
Definition re_regular : regex :=
  Group (seq [re_file; re_rank; Lit "-"; re_file; re_rank]).

(** [([NBRQK])?([a-h])?([1-8])?(x)?([a-h][1-8])(=[NBRQK])?(\+|#)?$] *)
Definition re_san : regex :=
  seq [ Opt (Group re_piece); Opt (Group re_file); Opt (Group re_rank);
        Opt (Group (Lit "x")); Group (Cat re_file re_rank);
        Opt (Group (Cat (Lit "=") re_piece));
        Opt (Group (Or (Lit "+") (Lit "#"))); Eol ].

(** [^O-O(-O)?] *)
Definition re_castle : regex :=
  seq [ Bol; Lit "O"; Lit "-"; Lit "O"; Opt (Group (Cat (Lit "-") (Lit "O"))) ].

(** [/([NBRQK])?([a-h])?([1-8])?(x)?([a-h][1-8])(=[NBRQK])?(\+|#)?$|^O-O(-O)?/] *)
Definition re_notation : regex := Or re_san re_castle.

(** [parseMove(reply)]; [moves] is the variable of the enclosing
    [tryMoveOpponent] that the function closes over.  The array of a global
    match is never empty: the branch for [[]] is not reached. *)
Definition parseMove (moves : list jsstring) (reply : jsstring) : value :=
  let reply := JsString.trim reply in
  match string_match_g re_regular reply with
  | Some regularMatch =>
      match regularMatch with
      | m0 :: _ => VArray (JsString.split "-" m0)
      | [] => VNull
      end
  | None =>
      match string_match re_notation reply with
      | Some m0 => VString m0
      | None =>
          match find (fun move => JsString.includes
                                    (JsString.toLowerCase reply)
                                    (JsString.toLowerCase move)) moves with
          | Some move => VString move
          | None => VNull
          end
      end
  end.


(* ================================================================= *)
(** * Numbers *)

(** The Number type of the language is the binary64 format of IEEE 754:
    53 bits of precision, exponents below 1024. *)
Module JsNumber.

Definition prec : Z := 53.
Definition emax : Z := 1024.

Definition number : Type := spec_float.

(** The Number of the length of an array. *)
Definition of_length (n : nat) : number :=
  binary_normalize prec emax (Z.of_nat n) 0 false.

(** [x * y] *)
Definition mul (x y : number) : number := SFmul prec emax x y.

(** [Math.floor(x)], as the integer that it is.  NaN and the two
    infinities, which [Math.floor] returns as they are, are [None]; the
    floor of either zero is read as the index 0. *)
Definition Math_floor (x : number) : option Z :=
  match x with
  | S754_zero _ => Some 0%Z
  | S754_finite s m e =>
      let z := if s then Zneg m else Zpos m in
      Some (if (0 <=? e)%Z then (z * 2 ^ e)%Z else Z.shiftr z (- e))
  | S754_infinity _ => None
  | S754_nan => None
  end.

(** [0 <= u && u < 1], for a value [u] of the format. *)
Definition in_unit_interval (u : number) : bool :=
  valid_binary prec emax u && SFleb (S754_zero false) u
  && SFltb u (SFone prec emax).

End JsNumber.

(* ================================================================= *)
(** * The collaborators *)

(** [game.turn()] is ['w'] or ['b']; [this.color] is ['white'] or
    ['black'] once the constructor has run. *)
Inductive Side := W | B.
Inductive Color := white | black.

(** The argument of [game.move]: an object [{ from, to }], a string in
    algebraic notation, or [undefined]; [None] is a missing array element. *)
Inductive move_arg :=
| ByObject (from to : option jsstring)
| BySan (san : jsstring)
| ByUndefined.

(** The rules engine, chess.js, as far as [tryMoveOpponent] uses it:
    [turn], [isGameOver], [moves], [fen] and [ascii] read the position;
    [move g a] is the position left by the call and whether the call
    returned ([true]) or threw ([false]).  What [moves] returns is an
    array: its length is below [2 ^ 32]. *)
Record Chess (Game : Type) := {
  turn : Game -> Side;
  isGameOver : Game -> bool;
  moves : Game -> list jsstring;
  fen : Game -> jsstring;
  board_ascii : Game -> jsstring;
  move : Game -> move_arg -> Game * bool;
  moves_is_array : forall g, (Z.of_nat (length (moves g)) < 2 ^ 32)%Z
}.

Arguments turn {Game}.
Arguments isGameOver {Game}.
Arguments moves {Game}.
Arguments fen {Game}.
Arguments board_ascii {Game}.
Arguments move {Game}.
Arguments moves_is_array {Game}.

(** Every call to a collaborator, in the order of the calls. *)
Inductive event :=
| GenerateRaw (prompt systemPrompt : jsstring) (reply : option jsstring)
| ConsoleError
| ConsoleWarn
| MathRandom (u : JsNumber.number)
| GameMove (arg : move_arg) (returned : bool)
| BoardPosition (position : jsstring)
| UpdateStatus.

Definition is_request (e : event) : bool :=
  match e with GenerateRaw _ _ _ => true | _ => false end.

Definition is_random (e : event) : bool :=
  match e with MathRandom _ => true | _ => false end.

Definition count (p : event -> bool) (tr : list event) : nat :=
  length (filter p tr).

(** The collaborators of one game.  [generateRaw n prompt systemPrompt] is
    the outcome of the call that follows [n] earlier calls: the reply, or
    [None] when the promise is rejected.  [random n] is the value of the call
    to [Math.random] that follows [n] earlier calls. *)
Record Collaborators (Game : Type) := {
  engine : Chess Game;
  generateRaw : nat -> jsstring -> jsstring -> option jsstring;
  random : nat -> JsNumber.number
}.

Arguments engine {Game}.
Arguments generateRaw {Game}.
Arguments random {Game}.

(** The fields of a [ChessGame] that [tryMoveOpponent] reads or writes,
    and the trace of the calls made so far. *)
Record ChessGame (Game : Type) := {
  color : Color;
  game : Game;
  trace : list event
}.

Arguments color {Game}.
Arguments game {Game}.
Arguments trace {Game}.

(** How a statement ends: normally, with a value, or by throwing. *)
Inductive completion (A : Type) :=
| Normal (a : A)
| Throw.

Arguments Normal {A}.
Arguments Throw {A}.

(* ================================================================= *)
(** * The orchestrator: [ChessGame.tryMoveOpponent] *)

Module Orchestrator.
Import JsString.

Section WithCollaborators.

Context {Game : Type} (C : Collaborators Game).

Definition M (A : Type) : Type := ChessGame Game -> completion A * ChessGame Game.

Definition ret {A} (a : A) : M A := fun st => (Normal a, st).

Definition throw {A} : M A := fun st => (Throw, st).

Definition bind {A B} (m : M A) (f : A -> M B) : M B :=
  fun st =>
    match m st with
    | (Normal a, st') => f a st'
    | (Throw, st') => (Throw, st')
    end.

(** [try { body } catch (error) { handler }] *)
Definition try_catch {A} (body handler : M A) : M A :=
  fun st =>
    match body st with
    | (Normal a, st') => (Normal a, st')
    | (Throw, st') => handler st'
    end.

Notation "x <- m ;; f" := (bind m (fun x => f))
  (at level 61, m at next level, right associativity).
Notation "m ;; f" := (bind m (fun _ => f))
  (at level 61, right associativity).

Definition emit (e : event) : M unit :=
  fun st => (Normal tt, {| color := color st; game := game st;
                           trace := trace st ++ [e] |}).

Definition this_game : M Game := fun st => (Normal (game st), st).

Definition this_color : M Color := fun st => (Normal (color st), st).

(** [await generateRaw(prompt, '', false, false, systemPrompt)] *)
Definition call_generateRaw (prompt systemPrompt : jsstring) : M jsstring :=
  fun st =>
    let reply := generateRaw C (count is_request (trace st)) prompt systemPrompt in
    match emit (GenerateRaw prompt systemPrompt reply) st with
    | (_, st') =>
        match reply with
        | Some r => (Normal r, st')
        | None => (Throw, st')
        end
    end.

(** [Math.random()] *)
Definition Math_random : M JsNumber.number :=
  fun st =>
    let u := random C (count is_random (trace st)) in
    match emit (MathRandom u) st with
    | (_, st') => (Normal u, st')
    end.

(** [this.game.move(arg)] *)
Definition game_move (arg : move_arg) : M unit :=
  fun st =>
    let (g', returned) := move (engine C) (game st) arg in
    ((if returned then Normal tt else Throw),
     {| color := color st; game := g';
        trace := trace st ++ [GameMove arg returned] |}).

(** [this.board.position(this.game.fen())] *)
Definition board_position : M unit :=
  g <- this_game ;; emit (BoardPosition (fen (engine C) g)).

(** [this.updateStatus()]: the two status texts are written again from the
    position of the game. *)
Definition updateStatus : M unit := emit UpdateStatus.

Definition isOpponentTurn : M bool :=
  g <- this_game ;;
  c <- this_color ;;
  ret (match turn (engine C) g, c with
       | W, black => true
       | B, white => true
       | _, _ => false
       end).

Definition getOpponentColor (c : Color) : Color :=
  match c with
  | white => black
  | black => white
  end.

Definition toUpperCase_color (c : Color) : jsstring :=
  match c with
  | white => "WHITE"%js
  | black => "BLACK"%js
  end.

(** [ChessGame.opponentMovePrompt], with the text that replaces its
    placeholder for the colour. *)
Definition opponentMovePrompt (colour : jsstring) : jsstring :=
  "You are a world-renowned chess grandmaster. You are given the representation of a chessboard state using the Forsyth-Edwards Notation (FEN) and ASCII. Select the best possible move from the list in algebraic notation and reply with JUST the move, e.g. 'Nc6'. You are playing as "%js
  ++ colour ++ "."%js.

Definition newline : jsstring := ["010"].

Definition maxRetries : nat := 3.

(** The prompt of one attempt. *)
Definition prompt_of (fen ascii : jsstring) (moves : list jsstring) : jsstring :=
  let movesString := "Available moves:"%js ++ newline ++ join ", "%js moves in
  join (newline ++ newline) [fen; ascii; movesString].

(** The argument that the body of the loop passes to [game.move] for a
    parsed move. *)
Definition candidate (mv : value) : option move_arg :=
  match mv with
  | VArray l => Some (ByObject (nth_error l 0) (nth_error l 1))
  | VString s => Some (BySan s)
  | VNull => None
  end.

(** The body of the [try] block; it ends with [return]. *)
Definition attempt (fen ascii : jsstring) (moves : list jsstring)
           (systemPrompt : jsstring) : M unit :=
  let prompt := prompt_of fen ascii moves in
  reply <- call_generateRaw prompt systemPrompt ;;
  let mv := parseMove moves reply in
  (if negb (truthy mv) then throw else ret tt) ;;
  (match mv with
   | VArray l => game_move (ByObject (nth_error l 0) (nth_error l 1))
   | _ => ret tt
   end) ;;
  (match mv with
   | VString s => game_move (BySan s)
   | _ => ret tt
   end) ;;
  board_position ;;
  updateStatus.

(** The [try] statement of the body of the loop: the value is [true] when
    the [try] block has reached its [return], [false] when the [catch]
    clause has run. *)
Definition try_attempt (fen ascii : jsstring) (moves : list jsstring)
           (systemPrompt : jsstring) : M bool :=
  try_catch (attempt fen ascii moves systemPrompt ;; ret true)
            (emit ConsoleError ;; ret false).

(** The [for] loop with [n] iterations left.  The value is [true] when the
    function has returned from inside the loop. *)
Fixpoint retry (n : nat) (fen ascii : jsstring) (moves : list jsstring)
         (systemPrompt : jsstring) : M bool :=
  match n with
  | 0 => ret false
  | S n' =>
      returned <- try_attempt fen ascii moves systemPrompt ;;
      if returned then ret true
      else retry n' fen ascii moves systemPrompt
  end.

(** [Math.floor(u * moves.length)], for the value [u] of [Math.random()] *)
Definition random_index (u : JsNumber.number) (len : nat) : option Z :=
  JsNumber.Math_floor (JsNumber.mul u (JsNumber.of_length len)).

(** [moves[x]] for the number [x] that [Math.floor] has returned:
    [undefined] outside of the array, and for a number that is no index. *)
Definition element (l : list jsstring) (x : option Z) : option jsstring :=
  match x with
  | Some i => if (i <? 0)%Z then None else nth_error l (Z.to_nat i)
  | None => None
  end.

(** The system prompt of the side that the opponent plays. *)
Definition systemPrompt_of (c : Color) : jsstring :=
  opponentMovePrompt (toUpperCase_color (getOpponentColor c)).

(** The argument of [game.move] for [moves[i]]. *)
Definition san_or_undefined (mv : option jsstring) : move_arg :=
  match mv with
  | Some s => BySan s
  | None => ByUndefined
  end.

Definition tryMoveOpponent : M unit :=
  opponent <- isOpponentTurn ;;
  if negb opponent then ret tt else
  g <- this_game ;;
  if isGameOver (engine C) g then ret tt else
  let fen := fen (engine C) g in
  let moves := moves (engine C) g in
  let ascii := board_ascii (engine C) g in
  c <- this_color ;;
  let systemPrompt := systemPrompt_of c in
  returned <- retry maxRetries fen ascii moves systemPrompt ;;
  if returned then ret tt else
  emit ConsoleWarn ;;
  u <- Math_random ;;
  let mv := element moves (random_index u (length moves)) in
  game_move (san_or_undefined mv) ;;
  board_position ;;
  updateStatus.

End WithCollaborators.

Notation "x <- m ;; f" := (bind m (fun x => f))
  (at level 61, m at next level, right associativity).
Notation "m ;; f" := (bind m (fun _ => f))
  (at level 61, right associativity).

End Orchestrator.

(* ================================================================= *)
(** * The vocabulary of the specification *)

Module Notions.
Import JsString.

Definition is_file (c : ascii) : bool := between "a" "h" c.
Definition is_rank (c : ascii) : bool := between "1" "8" c.

(** A square: a file letter a-h followed by a rank digit 1-8. *)
Definition square (w : jsstring) : Prop :=
  exists f r, w = [f; r] /\ is_file f = true /\ is_rank r = true.

(** A coordinate pair: origin square, hyphen, destination square. *)
Definition coordinate_pair (w : jsstring) : Prop :=
  exists o d, square o /\ square d /\ w = o ++ "-"%js ++ d.

(** The test that the first pattern makes at one index. *)
Definition coord_here (s : jsstring) : bool :=
  match s with
  | f1 :: r1 :: h :: f2 :: r2 :: _ =>
      is_file f1 && is_rank r1 && Ascii.eqb h "-" && is_file f2 && is_rank r2
  | _ => false
  end.

Definition one_of (l : list ascii) (c : ascii) : bool :=
  existsb (Ascii.eqb c) l.

Definition is_piece : ascii -> bool := one_of ["N"; "B"; "R"; "Q"; "K"].
Definition is_promotion : ascii -> bool := one_of ["N"; "B"; "R"; "Q"].
Definition is_capture : ascii -> bool := one_of ["x"].
Definition is_check : ascii -> bool := one_of ["+"; "#"].

(** An optional part of one code unit. *)
Definition optional (P : ascii -> bool) (w : jsstring) : Prop :=
  w = [] \/ exists c, w = [c] /\ P c = true.

(** A token of the algebraic grammar: optional piece letter, optional file
    letter, optional rank digit, optional capture marker, destination
    square, optional promotion suffix, optional check or checkmate mark.
    The letters that can follow [=] are a parameter. *)
Definition san_token (promo : ascii -> bool) (t : jsstring) : Prop :=
  exists p f r x d q c,
    t = p ++ f ++ r ++ x ++ d ++ q ++ c /\
    optional is_piece p /\ optional is_file f /\ optional is_rank r /\
    optional is_capture x /\ square d /\
    (q = [] \/ exists a, q = ["="; a] /\ promo a = true) /\
    optional is_check c.

(** The last code unit of a token before its check mark. *)
Definition final_unit (e : ascii) : bool := is_rank e || is_promotion e.

Definition castling_token (t : jsstring) : Prop :=
  t = "O-O"%js \/ t = "O-O-O"%js.

(** The second rule as the specification words it: what it matches is a
    token of the grammar, with [=[NBRQ]] for the promotion, or a castling
    token; the match ends where the trimmed reply ends; the token is the
    result; and a reply that ends with a token is matched. *)
Definition notation_rule_as_stated : Prop :=
  (forall (mvs : list jsstring) (reply t : jsstring),
      string_match_g re_regular (trim reply) = None ->
      string_match re_notation (trim reply) = Some t ->
      (san_token is_promotion t \/ castling_token t) /\
      (exists pre, trim reply = pre ++ t) /\
      parseMove mvs reply = VString t) /\
  (forall (reply pre t : jsstring),
      trim reply = pre ++ t ->
      san_token is_promotion t \/ castling_token t ->
      string_match re_notation (trim reply) <> None).

(** [r] contains [m] as a substring, up to the case of the letters. *)
Definition contains_ci (r m : jsstring) : Prop :=
  exists a w b, r = a ++ w ++ b /\ toLowerCase w = toLowerCase m.

(** What [tryMoveOpponent] takes for a reply without a move: a result of
    [parseMove] that fails the test [if (!move)]. *)
Definition unresolved (v : value) : Prop := truthy v = false.

End Notions.

(* ================================================================= *)
(** * The vocabulary of the specification of the orchestrator *)

Module Protocol.
Import JsString Notions Orchestrator.

Section WithCollaborators.

Context {Game : Type} (C : Collaborators Game).

Let E := engine C.

(** ** What is assumed of the rules engine and of [Math.random] *)

(** A call to [game.move] that throws leaves the position as it was. *)
Definition engine_atomic : Prop :=
  forall g a g', move E g a = (g', false) -> g' = g.

(** Every move that the engine lists is a move that it accepts. *)
Definition legal_moves_accepted : Prop :=
  forall g m, In m (moves E g) -> snd (move E g (BySan m)) = true.

(** A game that is not over has a legal move. *)
Definition nonterminal_has_moves : Prop :=
  forall g, isGameOver E g = false -> moves E g <> [].

(** A move that is made passes the turn to the other side. *)
Definition move_passes_turn : Prop :=
  forall g a g', move E g a = (g', true) -> turn E g' <> turn E g.

(** [Math.random] returns a number from 0 inclusive to 1 exclusive. *)
Definition random_in_range : Prop :=
  forall n, JsNumber.in_unit_interval (random C n) = true.

(** ** States and traces *)

(** The state [st] with the position [g] and the events [evs] added. *)
Definition after (st : ChessGame Game) (g : Game) (evs : list event)
  : ChessGame Game :=
  {| color := color st; game := g; trace := trace st ++ evs |}.

(** It is the turn of the side that the opponent plays. *)
Definition opponent_to_move (st : ChessGame Game) : bool :=
  match turn E (game st), color st with
  | W, black => true
  | B, white => true
  | _, _ => false
  end.

(** The prompt that describes the position [g]. *)
Definition position_prompt (g : Game) : jsstring :=
  prompt_of (fen E g) (board_ascii E g) (moves E g).

(** A reply leads to a move that the engine makes in position [g]. *)
Definition usable (g : Game) (mvs : list jsstring) (reply : option jsstring)
  : bool :=
  match reply with
  | None => false
  | Some r =>
      let mv := parseMove mvs r in
      truthy mv &&
      match candidate mv with
      | Some arg => snd (move E g arg)
      | None => false
      end
  end.

Definition is_display (e : event) : bool :=
  match e with
  | BoardPosition _ => true
  | UpdateStatus => true
  | _ => false
  end.

Definition is_move_made (e : event) : bool :=
  match e with
  | GameMove _ true => true
  | _ => false
  end.

Definition is_error (e : event) : bool :=
  match e with
  | ConsoleError => true
  | _ => false
  end.

(** The events of one attempt that fails, for the three reasons of a
    failure: the generation is rejected, the reply has no move, the engine
    rejects the move.  Each has one request and ends with the one error
    message of the [catch] clause. *)
Inductive failed_attempt (mvs : list jsstring) (p s : jsstring)
  : list event -> Prop :=
| failed_generation :
    failed_attempt mvs p s [GenerateRaw p s None; ConsoleError]
| failed_resolution r :
    unresolved (parseMove mvs r) ->
    failed_attempt mvs p s [GenerateRaw p s (Some r); ConsoleError]
| failed_move r arg :
    candidate (parseMove mvs r) = Some arg ->
    failed_attempt mvs p s
      [GenerateRaw p s (Some r); GameMove arg false; ConsoleError].

(** The events of the attempt that succeeds. *)
Inductive successful_attempt (mvs : list jsstring) (p s : jsstring)
  : list event -> Prop :=
| successful r arg position :
    candidate (parseMove mvs r) = Some arg ->
    successful_attempt mvs p s
      [GenerateRaw p s (Some r); GameMove arg true;
       BoardPosition position; UpdateStatus].

(** The events of the fallback. *)
Inductive fallback_events : completion unit -> list event -> Prop :=
| fallback_made u arg position :
    fallback_events (Normal tt)
      [ConsoleWarn; MathRandom u; GameMove arg true;
       BoardPosition position; UpdateStatus]
| fallback_thrown u arg :
    fallback_events Throw [ConsoleWarn; MathRandom u; GameMove arg false].

(** The events of one invocation: nothing; or fewer than three failed
    attempts and a successful one; or three failed attempts and the
    fallback. *)
Inductive invocation_events (mvs : list jsstring) (p s : jsstring)
  : completion unit -> list event -> Prop :=
| invocation_noop : invocation_events mvs p s (Normal tt) []
| invocation_success fails last :
    Forall (failed_attempt mvs p s) fails -> length fails < 3 ->
    successful_attempt mvs p s last ->
    invocation_events mvs p s (Normal tt) (concat fails ++ last)
| invocation_fallback fails r last :
    Forall (failed_attempt mvs p s) fails -> length fails = 3 ->
    fallback_events r last ->
    invocation_events mvs p s r (concat fails ++ last).

(** The statements that follow the loop, when no attempt has succeeded. *)
Definition random_move (mvs : list jsstring) : M unit :=
  emit ConsoleWarn ;;
  u <- Math_random C ;;
  let mv := element mvs (random_index u (length mvs)) in
  game_move C (san_or_undefined mv) ;;
  board_position C ;;
  updateStatus.


(** ** The attempts as the specification words them *)

(** What one attempt does with the list [mvs] of legal moves and the prompt
    made of [pos], [brd] and [mvs], by the cases of the reply: the request
    is rejected; or the reply is given to the resolver with the list [mvs],
    and the resolver finds no move in it; or the move that it finds is
    given to the engine, which rejects it or makes it.  The value is whether
    a move was made. *)
Definition attempt_outcome (pos brd : jsstring) (mvs : list jsstring)
           (sys : jsstring) (st : ChessGame Game)
  : completion bool * ChessGame Game :=
  let p := prompt_of pos brd mvs in
  let reply := generateRaw C (count is_request (trace st)) p sys in
  let request := GenerateRaw p sys reply in
  match reply with
  | None => (Normal false, after st (game st) [request; ConsoleError])
  | Some r =>
      match candidate (parseMove mvs r) with
      | Some arg =>
          if truthy (parseMove mvs r) then
            let (g', returned) := move E (game st) arg in
            if returned
            then (Normal true,
                  after st g' [request; GameMove arg true;
                               BoardPosition (fen E g'); UpdateStatus])
            else (Normal false,
                  after st g' [request; GameMove arg false; ConsoleError])
          else (Normal false, after st (game st) [request; ConsoleError])
      | None => (Normal false, after st (game st) [request; ConsoleError])
      end
  end.





End WithCollaborators.

End Protocol.

(* ================================================================= *)
(** * A small engine, to run the orchestrator *)

Module Toy.
Import JsString.

Fixpoint eqb_string (s t : jsstring) : bool :=
  match s, t with
  | [], [] => true
  | c :: s', d :: t' => Ascii.eqb c d && eqb_string s' t'
  | _, _ => false
  end.

(** A position is the number of moves made; the game is over after four
    moves; before that the same three moves are legal. *)
Definition toy_over (g : nat) : bool := (4 <=? g)%nat.

Definition toy_moves (g : nat) : list jsstring :=
  if toy_over g then [] else ["e4"%js; "Nf3"%js; "d4"%js].

Definition toy_move (g : nat) (a : move_arg) : nat * bool :=
  match a with
  | BySan s => if existsb (eqb_string s) (toy_moves g) then (S g, true)
               else (g, false)
  | ByObject (Some o) (Some d) =>
      if negb (toy_over g) && eqb_string o "e2"%js && eqb_string d "e4"%js
      then (S g, true) else (g, false)
  | _ => (g, false)
  end.

Definition toy_moves_is_array (g : nat)
  : (Z.of_nat (length (toy_moves g)) < 2 ^ 32)%Z :=
  match toy_over g as over
        return (Z.of_nat (length (if over then []
                                  else ["e4"%js; "Nf3"%js; "d4"%js])) < 2 ^ 32)%Z
  with
  | true => eq_refl
  | false => eq_refl
  end.

Definition toy_engine : Chess nat :=
  {| turn := fun g => if Nat.even g then W else B;
     isGameOver := toy_over;
     moves := toy_moves;
     fen := fun g => "position "%js ++ [ascii_of_nat (48 + g)];
     board_ascii := fun g => "board"%js;
     move := toy_move;
     moves_is_array := toy_moves_is_array |}.

(** The number 0.5. *)
Definition half : JsNumber.number := S754_finite false 4503599627370496 (- 53).

(** A generator whose replies have no move, one whose second reply names
    a legal move, and one that replies with just a legal move. *)
Definition garbage : Collaborators nat :=
  {| engine := toy_engine;
     generateRaw := fun _ _ _ => Some "I have no idea what to play"%js;
     random := fun _ => half |}.

Definition helpful : Collaborators nat :=
  {| engine := toy_engine;
     generateRaw := fun n _ _ =>
       match n with
       | 0 => None
       | 1 => Some "I'll play Nf3"%js
       | _ => Some "e2-e5"%js
       end;
     random := fun _ => half |}.

Definition direct : Collaborators nat :=
  {| engine := toy_engine;
     generateRaw := fun _ _ _ => Some "Nf3"%js;
     random := fun _ => half |}.






(** The opponent plays white and is to move. *)
Definition start : ChessGame nat :=
  {| color := black; game := 0; trace := [] |}.

(** The same game after two requests that were rejected. *)
Definition later : ChessGame nat :=
  {| color := black; game := 0;
     trace := [GenerateRaw ""%js ""%js None; ConsoleError;
               GenerateRaw ""%js ""%js None; ConsoleError] |}.

End Toy.

(* ================================================================= *)
(** * The handlers of the board and of the undo button *)

(** The methods of the rules engine that the handlers use and that
    [tryMoveOpponent] does not: [move_promotion g from to p] is
    [game.move({ from, to, promotion: p })], with the position left by the
    call and whether it returned; [undo] is [game.undo()];
    [moves_from g square] lists the [to] of
    [game.moves({ square, verbose: true })]; the rest are the predicates of
    the same names. *)
Record ChessMore (Game : Type) := {
  move_promotion : Game -> jsstring -> jsstring -> jsstring -> Game * bool;
  undo : Game -> Game;
  moves_from : Game -> jsstring -> list jsstring;
  isCheckmate : Game -> bool;
  inCheck : Game -> bool;
  isStalemate : Game -> bool;
  isDraw : Game -> bool;
  isThreefoldRepetition : Game -> bool
}.

Arguments move_promotion {Game}.
Arguments undo {Game}.
Arguments moves_from {Game}.
Arguments isCheckmate {Game}.
Arguments inCheck {Game}.
Arguments isStalemate {Game}.
Arguments isDraw {Game}.
Arguments isThreefoldRepetition {Game}.

(** The calls that the handlers make and that [tryMoveOpponent] does not,
    in the order of the calls. *)
Inductive ui_event :=
| RemoveGraySquares
| GraySquare (square : jsstring)
| MovePromotion (from to promotion : jsstring) (returned : bool)
| Undo.

(** The game with the trace of the calls of the handlers. *)
Record Widget (Game : Type) := {
  chess : ChessGame Game;
  ui : list ui_event
}.

Arguments chess {Game}.
Arguments ui {Game}.

(** What [onDragStart] returns: [false] or nothing. *)
Inductive drag_answer := ReturnsFalse | ReturnsUndefined.

Module Handlers.
Import JsString.

Section WithCollaborators.

Context {Game : Type} (C : Collaborators Game) (X : ChessMore Game).

Definition H (A : Type) : Type := Widget Game -> completion A * Widget Game.

Definition ret {A} (a : A) : H A := fun w => (Normal a, w).

Definition bind {A B} (m : H A) (f : A -> H B) : H B :=
  fun w =>
    match m w with
    | (Normal a, w') => f a w'
    | (Throw, w') => (Throw, w')
    end.

(** [try { body } catch { handler }] *)
Definition try_catch {A} (body handler : H A) : H A :=
  fun w =>
    match body w with
    | (Normal a, w') => (Normal a, w')
    | (Throw, w') => handler w'
    end.

Notation "x <- m ;; f" := (bind m (fun x => f))
  (at level 61, m at next level, right associativity).
Notation "m ;; f" := (bind m (fun _ => f))
  (at level 61, right associativity).

(** A method of the game, run on the game of the widget. *)
Definition core {A} (m : Orchestrator.M A) : H A :=
  fun w =>
    match m (chess w) with
    | (r, st) => (r, {| chess := st; ui := ui w |})
    end.

(** A call to an [async] method whose promise is dropped: the method runs,
    and what it throws rejects the promise, which nobody reads. *)
Definition not_awaited (m : Orchestrator.M unit) : H unit :=
  fun w =>
    match m (chess w) with
    | (_, st) => (Normal tt, {| chess := st; ui := ui w |})
    end.

Definition emit_ui (e : ui_event) : H unit :=
  fun w => (Normal tt, {| chess := chess w; ui := ui w ++ [e] |}).

Definition removeGraySquares : H unit := emit_ui RemoveGraySquares.

Definition graySquare (square : jsstring) : H unit := emit_ui (GraySquare square).

(** [this.game.move({ from, to, promotion })] *)
Definition game_move_promotion (from to promotion : jsstring) : H unit :=
  fun w =>
    let (g', returned) := move_promotion X (game (chess w)) from to promotion in
    ((if returned then Normal tt else Throw),
     {| chess := {| color := color (chess w); game := g';
                    trace := trace (chess w) |};
        ui := ui w ++ [MovePromotion from to promotion returned] |}).

(** [this.game.undo()] *)
Definition game_undo : H unit :=
  fun w =>
    (Normal tt,
     {| chess := {| color := color (chess w); game := undo X (game (chess w));
                    trace := trace (chess w) |};
        ui := ui w ++ [Undo] |}).

(** The test that [onDragStart] and [onMouseoverSquare] write out:
    [(turn === 'w' && color === 'black') || (turn === 'b' && color === 'white')] *)
Definition opponent_pieces_move (w : Widget Game) : bool :=
  match turn (engine C) (game (chess w)), color (chess w) with
  | W, black => true
  | B, white => true
  | _, _ => false
  end.

Definition isUserTurn : Orchestrator.M bool :=
  fun st =>
    (Normal (match turn (engine C) (game st), color st with
             | W, white => true
             | B, black => true
             | _, _ => false
             end), st).

Definition onDragStart (source piece : jsstring) : H drag_answer :=
  fun w =>
    if isGameOver (engine C) (game (chess w)) then ret ReturnsFalse w
    else (removeGraySquares ;;
          fun w' =>
            if opponent_pieces_move w' then ret ReturnsFalse w'
            else ret ReturnsUndefined w') w.

(** The value is [Some "snapback"] or [None], for no value. *)
Definition onDrop (source target : jsstring) : H (option jsstring) :=
  removeGraySquares ;;
  try_catch
    (game_move_promotion source target "q"%js ;;
     core (Orchestrator.board_position C) ;;
     core Orchestrator.updateStatus ;;
     not_awaited (Orchestrator.tryMoveOpponent C) ;;
     ret None)
    (ret (Some "snapback"%js)).

Definition onMouseoverSquare (square piece : jsstring) : H unit :=
  fun w =>
    if isGameOver (engine C) (game (chess w)) then ret tt w
    else if opponent_pieces_move w then ret tt w
    else
      let moves := moves_from X (game (chess w)) square in
      if (length moves =? 0)%nat then ret tt w
      else (graySquare square ;;
            fold_left (fun done to => done ;; graySquare to) moves (ret tt)) w.

Definition onMouseoutSquare (square piece : jsstring) : H unit :=
  removeGraySquares.

Definition onSnapEnd : H unit := core (Orchestrator.board_position C).

(** The listener of the undo button, in [launch]. *)
Definition undoButton_click : H unit :=
  opponent <- core (Orchestrator.isOpponentTurn C) ;;
  if opponent then ret tt else
  game_undo ;;
  core (Orchestrator.board_position C) ;;
  game_undo ;;
  core (Orchestrator.board_position C) ;;
  core Orchestrator.updateStatus ;;
  not_awaited (Orchestrator.tryMoveOpponent C).

(** ** The texts of [getOutcome] and [updateStatus] *)

Definition side_name (s : Side) : jsstring :=
  match s with
  | W => "White"%js
  | B => "Black"%js
  end.

Definition other_side (s : Side) : Side :=
  match s with
  | W => B
  | B => W
  end.

Definition getOutcome (g : Game) : jsstring :=
  if isCheckmate X g then
    side_name (other_side (turn (engine C) g)) ++ " wins by checkmate"%js
  else if isStalemate X g then "the game is a stalemate"%js
  else if isDraw X g then "the game is a draw"%js
  else if isThreefoldRepetition X g then "the game is a threefold repetition"%js
  else "the game was inconclusive"%js.

(** A text of the page, as UTF-16 code units: one of the texts has a code
    unit above 255. *)
Definition text := list N.

Definition units (s : jsstring) : text := map N_of_ascii s.

(** What [updateStatus] assigns to [opponentStatusText.textContent]; the
    cross is U+2715. *)
Definition opponentStatusText (st : ChessGame Game) : text :=
  if isGameOver (engine C) (game st) then
    units "Game over. Press "%js ++ [10005%N] ++ units " to close"%js
  else
    match Orchestrator.isOpponentTurn C st with
    | (Normal true, _) => units "Thinking..."%js
    | _ =>
        match isUserTurn st with
        | (Normal true, _) => units "Your turn!"%js
        | _ => []
        end
    end.

(** What [updateStatus] assigns to [userStatusText.textContent]. *)
Definition userStatusText (st : ChessGame Game) : text :=
  let g := game st in
  if isCheckmate X g then
    units ("Checkmate! "%js ++ side_name (other_side (turn (engine C) g))
           ++ " wins"%js)
  else if inCheck X g then
    units (side_name (turn (engine C) g) ++ " is in check"%js)
  else if isStalemate X g then units "Game is a stalemate"%js
  else if isDraw X g then units "Game is a draw"%js
  else if isThreefoldRepetition X g then units "Game is a threefold repetition"%js
  else [].

End WithCollaborators.

End Handlers.

(* ================================================================= *)
(** * The listener that removes the injects left in the chat metadata *)

Module StuckInjects.
Import JsString Regex.

(** [[a-z0-9]] *)
Definition alnum : list citem := [Range "a" "z"; Range "0" "9"].

(** A character class under [+]: one code unit of the class, then as many
    more as the rest of the pattern allows, the longest run first. *)
Fixpoint plus_class {X : Type} (l : list citem) (i : nat) (s : jsstring)
         (k : nat -> jsstring -> option X) : option X :=
  match s with
  | d :: s' =>
      if in_class l d then
        match plus_class l (S i) s' k with
        | Some x => Some x
        | None => k (S i) s'
        end
      else None
  | [] => None
  end.

(** [chess-] *)
Definition re_chess : regex :=
  seq [Lit "c"; Lit "h"; Lit "e"; Lit "s"; Lit "s"; Lit "-"].

(** [/chess-[a-z0-9]+$/] at one index. *)
Definition match_stuck_at (i : nat) (s : jsstring) : option nat :=
  rmatch re_chess i s
         (fun j t => plus_class alnum j t
                       (fun j' t' => rmatch Eol j' t' (fun j'' _ => Some j''))).

(** [/chess-[a-z0-9]+$/.test(key)]: the search goes from left to right. *)
Fixpoint test_from (i : nat) (s : jsstring) : bool :=
  match match_stuck_at i s with
  | Some _ => true
  | None =>
      match s with
      | [] => false
      | _ :: s' => test_from (S i) s'
      end
  end.

Definition test (key : jsstring) : bool := test_from 0 key.

Fixpoint key_eqb (s t : jsstring) : bool :=
  match s, t with
  | [], [] => true
  | c :: s', d :: t' => Ascii.eqb c d && key_eqb s' t'
  | _, _ => false
  end.

(** An object as the list of its properties, in the order of [for ... in]. *)
Definition object (V : Type) : Type := list (jsstring * V).

(** [delete chatMetadata[key]] *)
Definition delete {V} (key : jsstring) (o : object V) : object V :=
  filter (fun kv => negb (key_eqb (fst kv) key)) o.

(** The body of the loop, for one key: the object that is left and the
    keys that [console.log] has reported. *)
Definition visit {V} (state : object V * list jsstring) (key : jsstring)
  : object V * list jsstring :=
  if test key then (delete key (fst state), snd state ++ [key]) else state.

(** The listener of [CHAT_CHANGED]: the loop over the keys of
    [chatMetadata]. *)
Definition remove_stuck {V} (chatMetadata : object V)
  : object V * list jsstring :=
  fold_left visit (map fst chatMetadata) (chatMetadata, []).

(** The keys that the pattern describes: they end with [chess-] and one or
    more lower-case letters or digits. *)
Definition stuck_key (key : jsstring) : Prop :=
  exists pre w, key = pre ++ "chess-"%js ++ w /\ w <> [] /\
                forallb (in_class alnum) w = true.

End StuckInjects.

(* ================================================================= *)
(** * More vocabulary for the orchestrator and the handlers *)

Module ProtocolMore.
Import JsString Notions Orchestrator Protocol.

Section WithCollaborators.

Context {Game : Type} (C : Collaborators Game) (X : ChessMore Game).

Let E := engine C.

(** Every call to [game.move], with a promotion or not, that throws leaves
    the position as it was. *)
Definition promotion_atomic : Prop :=
  forall g o d p g', move_promotion X g o d p = (g', false) -> g' = g.

(** A move with a promotion that is made passes the turn. *)
Definition promotion_passes_turn : Prop :=
  forall g o d p g', move_promotion X g o d p = (g', true) ->
                     turn E g' <> turn E g.

(** [undo] takes back the last move that was made. *)
Definition undo_takes_back : Prop :=
  (forall g a g', move E g a = (g', true) -> undo X g' = g) /\
  (forall g o d p g', move_promotion X g o d p = (g', true) -> undo X g' = g).

(** A threefold repetition is a draw, as chess.js defines [isDraw]. *)
Definition threefold_is_draw : Prop :=
  forall g, isThreefoldRepetition X g = true -> isDraw X g = true.

(** The state after the first statements of [onDrop] for a move that the
    engine makes, before the opponent is asked to move. *)
Definition dropped (w : Widget Game) (source target : jsstring) (g1 : Game)
  : Widget Game :=
  {| chess := after (chess w) g1 [BoardPosition (fen E g1); UpdateStatus];
     ui := ui w ++ [RemoveGraySquares;
                    MovePromotion source target "q"%js true] |}.

(** It is the turn of the side that the user plays. *)
Definition user_to_move (st : ChessGame Game) : bool :=
  match turn E (game st), color st with
  | W, white => true
  | B, black => true
  | _, _ => false
  end.

End WithCollaborators.

End ProtocolMore.

(** The small engine, with the methods that the handlers use: [undo] takes
    one move back; the fourth move mates, and later positions are a
    stalemate, a draw, and a draw by repetition. *)
Module ToyMore.
Import JsString Toy.

Definition toy_more : ChessMore nat :=
  {| move_promotion := fun g o d p =>
       if negb (toy_over g) && eqb_string o "e7"%js && eqb_string d "e5"%js
       then (S g, true) else (g, false);
     undo := Nat.pred;
     moves_from := fun g square =>
       if eqb_string square "e7"%js then ["e6"%js; "e5"%js] else [];
     isCheckmate := fun g => (g =? 4)%nat;
     inCheck := fun g => (3 <=? g)%nat && (g <=? 4)%nat;
     isStalemate := fun g => (g =? 5)%nat;
     isDraw := fun g => (6 <=? g)%nat;
     isThreefoldRepetition := fun g => (7 <=? g)%nat |}.

(** The user plays black and is to move, after the first move of white. *)
Definition users_turn : Widget nat :=
  {| chess := {| color := black; game := 1; trace := [] |}; ui := [] |}.

(** The user plays black and is to make the fourth move, which mates. *)
Definition last_move : Widget nat :=
  {| chess := {| color := black; game := 3; trace := [] |}; ui := [] |}.

(** A position that has been repeated. *)
Definition repeated : ChessGame nat :=
  {| color := black; game := 7; trace := [] |}.

End ToyMore.
(* ================================================================= *)
(** * Facts about strings *)

Module JsStringFacts.
Import JsString.

Lemma trimStart_length (s : jsstring) : length (trimStart s) <= length s.
Proof.
  induction s as [|c s IH]; simpl; [lia|].
  destruct (isWhiteSpace c); simpl; lia.
Qed.

(** [trimStart] removes a prefix. *)
Lemma trimStart_suffix (s : jsstring) : exists u, s = u ++ trimStart s.
Proof.
  induction s as [|c s [u IH]]; simpl.
  - now exists [].
  - destruct (isWhiteSpace c).
    + exists (c :: u). simpl. now f_equal.
    + now exists [].
Qed.

Lemma trimEnd_prefix (s : jsstring) : exists v, s = trimEnd s ++ v.
Proof.
  unfold trimEnd. destruct (trimStart_suffix (rev s)) as [u Hu].
  exists (rev u). rewrite <- rev_app_distr, <- Hu. now rewrite rev_involutive.
Qed.

Lemma trimStart_fixed_head (c : ascii) (s : jsstring) :
  trimStart (c :: s) = c :: s -> isWhiteSpace c = false.
Proof.
  simpl. destruct (isWhiteSpace c); [|reflexivity].
  intros H. pose proof (trimStart_length s) as L.
  rewrite H in L. simpl in L. lia.
Qed.

Lemma trimStart_idem (s : jsstring) : trimStart (trimStart s) = trimStart s.
Proof.
  induction s as [|c s IH]; simpl; [reflexivity|].
  destruct (isWhiteSpace c) eqn:E; [assumption|].
  simpl. now rewrite E.
Qed.

(** Code units in front of a code unit that is not white space. *)
Lemma trimStart_app_head (a : jsstring) (c : ascii) (s : jsstring) :
  isWhiteSpace c = false ->
  trimStart (a ++ c :: s) = trimStart a ++ c :: s.
Proof.
  intros Hc. induction a as [|x a IH]; simpl.
  - now rewrite Hc.
  - destruct (isWhiteSpace x); [assumption|reflexivity].
Qed.

Lemma trimStart_app (a w b : jsstring) :
  w <> [] -> trimStart w = w ->
  trimStart (a ++ w ++ b) = trimStart a ++ w ++ b.
Proof.
  intros Hne Hw. destruct w as [|c w]; [congruence|].
  apply trimStart_fixed_head in Hw. simpl.
  now apply trimStart_app_head.
Qed.

Lemma trimEnd_app (a w b : jsstring) :
  w <> [] -> trimStart (rev w) = rev w ->
  trimEnd (a ++ w ++ b) = a ++ w ++ trimEnd b.
Proof.
  intros Hne Hw. unfold trimEnd.
  rewrite !rev_app_distr, <- app_assoc.
  replace (rev b ++ rev w ++ rev a) with (rev b ++ rev w ++ rev a ++ [])
    by now rewrite app_nil_r.
  rewrite (trimStart_app (rev b) (rev w) (rev a ++ [])).
  - rewrite app_nil_r, !rev_app_distr, !rev_involutive.
    now rewrite <- app_assoc.
  - intros E. apply Hne. apply (f_equal (@rev ascii)) in E.
    now rewrite rev_involutive in E.
  - assumption.
Qed.

(** Trimming leaves a non-empty clean substring where it is. *)
Lemma trim_around (a w b : jsstring) :
  w <> [] -> clean w ->
  trim (a ++ w ++ b) = trimStart a ++ w ++ trimEnd b.
Proof.
  intros Hne [H1 H2]. unfold trim.
  rewrite trimStart_app by assumption.
  now apply trimEnd_app.
Qed.

Lemma trimEnd_keeps_start (x : jsstring) :
  trimStart x = x -> trimStart (trimEnd x) = trimEnd x.
Proof.
  intros Hx. destruct x as [|c x]; [reflexivity|].
  apply trimStart_fixed_head in Hx.
  unfold trimEnd. simpl rev.
  rewrite trimStart_app_head by assumption.
  rewrite rev_app_distr. simpl. now rewrite Hx.
Qed.

Lemma trim_clean (s : jsstring) : clean (trim s).
Proof.
  split.
  - unfold trim. apply trimEnd_keeps_start, trimStart_idem.
  - unfold trim, trimEnd. rewrite rev_involutive. apply trimStart_idem.
Qed.

Lemma clean_trim (w : jsstring) : clean w -> trim w = w.
Proof.
  intros [H1 H2]. unfold trim, trimEnd. rewrite H1, H2.
  apply rev_involutive.
Qed.

Lemma trim_fixed_clean (w : jsstring) : trim w = w -> clean w.
Proof. intros H. rewrite <- H. apply trim_clean. Qed.

Lemma trim_idem (s : jsstring) : trim (trim s) = trim s.
Proof. apply clean_trim, trim_clean. Qed.

(** The trimmed string sits inside the string, after the white space that
    [trimStart] removes. *)
Lemma trim_inside (s : jsstring) :
  exists u v, s = u ++ trim s ++ v /\
              length u = length s - length (trimStart s).
Proof.
  destruct (trimStart_suffix s) as [u Hu].
  destruct (trimEnd_prefix (trimStart s)) as [v Hv].
  exists u, v. split.
  - unfold trim. now rewrite <- Hv.
  - apply (f_equal (@length ascii)) in Hu. rewrite length_app in Hu. lia.
Qed.

End JsStringFacts.

Module JsSearchFacts.
Import JsString JsStringFacts.

Ltac each_code_unit c :=
  destruct c as [[] [] [] [] [] [] [] []].

Lemma lowerChar_isWhiteSpace (c : ascii) :
  isWhiteSpace (lowerChar c) = isWhiteSpace c.
Proof. each_code_unit c; reflexivity. Qed.

Lemma toLowerCase_app (s t : jsstring) :
  toLowerCase (s ++ t) = toLowerCase s ++ toLowerCase t.
Proof. apply map_app. Qed.

Lemma toLowerCase_trimStart (s : jsstring) :
  trimStart (toLowerCase s) = toLowerCase (trimStart s).
Proof.
  induction s as [|c s IH]; simpl; [reflexivity|].
  rewrite lowerChar_isWhiteSpace.
  destruct (isWhiteSpace c); [assumption|reflexivity].
Qed.

Lemma toLowerCase_rev (s : jsstring) :
  toLowerCase (rev s) = rev (toLowerCase s).
Proof. apply map_rev. Qed.

Lemma toLowerCase_trimEnd (s : jsstring) :
  trimEnd (toLowerCase s) = toLowerCase (trimEnd s).
Proof.
  unfold trimEnd.
  now rewrite <- toLowerCase_rev, toLowerCase_trimStart, toLowerCase_rev.
Qed.

Lemma toLowerCase_trim (s : jsstring) :
  trim (toLowerCase s) = toLowerCase (trim s).
Proof.
  unfold trim. now rewrite toLowerCase_trimStart, toLowerCase_trimEnd.
Qed.

Lemma toLowerCase_clean (w : jsstring) : clean w -> clean (toLowerCase w).
Proof.
  intros [H1 H2]. split.
  - now rewrite toLowerCase_trimStart, H1.
  - now rewrite <- toLowerCase_rev, toLowerCase_trimStart, H2.
Qed.

Lemma startsWith_spec (s t : jsstring) :
  startsWith s t = true <-> exists b, s = t ++ b.
Proof.
  revert s. induction t as [|c t IH]; intros s; simpl.
  - split; [intros _; now exists s | reflexivity].
  - destruct s as [|d s].
    + split; [discriminate | intros [b Hb]; discriminate].
    + rewrite andb_true_iff, Ascii.eqb_eq, IH. split.
      * intros [-> [b ->]]. now exists b.
      * intros [b Hb]. injection Hb as -> ->. split; [reflexivity|now exists b].
Qed.

Lemma includes_spec (s t : jsstring) :
  includes s t = true <-> exists a b, s = a ++ t ++ b.
Proof.
  induction s as [|c s IH].
  - simpl. rewrite orb_false_r, startsWith_spec. split.
    + intros [b Hb]. now exists [], b.
    + intros [a [b Hb]]. destruct a; [now exists b|discriminate].
  - cbn [includes]. rewrite orb_true_iff, startsWith_spec, IH. split.
    + intros [[b Hb] | [a [b Hb]]].
      * now exists [], b.
      * exists (c :: a), b. simpl. now f_equal.
    + intros [[|x a] [b Hb]].
      * left. now exists b.
      * right. injection Hb as -> ->. now exists a, b.
Qed.

Lemma includes_in_nil (t : jsstring) : includes [] t = true -> t = [].
Proof.
  intros H. apply includes_spec in H. destruct H as [a [b H]].
  symmetry in H. apply app_eq_nil in H. destruct H as [_ H].
  now apply app_eq_nil in H.
Qed.

End JsSearchFacts.

(* ================================================================= *)
(** * Facts about the matcher *)

Module RegexFacts.
Import Regex.

(** The first element of the array of a global match is the text of the
    leftmost match. *)
Lemma match_all_hd (r : regex) (s : jsstring) (i : nat) :
  hd_error (match_all r i s 0) = option_map snd (exec_from r i s).
Proof.
  revert i. induction s as [|c s IH]; intros i; simpl.
  - destruct (match_at r i []); reflexivity.
  - destruct (match_at r i (c :: s)); [reflexivity|apply IH].
Qed.

Lemma exec_from_none (r : regex) (s : jsstring) (i : nat) :
  exec_from r i s = None ->
  forall a rest, s = a ++ rest -> match_at r (i + length a) rest = None.
Proof.
  revert i. induction s as [|c s IH]; intros i H a rest E; simpl in H.
  - symmetry in E. apply app_eq_nil in E. destruct E as [-> ->].
    simpl. rewrite Nat.add_0_r.
    destruct (match_at r i []); [discriminate|reflexivity].
  - destruct (match_at r i (c :: s)) eqn:M; [discriminate|].
    destruct a as [|x a]; simpl in E.
    + subst rest. simpl. now rewrite Nat.add_0_r.
    + injection E as -> E. simpl.
      rewrite <- plus_n_Sm. now apply (IH (S i)).
Qed.

(** The leftmost match: its index, its text, and no match before it. *)
Lemma exec_from_some (r : regex) (s : jsstring) (i p : nat) (m : jsstring) :
  exec_from r i s = Some (p, m) ->
  exists a rest j,
    s = a ++ rest /\ p = i + length a /\
    match_at r p rest = Some j /\ m = firstn (j - p) rest /\
    forall a' rest', s = a' ++ rest' -> length a' < length a ->
                     match_at r (i + length a') rest' = None.
Proof.
  revert i. induction s as [|c s IH]; intros i H; simpl in H.
  - destruct (match_at r i []) as [j|] eqn:M; [|discriminate].
    injection H as <- <-. exists [], [], j. simpl.
    rewrite Nat.add_0_r. repeat split; try assumption.
    intros a' rest' _ L. lia.
  - destruct (match_at r i (c :: s)) as [j|] eqn:M.
    + injection H as <- <-. exists [], (c :: s), j. simpl.
      rewrite Nat.add_0_r. repeat split; try assumption.
      intros a' rest' _ L. lia.
    + destruct (IH (S i) H) as (a & rest & j & E & Hp & Hm & Ht & Hmin).
      exists (c :: a), rest, j. simpl. rewrite <- plus_n_Sm.
      repeat split; try assumption; [now f_equal|].
      intros a' rest' E' L. destruct a' as [|x a']; simpl in E'.
      * subst rest'. simpl. now rewrite Nat.add_0_r.
      * injection E' as -> E'. simpl. rewrite <- plus_n_Sm.
        apply Hmin; [assumption|simpl in L; lia].
Qed.

(** A match at some index makes the search succeed. *)
Lemma exec_from_finds (r : regex) (s a rest : jsstring) (i j : nat) :
  s = a ++ rest -> match_at r (i + length a) rest = Some j ->
  exists p m, exec_from r i s = Some (p, m).
Proof.
  intros E M. destruct (exec_from r i s) as [[p m]|] eqn:X.
  - now exists p, m.
  - rewrite (exec_from_none _ _ _ X _ _ E) in M. discriminate.
Qed.

Lemma rmatch_some {X} (r : regex) :
  forall i s (k : nat -> jsstring -> option X) x,
    rmatch r i s k = Some x ->
    exists j t, matches r i s j t /\ k j t = Some x.
Proof.
  induction r; intros i s k x H; simpl in H.
  - exists i, s. split; [constructor|assumption].
  - destruct s as [|d s]; [discriminate|].
    destruct (Ascii.eqb d c) eqn:E; [|discriminate].
    apply Ascii.eqb_eq in E. subst d.
    exists (S i), s. split; [constructor|assumption].
  - destruct s as [|d s]; [discriminate|].
    destruct (in_class l d) eqn:E; [|discriminate].
    exists (S i), s. split; [now constructor|assumption].
  - apply IHr1 in H. destruct H as (j & t & M1 & H).
    apply IHr2 in H. destruct H as (j' & t' & M2 & H).
    exists j', t'. split; [econstructor; eassumption|assumption].
  - destruct (rmatch r1 i s k) eqn:E.
    + injection H as ->. apply IHr1 in E. destruct E as (j & t & M & E).
      exists j, t. split; [now apply M_OrL|assumption].
    + apply IHr2 in H. destruct H as (j & t & M & H).
      exists j, t. split; [now apply M_OrR|assumption].
  - destruct (rmatch r i s k) eqn:E.
    + injection H as ->. apply IHr in E. destruct E as (j & t & M & E).
      exists j, t. split; [now apply M_OptSome|assumption].
    + exists i, s. split; [apply M_OptNone|assumption].
  - apply IHr in H. destruct H as (j & t & M & H).
    exists j, t. split; [now apply M_Group|assumption].
  - destruct (Nat.eqb_spec i 0); [|discriminate]. subst i.
    exists 0, s. split; [constructor|assumption].
  - destruct s; [|discriminate].
    exists i, []. split; [constructor|assumption].
Qed.

Lemma rmatch_none {X} (r : regex) :
  forall i s (k : nat -> jsstring -> option X),
    rmatch r i s k = None ->
    forall j t, matches r i s j t -> k j t = None.
Proof.
  induction r; intros i s k H j t M; inversion M; subst; simpl in H.
  - assumption.
  - now rewrite Ascii.eqb_refl in H.
  - match goal with E : in_class _ _ = true |- _ => now rewrite E in H end.
  - eapply IHr2; [|eassumption]. eapply (IHr1 _ _ _ H). eassumption.
  - destruct (rmatch r1 i s k) eqn:E; [discriminate|]. eapply IHr1; eassumption.
  - destruct (rmatch r1 i s k) eqn:E; [discriminate|]. eapply IHr2; eassumption.
  - destruct (rmatch r i s k) eqn:E; [discriminate|]. eapply IHr; eassumption.
  - destruct (rmatch r j t k) eqn:E; [discriminate|]. assumption.
  - eapply IHr; eassumption.
  - assumption.
  - assumption.
Qed.

End RegexFacts.
Example parseMove_coordinates :
  parseMove [] "I play e2-e4, then g1-f3"%js = VArray ["e2"%js; "e4"%js].
Proof. reflexivity. Qed.

Example parseMove_san :
  parseMove [] "  I think Nc6 "%js = VString "Nc6".
Proof. reflexivity. Qed.

Example parseMove_from_list :
  parseMove ["e4"%js; "Nf3"%js; "d4"%js] "I'll play NF3 here"%js = VString "Nf3".
Proof. reflexivity. Qed.


Example parseMove_castle_then_comment :
  parseMove [] "O-O is best"%js = VString "O-O".
Proof. reflexivity. Qed.

Example parseMove_castle_at_end :
  parseMove [] "I castle O-O"%js = VNull.
Proof. reflexivity. Qed.

Example parseMove_promotion_to_king :
  parseMove [] "e8=K"%js = VString "e8=K".
Proof. reflexivity. Qed.

Example parseMove_empty_move_listed :
  parseMove [""%js] ""%js = VString "".
Proof. reflexivity. Qed.

(* ================================================================= *)
(** * The resolver *)

Module ResolverFacts.
Import JsString JsStringFacts JsSearchFacts Regex RegexFacts Notions.

Lemma in_files (c : ascii) : in_class files c = is_file c.
Proof. unfold in_class, files, is_file. simpl. apply orb_false_r. Qed.

Lemma in_ranks (c : ascii) : in_class ranks c = is_rank c.
Proof. unfold in_class, ranks, is_rank. simpl. apply orb_false_r. Qed.

Lemma file_not_ws (c : ascii) : is_file c = true -> isWhiteSpace c = false.
Proof. each_code_unit c; intros H; try reflexivity; discriminate H. Qed.

Lemma rank_not_ws (c : ascii) : is_rank c = true -> isWhiteSpace c = false.
Proof. each_code_unit c; intros H; try reflexivity; discriminate H. Qed.

Lemma file_not_hyphen (c : ascii) : is_file c = true -> Ascii.eqb c "-" = false.
Proof. each_code_unit c; intros H; try reflexivity; discriminate H. Qed.

Lemma rank_not_hyphen (c : ascii) : is_rank c = true -> Ascii.eqb c "-" = false.
Proof. each_code_unit c; intros H; try reflexivity; discriminate H. Qed.

Lemma coordinate_pair_shape (w : jsstring) :
  coordinate_pair w <->
  exists f1 r1 f2 r2,
    w = [f1; r1; "-"; f2; r2] /\
    is_file f1 = true /\ is_rank r1 = true /\
    is_file f2 = true /\ is_rank r2 = true.
Proof.
  split.
  - intros (o & d & (f1 & r1 & -> & F1 & R1) & (f2 & r2 & -> & F2 & R2) & ->).
    exists f1, r1, f2, r2. repeat split; assumption.
  - intros (f1 & r1 & f2 & r2 & -> & F1 & R1 & F2 & R2).
    exists [f1; r1], [f2; r2].
    repeat split; try reflexivity; eexists _, _; repeat split; assumption.
Qed.

Lemma coordinate_pair_clean (w : jsstring) :
  coordinate_pair w -> w <> [] /\ clean w.
Proof.
  intros H. apply coordinate_pair_shape in H.
  destruct H as (f1 & r1 & f2 & r2 & -> & F1 & R1 & F2 & R2).
  split; [discriminate|]. split; simpl.
  - now rewrite (file_not_ws _ F1).
  - now rewrite (rank_not_ws _ R2).
Qed.

Lemma coord_here_true (s : jsstring) :
  coord_here s = true <-> exists w x, s = w ++ x /\ coordinate_pair w.
Proof.
  split.
  - destruct s as [|f1 [|r1 [|h [|f2 [|r2 x]]]]]; try discriminate.
    simpl. rewrite !andb_true_iff, Ascii.eqb_eq.
    intros [[[[F1 R1] ->] F2] R2].
    exists [f1; r1; "-"; f2; r2], x. split; [reflexivity|].
    apply coordinate_pair_shape. exists f1, r1, f2, r2. repeat split; assumption.
  - intros (w & x & -> & H). apply coordinate_pair_shape in H.
    destruct H as (f1 & r1 & f2 & r2 & -> & F1 & R1 & F2 & R2).
    simpl. now rewrite F1, R1, F2, R2.
Qed.

Lemma match_at_regular (i : nat) (s : jsstring) :
  match_at re_regular i s = if coord_here s then Some (i + 5) else None.
Proof.
  unfold match_at, re_regular, re_file, re_rank.
  destruct s as [|f1 [|r1 [|h [|f2 [|r2 x]]]]];
    cbn [seq rmatch coord_here]; rewrite ?in_files, ?in_ranks;
    try (repeat match goal with
                | |- context [if ?c then _ else _] => destruct c
                end; reflexivity).
  destruct (is_file f1), (is_rank r1), (Ascii.eqb h "-"),
    (is_file f2), (is_rank r2); try reflexivity.
  simpl. f_equal. lia.
Qed.

Lemma split_coordinate_pair (o d : jsstring) :
  square o -> square d -> split "-" (o ++ "-"%js ++ d) = [o; d].
Proof.
  intros (f1 & r1 & -> & F1 & R1) (f2 & r2 & -> & F2 & R2). simpl.
  now rewrite (file_not_hyphen _ F1), (rank_not_hyphen _ R1),
    (file_not_hyphen _ F2), (rank_not_hyphen _ R2).
Qed.

(** The first rule, on the trimmed reply: the leftmost coordinate pair. *)
Lemma regular_first (s : jsstring) (a w b : jsstring) :
  s = a ++ w ++ b -> coordinate_pair w ->
  exists a0 w0 b0 rest,
    string_match_g re_regular s = Some (w0 :: rest) /\
    coordinate_pair w0 /\ s = a0 ++ w0 ++ b0 /\
    forall a' w' b', s = a' ++ w' ++ b' -> coordinate_pair w' ->
                     length a0 <= length a'.
Proof.
  intros E Hw.
  assert (Hfound : match_at re_regular (0 + length a) (w ++ b) = Some (0 + length a + 5)).
  { rewrite match_at_regular.
    replace (coord_here (w ++ b)) with true; [reflexivity|].
    symmetry. apply coord_here_true. now exists w, b. }
  destruct (exec_from_finds re_regular s a (w ++ b) 0 _ E Hfound) as (p & m & X).
  destruct (exec_from_some _ _ _ _ _ X) as (a0 & rest & j & E0 & Hp & Hm & Ht & Hmin).
  rewrite match_at_regular in Hm.
  destruct (coord_here rest) eqn:Hc; [|discriminate].
  injection Hm as <-.
  apply coord_here_true in Hc. destruct Hc as (w0 & b0 & -> & Hw0).
  assert (L0 : length w0 = 5).
  { apply coordinate_pair_shape in Hw0.
    destruct Hw0 as (? & ? & ? & ? & -> & _). reflexivity. }
  assert (Em : m = w0).
  { rewrite Ht. replace (p + 5 - p) with (length w0 + 0) by lia.
    rewrite firstn_app_2. simpl. apply app_nil_r. }
  clear Ht. subst m.
  pose proof (match_all_hd re_regular s 0) as Hhd. rewrite X in Hhd. simpl in Hhd.
  unfold string_match_g.
  destruct (match_all re_regular 0 s 0) as [|m0 l] eqn:All; [discriminate|].
  simpl in Hhd. injection Hhd as ->.
  exists a0, w0, b0, l.
  split; [reflexivity|]. split; [assumption|]. split; [assumption|].
  intros a' w' b' E' Hw'.
  destruct (Nat.le_gt_cases (length a0) (length a')) as [|Lt]; [assumption|].
  specialize (Hmin a' (w' ++ b') E' Lt).
  rewrite match_at_regular in Hmin.
  replace (coord_here (w' ++ b')) with true in Hmin; [discriminate|].
  symmetry. apply coord_here_true. now exists w', b'.
Qed.

(** ** C1 *)

(** C1. Every reply that contains a coordinate pair -- file letter a-h,
    rank digit 1-8, hyphen, file letter, rank digit -- makes [parseMove]
    return the array of the origin and the destination of the first such
    occurrence in the reply (no occurrence starts before it), whatever
    surrounds it and whatever the list of legal moves is. *)
Theorem C1_coordinate_pair (mvs : list jsstring) (reply a w b : jsstring) :
  reply = a ++ w ++ b -> coordinate_pair w ->
  exists a0 o d b0,
    parseMove mvs reply = VArray [o; d] /\
    square o /\ square d /\
    reply = a0 ++ (o ++ "-"%js ++ d) ++ b0 /\
    forall a' w' b', reply = a' ++ w' ++ b' -> coordinate_pair w' ->
                     length a0 <= length a'.
Proof.
  intros E Hw.
  destruct (coordinate_pair_clean w Hw) as [Hne Hcl].
  assert (ET : trim reply = trimStart a ++ w ++ trimEnd b).
  { rewrite E. now apply trim_around. }
  destruct (regular_first _ _ _ _ ET Hw)
    as (a0 & w0 & b0 & rest & Hm & Hw0 & E0 & Hmin).
  destruct (trim_inside reply) as (u & v & Er & Lu).
  destruct Hw0 as (o & d & So & Sd & ->).
  exists (u ++ a0), o, d, (b0 ++ v).
  split; [|split; [assumption|split; [assumption|split]]].
  - unfold parseMove. rewrite Hm. now rewrite split_coordinate_pair.
  - rewrite Er at 1. rewrite E0. now rewrite <- !app_assoc.
  - intros a' w' b' E' Hw'.
    destruct (coordinate_pair_clean w' Hw') as [Hne' [Hs' He']].
    assert (ET' : trim reply = trimStart a' ++ w' ++ trimEnd b').
    { rewrite E'. apply trim_around; [assumption|now split]. }
    specialize (Hmin _ _ _ ET' Hw').
    assert (Es : trimStart reply = trimStart a' ++ w' ++ b').
    { rewrite E'. now apply trimStart_app. }
    apply (f_equal (@length ascii)) in Es, E'.
    rewrite !length_app in Es, E'. rewrite length_app.
    pose proof (trimStart_length a'). lia.
Qed.

(** ** C10 *)

(** C10. The result of [parseMove] does not depend on the white space
    around the reply: it is the result for the trimmed reply. *)
Theorem C10_trim_invariant (mvs : list jsstring) (reply : jsstring) :
  parseMove mvs reply = parseMove mvs (trim reply).
Proof.
  unfold parseMove. now rewrite trim_idem.
Qed.

(** ** The third rule *)

Lemma find_first {A} (p : A -> bool) (l1 l2 : list A) (m : A) :
  p m = true -> (forall x, In x l1 -> p x = false) ->
  find p (l1 ++ m :: l2) = Some m.
Proof.
  intros Hm. induction l1 as [|y l1 IH]; intros Hl; simpl.
  - now rewrite Hm.
  - rewrite (Hl y) by now left. apply IH. intros x Hx. apply Hl. now right.
Qed.

Lemma contains_ci_includes (r m : jsstring) :
  contains_ci r m <-> includes (toLowerCase r) (toLowerCase m) = true.
Proof.
  rewrite includes_spec. split.
  - intros (a & w & b & -> & E).
    exists (toLowerCase a), (toLowerCase b).
    now rewrite !toLowerCase_app, E.
  - intros (a & b & E). unfold toLowerCase in E.
    apply map_eq_app in E. destruct E as (a' & r' & -> & Ea & E).
    apply map_eq_app in E. destruct E as (w & b' & -> & Ew & Eb).
    exists a', w, b'. split; [reflexivity|assumption].
Qed.

(** What the trimmed reply contains, the reply contains. *)
Lemma contains_ci_trim (r m : jsstring) :
  contains_ci (trim r) m -> contains_ci r m.
Proof.
  intros (a & w & b & E & Hw).
  destruct (trim_inside r) as (u & v & Er & _).
  exists (u ++ a), w, (b ++ v). split; [|assumption].
  rewrite Er at 1. rewrite E. now rewrite <- !app_assoc.
Qed.

(** A string without white space at its ends that the reply contains is
    contained in the trimmed reply. *)
Lemma contains_ci_in_trim (r m : jsstring) :
  trim m = m -> contains_ci r m -> contains_ci (trim r) m.
Proof.
  intros Hm H. apply contains_ci_includes. apply contains_ci_includes in H.
  apply includes_spec in H. destruct H as (a & b & E).
  apply includes_spec.
  destruct m as [|c m].
  - now exists [], (toLowerCase (trim r)).
  - rewrite <- toLowerCase_trim, E.
    rewrite trim_around.
    + now exists (trimStart a), (trimEnd b).
    + discriminate.
    + apply toLowerCase_clean. now apply trim_fixed_clean.
Qed.

(** ** C3 *)

(** C3. When neither pattern matches the (trimmed) reply and the reply
    contains, up to case, a member of the list of legal moves, [parseMove]
    returns the first such member in the order of the list, as the list
    spells it.  A legal move is a string in algebraic notation: it has no
    white space at its ends. *)
Theorem C3_first_legal_move
  (mvs l1 l2 : list jsstring) (m reply : jsstring) :
  string_match_g re_regular (trim reply) = None ->
  string_match re_notation (trim reply) = None ->
  mvs = l1 ++ m :: l2 ->
  contains_ci reply m ->
  (forall x, In x l1 -> ~ contains_ci reply x) ->
  trim m = m ->
  parseMove mvs reply = VString m.
Proof.
  intros H1 H2 -> Hm Hl1 Htrim. unfold parseMove. rewrite H1, H2.
  rewrite find_first; [reflexivity| |].
  - apply contains_ci_includes. now apply contains_ci_in_trim.
  - intros x Hx.
    destruct (includes (toLowerCase (trim reply)) (toLowerCase x)) eqn:E;
      [|reflexivity].
    exfalso. apply (Hl1 x Hx).
    apply contains_ci_trim. now apply contains_ci_includes.
Qed.

(** ** C8 *)

Lemma find_none {A} (p : A -> bool) (l : list A) :
  (forall x, In x l -> p x = false) -> find p l = None.
Proof.
  induction l as [|y l IH]; intros H; simpl; [reflexivity|].
  rewrite (H y) by now left. apply IH. intros x Hx. apply H. now right.
Qed.

Lemma parseMove_nil (mvs : list jsstring) :
  parseMove mvs [] =
  match find (fun move => includes [] (toLowerCase move)) mvs with
  | Some move => VString move
  | None => VNull
  end.
Proof. reflexivity. Qed.

Lemma parseMove_empty (mvs : list jsstring) :
  parseMove mvs [] = VNull \/ parseMove mvs [] = VString [].
Proof.
  rewrite parseMove_nil.
  destruct (find _ mvs) as [m|] eqn:F; [|now left].
  right. apply find_some in F. destruct F as [_ F].
  apply includes_in_nil in F. destruct m; [reflexivity|discriminate].
Qed.

(** C8. [parseMove] finds no move in the empty reply, whatever the list of
    legal moves is (the result is [null] when no member of the list is the
    empty string, and fails [if (!move)] in any case); it returns [null] for
    every reply that neither pattern matches and that contains no member of
    the list up to case; so it does for the reply of the example. *)
Theorem C8_unresolved :
  (forall mvs, unresolved (parseMove mvs ""%js)) /\
  (forall mvs, ~ In ""%js mvs -> parseMove mvs ""%js = VNull) /\
  (forall mvs reply,
      string_match_g re_regular (trim reply) = None ->
      string_match re_notation (trim reply) = None ->
      (forall x, In x mvs -> ~ contains_ci reply x) ->
      parseMove mvs reply = VNull) /\
  parseMove ["e4"%js; "Nf3"%js; "d4"%js] "I have no idea what to play"%js = VNull.
Proof.
  split; [|split; [|split]].
  - intros mvs. unfold unresolved.
    destruct (parseMove_empty mvs) as [-> | ->]; reflexivity.
  - intros mvs Hn. rewrite parseMove_nil.
    rewrite find_none; [reflexivity|].
    intros x Hx. destruct (includes [] (toLowerCase x)) eqn:E; [|reflexivity].
    apply includes_in_nil in E. destruct x; [contradiction|discriminate].
  - intros mvs reply H1 H2 Hl. unfold parseMove. rewrite H1, H2.
    rewrite find_none; [reflexivity|].
    intros x Hx.
    destruct (includes (toLowerCase (trim reply)) (toLowerCase x)) eqn:E;
      [|reflexivity].
    exfalso. apply (Hl x Hx).
    apply contains_ci_trim. now apply contains_ci_includes.
  - reflexivity.
Qed.

End ResolverFacts.

(* ================================================================= *)
(** * The second rule of the resolver *)

Module NotationFacts.
Import JsString JsStringFacts JsSearchFacts Regex RegexFacts Notions.
Import ResolverFacts.

Ltac inv H := inversion H; subst; clear H.

(** *** What the parts of the pattern read *)

Lemma matches_opt_class (l : list citem) i s j t :
  matches (Opt (Group (Class l))) i s j t ->
  exists w, s = w ++ t /\ j = i + length w /\ optional (in_class l) w.
Proof.
  intros H. inv H.
  - match goal with H : matches (Group _) _ _ _ _ |- _ => inv H end.
    match goal with H : matches (Class _) _ _ _ _ |- _ => inv H end.
    exists [d]. simpl. split; [reflexivity|]. split; [lia|].
    right. now exists d.
  - exists []. simpl. split; [reflexivity|]. split; [lia|]. now left.
Qed.

Lemma matches_opt_capture i s j t :
  matches (Opt (Group (Lit "x"))) i s j t ->
  exists w, s = w ++ t /\ j = i + length w /\ optional is_capture w.
Proof.
  intros H. inv H.
  - match goal with H : matches (Group _) _ _ _ _ |- _ => inv H end.
    match goal with H : matches (Lit _) _ _ _ _ |- _ => inv H end.
    exists ["x"]. simpl. split; [reflexivity|]. split; [lia|].
    right. now exists "x".
  - exists []. simpl. split; [reflexivity|]. split; [lia|]. now left.
Qed.

Lemma matches_square i s j t :
  matches (Group (Cat re_file re_rank)) i s j t ->
  exists d, s = d ++ t /\ j = i + length d /\ square d.
Proof.
  unfold re_file, re_rank. intros H. inv H.
  match goal with H : matches (Cat _ _) _ _ _ _ |- _ => inv H end.
  repeat match goal with H : matches (_ _) _ _ _ _ |- _ => inv H end.
  rewrite in_files in *. rewrite in_ranks in *.
  match goal with
  | F : is_file ?f = true, R : is_rank ?r = true |- _ =>
      exists [f; r]; simpl; split; [reflexivity|]; split; [lia|];
      exists f, r; repeat split; assumption
  end.
Qed.

Lemma matches_opt_promotion i s j t :
  matches (Opt (Group (Cat (Lit "=") re_piece))) i s j t ->
  exists q, s = q ++ t /\ j = i + length q /\
            (q = [] \/ exists a, q = ["="; a] /\ is_piece a = true).
Proof.
  unfold re_piece. intros H. inv H.
  - match goal with H : matches (Group _) _ _ _ _ |- _ => inv H end.
    match goal with H : matches (Cat _ _) _ _ _ _ |- _ => inv H end.
    repeat match goal with H : matches (_ _) _ _ _ _ |- _ => inv H end.
    match goal with
    | P : in_class pieces ?a = true |- _ =>
        exists ["="; a]; simpl; split; [reflexivity|]; split; [lia|];
        right; exists a; split; [reflexivity|exact P]
    end.
  - exists []. simpl. split; [reflexivity|]. split; [lia|]. now left.
Qed.

Lemma matches_opt_check i s j t :
  matches (Opt (Group (Or (Lit "+") (Lit "#")))) i s j t ->
  exists c, s = c ++ t /\ j = i + length c /\ optional is_check c.
Proof.
  intros H. inv H.
  - match goal with H : matches (Group _) _ _ _ _ |- _ => inv H end.
    match goal with H : matches (Or _ _) _ _ _ _ |- _ => inv H end;
      match goal with H : matches (Lit _) _ _ _ _ |- _ => inv H end.
    + exists ["+"]. simpl. split; [reflexivity|]. split; [lia|].
      right. now exists "+".
    + exists ["#"]. simpl. split; [reflexivity|]. split; [lia|].
      right. now exists "#".
  - exists []. simpl. split; [reflexivity|]. split; [lia|]. now left.
Qed.

(** What the first alternative reads, up to the end of the input, is a
    token of the grammar, with the letters of [[NBRQK]] after [=]. *)
Lemma matches_san i s j t :
  matches re_san i s j t ->
  t = [] /\ j = i + length s /\ san_token is_piece s.
Proof.
  unfold re_san. cbn [seq]. intros H.
  inv H. match goal with H : matches (Opt (Group re_piece)) _ _ _ _ |- _ =>
           apply matches_opt_class in H; destruct H as (p & -> & -> & Hp) end.
  match goal with H : matches (Cat _ _) _ _ _ _ |- _ => inv H end.
  match goal with H : matches (Opt (Group re_file)) _ _ _ _ |- _ =>
    apply matches_opt_class in H; destruct H as (f & -> & -> & Hf) end.
  match goal with H : matches (Cat _ _) _ _ _ _ |- _ => inv H end.
  match goal with H : matches (Opt (Group re_rank)) _ _ _ _ |- _ =>
    apply matches_opt_class in H; destruct H as (r & -> & -> & Hr) end.
  match goal with H : matches (Cat _ _) _ _ _ _ |- _ => inv H end.
  match goal with H : matches (Opt (Group (Lit _))) _ _ _ _ |- _ =>
    apply matches_opt_capture in H; destruct H as (x & -> & -> & Hx) end.
  match goal with H : matches (Cat _ _) _ _ _ _ |- _ => inv H end.
  match goal with H : matches (Group (Cat re_file re_rank)) _ _ _ _ |- _ =>
    apply matches_square in H; destruct H as (d & -> & -> & Hd) end.
  match goal with H : matches (Cat _ _) _ _ _ _ |- _ => inv H end.
  match goal with H : matches (Opt (Group (Cat _ _))) _ _ _ _ |- _ =>
    apply matches_opt_promotion in H; destruct H as (q & -> & -> & Hq) end.
  match goal with H : matches (Cat _ _) _ _ _ _ |- _ => inv H end.
  match goal with H : matches (Opt (Group (Or _ _))) _ _ _ _ |- _ =>
    apply matches_opt_check in H; destruct H as (c & -> & -> & Hc) end.
  match goal with H : matches Eol _ _ _ _ |- _ => inv H end.
  split; [reflexivity|]. split.
  - rewrite !length_app. simpl. lia.
  - exists p, f, r, x, d, q, c. rewrite app_nil_r.
    split; [reflexivity|].
    split; [|split; [|split; [|repeat split; assumption]]].
    + destruct Hp as [->|(a & -> & Ha)]; [now left|right].
      exists a. split; [reflexivity|exact Ha].
    + destruct Hf as [->|(a & -> & Ha)]; [now left|right].
      exists a. now rewrite <- in_files.
    + destruct Hr as [->|(a & -> & Ha)]; [now left|right].
      exists a. now rewrite <- in_ranks.
Qed.

(** *** A token is read by the pattern *)

Lemma optional_class_matches (l : list citem) (w t : jsstring) (i : nat) :
  optional (in_class l) w ->
  exists j, matches (Opt (Group (Class l))) i (w ++ t) j t.
Proof.
  intros [->|(c & -> & Hc)].
  - exists i. apply M_OptNone.
  - exists (S i). apply M_OptSome, M_Group. now apply M_Class.
Qed.

Lemma is_capture_x (c : ascii) : is_capture c = true -> c = "x".
Proof.
  unfold is_capture, one_of. simpl. rewrite orb_false_r. apply Ascii.eqb_eq.
Qed.

Lemma is_check_cases (c : ascii) : is_check c = true -> c = "+" \/ c = "#".
Proof.
  unfold is_check, one_of. simpl. rewrite orb_false_r, orb_true_iff.
  rewrite !Ascii.eqb_eq. tauto.
Qed.

Lemma san_token_matches (s : jsstring) (i : nat) :
  san_token is_piece s -> exists j, matches re_san i s j [].
Proof.
  intros (p & f & r & x & d & q & c & -> & Hp & Hf & Hr & Hx & Hd & Hq & Hc).
  unfold re_san. cbn [seq].
  destruct (optional_class_matches pieces p (f ++ r ++ x ++ d ++ q ++ c) i)
    as [i1 M1].
  { destruct Hp as [->|(a & -> & Ha)]; [now left|right].
    exists a. split; [reflexivity|exact Ha]. }
  destruct (optional_class_matches files f (r ++ x ++ d ++ q ++ c) i1)
    as [i2 M2].
  { destruct Hf as [->|(a & -> & Ha)]; [now left|right].
    exists a. now rewrite in_files. }
  destruct (optional_class_matches ranks r (x ++ d ++ q ++ c) i2) as [i3 M3].
  { destruct Hr as [->|(a & -> & Ha)]; [now left|right].
    exists a. now rewrite in_ranks. }
  assert (M4 : exists i4, matches (Opt (Group (Lit "x"))) i3
                                  (x ++ d ++ q ++ c) i4 (d ++ q ++ c)).
  { destruct Hx as [->|(a & -> & Ha)].
    - exists i3. apply M_OptNone.
    - apply is_capture_x in Ha. subst a.
      exists (S i3). apply M_OptSome, M_Group, M_Lit. }
  destruct M4 as [i4 M4].
  assert (M5 : exists i5, matches (Group (Cat re_file re_rank)) i4
                                  (d ++ q ++ c) i5 (q ++ c)).
  { destruct Hd as (a1 & a2 & -> & F & R).
    exists (S (S i4)). apply M_Group.
    apply M_Cat with (j := S i4) (t := a2 :: q ++ c).
    - apply M_Class. now rewrite in_files.
    - apply M_Class. now rewrite in_ranks. }
  destruct M5 as [i5 M5].
  assert (M6 : exists i6, matches (Opt (Group (Cat (Lit "=") re_piece))) i5
                                  (q ++ c) i6 c).
  { destruct Hq as [->|(a & -> & Ha)].
    - exists i5. apply M_OptNone.
    - exists (S (S i5)). apply M_OptSome, M_Group.
      apply M_Cat with (j := S i5) (t := a :: c).
      + apply M_Lit.
      + apply M_Class. exact Ha. }
  destruct M6 as [i6 M6].
  assert (M7 : exists i7, matches (Opt (Group (Or (Lit "+") (Lit "#")))) i6
                                  c i7 []).
  { destruct Hc as [->|(a & -> & Ha)].
    - exists i6. apply M_OptNone.
    - exists (S i6). apply M_OptSome, M_Group.
      apply is_check_cases in Ha. destruct Ha as [-> | ->].
      + apply M_OrL, M_Lit.
      + apply M_OrR, M_Lit. }
  destruct M7 as [i7 M7].
  exists i7.
  repeat (eapply M_Cat; [eassumption|]).
  apply M_Eol.
Qed.

(** The first alternative matches at an index exactly when the rest of the
    input, from that index to its end, is a token. *)
Lemma match_at_san_some (s : jsstring) (i j : nat) :
  match_at re_san i s = Some j -> j = i + length s /\ san_token is_piece s.
Proof.
  intros H. apply rmatch_some in H. destruct H as (j' & t & M & E).
  injection E as ->. apply matches_san in M. tauto.
Qed.

Lemma match_at_san_token (s : jsstring) (i : nat) :
  san_token is_piece s -> match_at re_san i s = Some (i + length s).
Proof.
  intros H. destruct (match_at re_san i s) as [j|] eqn:E.
  - apply match_at_san_some in E. destruct E as [-> _]. reflexivity.
  - destruct (san_token_matches s i H) as [j M].
    unfold match_at in E. pose proof (rmatch_none _ _ _ _ E _ _ M). discriminate.
Qed.

(** *** Castling *)

Lemma match_at_castle_later (s : jsstring) (i : nat) :
  i <> 0 -> match_at re_castle i s = None.
Proof.
  intros H. unfold match_at, re_castle. cbn [seq rmatch].
  destruct (Nat.eqb_spec i 0); [contradiction|reflexivity].
Qed.

Lemma match_at_castle_start (s : jsstring) (j : nat) :
  match_at re_castle 0 s = Some j -> startsWith s "O-O"%js = true.
Proof.
  unfold match_at, re_castle. cbn [seq rmatch Nat.eqb startsWith].
  destruct s as [|c1 [|c2 [|c3 s]]]; try discriminate;
    try (destruct (Ascii.eqb_spec c1 "O"); discriminate).
  - destruct (Ascii.eqb_spec c1 "O"); [|discriminate].
    destruct (Ascii.eqb_spec c2 "-"); discriminate.
  - destruct (Ascii.eqb_spec c1 "O"); [|discriminate].
    destruct (Ascii.eqb_spec c2 "-"); [|discriminate].
    destruct (Ascii.eqb_spec c3 "O"); [|discriminate].
    subst. reflexivity.
Qed.

(** *** The leftmost match of the whole pattern *)

Lemma match_at_notation (s : jsstring) (i : nat) :
  match_at re_notation i s =
  match match_at re_san i s with
  | Some j => Some j
  | None => match_at re_castle i s
  end.
Proof. reflexivity. Qed.

Lemma app_same_length {A} (a b c d : list A) :
  a ++ b = c ++ d -> length a = length c -> a = c /\ b = d.
Proof.
  revert c. induction a as [|x a IH]; intros [|y c] E L; simpl in *;
    try discriminate.
  - now split.
  - injection E as -> E. destruct (IH c E) as [-> ->]; [lia|now split].
Qed.

Lemma firstn_all_app (s : jsstring) (p : nat) :
  firstn (p + length s - p) s = s.
Proof.
  replace (p + length s - p) with (length s) by lia. apply firstn_all.
Qed.

(** What the second rule finds is a castling token at the beginning of the
    input or a token that ends the input. *)
Lemma notation_found (s t : jsstring) :
  string_match re_notation s = Some t ->
  (startsWith s "O-O"%js = true /\ exists j, match_at re_castle 0 s = Some j /\
                                             t = firstn j s) \/
  (exists pre, s = pre ++ t /\ san_token is_piece t /\
               forall pre' t', s = pre' ++ t' -> length pre' < length pre ->
                               ~ san_token is_piece t').
Proof.
  unfold string_match. intros H.
  destruct (exec_from re_notation 0 s) as [[p m]|] eqn:X; [|discriminate].
  simpl in H. injection H as ->.
  destruct (exec_from_some _ _ _ _ _ X) as (a0 & rest & j & E0 & Hp & Hm & Ht & Hmin).
  rewrite match_at_notation in Hm.
  destruct (match_at re_san p rest) as [j'|] eqn:S1.
  - injection Hm as ->. apply match_at_san_some in S1. destruct S1 as [-> Tk].
    rewrite firstn_all_app in Ht. subst t.
    right. exists a0. split; [assumption|]. split; [assumption|].
    intros pre' t' E' L Tk'. specialize (Hmin pre' t' E' L).
    rewrite match_at_notation, (match_at_san_token _ _ Tk') in Hmin.
    discriminate.
  - destruct a0 as [|x a0].
    + simpl in Hp, E0. subst p rest. left. split.
      * eapply match_at_castle_start. eassumption.
      * exists j. split; [assumption|]. rewrite Ht. f_equal. lia.
    + rewrite match_at_castle_later in Hm; [discriminate|].
      simpl in Hp. lia.
Qed.

(** Without castling at its beginning, the input is matched at its longest
    suffix that is a token. *)
Lemma notation_longest (s pre t : jsstring) :
  startsWith s "O-O"%js = false -> s = pre ++ t -> san_token is_piece t ->
  (forall pre' t', s = pre' ++ t' -> san_token is_piece t' ->
                   length t' <= length t) ->
  string_match re_notation s = Some t.
Proof.
  intros Hc E Tk Hmax.
  assert (Hfound : match_at re_notation (0 + length pre) t
                   = Some (0 + length pre + length t)).
  { now rewrite match_at_notation, (match_at_san_token _ _ Tk). }
  destruct (exec_from_finds re_notation s pre t 0 _ E Hfound) as (p & m & X).
  assert (Hm : string_match re_notation s = Some m).
  { unfold string_match. now rewrite X. }
  destruct (notation_found _ _ Hm) as [[Hc' _]|(pre0 & E0 & Tk0 & Hmin)].
  - congruence.
  - rewrite Hm. f_equal.
    pose proof (Hmax _ _ E0 Tk0) as L1.
    assert (L2 : length pre0 <= length pre).
    { destruct (Nat.le_gt_cases (length pre0) (length pre)) as [|Lt];
        [assumption|].
      exfalso. exact (Hmin _ _ E Lt Tk). }
    assert (L3 : length pre0 + length m = length pre + length t).
    { rewrite <- !length_app. congruence. }
    destruct (app_same_length pre0 m pre t) as [_ ->];
      [congruence|lia|reflexivity].
Qed.

(** *** The letters after [=] *)

Lemma is_piece_cases (a : ascii) :
  is_piece a = true -> is_promotion a = true \/ a = "K".
Proof.
  unfold is_piece, is_promotion, one_of. simpl.
  rewrite !orb_false_r, !orb_true_iff, !Ascii.eqb_eq. tauto.
Qed.

Lemma final_unit_not_check (e : ascii) :
  final_unit e = true -> is_check e = false.
Proof. each_code_unit e; intros H; try reflexivity; discriminate H. Qed.

Lemma token_end (promo : ascii -> bool) (t : jsstring) :
  san_token promo t ->
  exists body e c, t = body ++ e :: c /\ optional is_check c /\
                   (is_rank e = true \/ promo e = true).
Proof.
  intros (p & f & r & x & d & q & c & -> & _ & _ & _ & _ & Hd & Hq & Hc).
  destruct Hd as (a1 & a2 & -> & _ & R).
  destruct Hq as [->|(a & -> & Ha)].
  - exists (p ++ f ++ r ++ x ++ [a1]), a2, c.
    split; [now rewrite <- !app_assoc|]. split; [assumption|now left].
  - exists (p ++ f ++ r ++ x ++ [a1; a2; "="]), a, c.
    split; [now rewrite <- !app_assoc|]. split; [assumption|now right].
Qed.

Lemma app_two {A} (l : list A) (x y : A) : l ++ [x; y] = (l ++ [x]) ++ [y].
Proof. now rewrite <- app_assoc. Qed.

Lemma ends_differ (X Y c c' : jsstring) (e : ascii) :
  X ++ e :: c = Y ++ "K" :: c' ->
  optional is_check c -> optional is_check c' ->
  final_unit e = true -> False.
Proof.
  intros E [->|(z & -> & Hz)] [->|(z' & -> & Hz')] He.
  - apply app_inj_tail in E. destruct E as [_ ->]. discriminate He.
  - rewrite (app_two Y) in E. apply app_inj_tail in E. destruct E as [_ ->].
    apply final_unit_not_check in He. congruence.
  - rewrite (app_two X) in E. apply app_inj_tail in E. destruct E as [_ ->].
    discriminate Hz.
  - rewrite (app_two X), (app_two Y) in E.
    apply app_inj_tail in E. destruct E as [E _].
    apply app_inj_tail in E. destruct E as [_ ->]. discriminate He.
Qed.

(** Where the input ends with a token of the grammar with [=[NBRQ]], every
    token, with [=[NBRQK]], that ends the input is one of that grammar. *)
Lemma promotion_agree (pre t pre' t' : jsstring) :
  pre ++ t = pre' ++ t' ->
  san_token is_promotion t -> san_token is_piece t' ->
  san_token is_promotion t'.
Proof.
  intros E Tk Tk'.
  destruct (token_end _ _ Tk) as (body & e & c & -> & Hc & He).
  destruct Tk' as (p & f & r & x & d & q & c' & -> & Hp & Hf & Hr & Hx & Hd & Hq & Hc').
  destruct Hq as [->|(a & -> & Ha)].
  - exists p, f, r, x, d, [], c'. repeat split; try assumption. now left.
  - destruct (is_piece_cases a Ha) as [Hpr | ->].
    + exists p, f, r, x, d, ["="; a], c'. repeat split; try assumption.
      right. now exists a.
    + exfalso.
      apply (ends_differ (pre ++ body) (pre' ++ p ++ f ++ r ++ x ++ d ++ ["="]) c c' e);
        try assumption.
      * rewrite <- !app_assoc. simpl. simpl in E. exact E.
      * unfold final_unit. destruct He as [-> | ->];
          [reflexivity|apply orb_true_r].
Qed.

Lemma promotion_is_piece (t : jsstring) :
  san_token is_promotion t -> san_token is_piece t.
Proof.
  intros (p & f & r & x & d & q & c & -> & Hp & Hf & Hr & Hx & Hd & Hq & Hc).
  exists p, f, r, x, d, q, c. repeat split; try assumption.
  destruct Hq as [->|(a & -> & Ha)]; [now left|right].
  exists a. split; [reflexivity|].
  revert Ha. unfold is_piece, is_promotion, one_of. simpl.
  rewrite !orb_false_r, !orb_true_iff. tauto.
Qed.

Lemma castle_long (b : jsstring) :
  string_match re_notation ("O-O-O"%js ++ b) = Some "O-O-O"%js.
Proof. reflexivity. Qed.

Lemma castle_short (b : jsstring) :
  startsWith b "-O"%js = false ->
  string_match re_notation ("O-O"%js ++ b) = Some "O-O"%js.
Proof.
  destruct b as [|c1 [|c2 b]].
  - reflexivity.
  - intros _. unfold string_match, exec_from, match_at. simpl.
    destruct (Ascii.eqb c1 "-"); reflexivity.
  - cbn [startsWith]. intros H.
    unfold string_match, exec_from, match_at. simpl.
    destruct (Ascii.eqb_spec c1 "-"); [|reflexivity].
    destruct (Ascii.eqb_spec c2 "O"); [|reflexivity].
    subst. discriminate H.
Qed.

(** ** C2 *)

(** C2, as the specification states it, fails: the castling alternative of
    the pattern is anchored at the beginning of the reply, not at its end,
    so a castling token followed by a comment is matched. *)
Lemma C2_anchor_counterexample : ~ notation_rule_as_stated.
Proof.
  intros [H _].
  destruct (H [] "O-O is best"%js "O-O"%js eq_refl eq_refl) as (_ & (pre & E) & _).
  apply (f_equal (@rev ascii)) in E. rewrite rev_app_distr in E.
  discriminate E.
Qed.

(** C2, amended.  When the first rule does not match the trimmed reply:
    a reply that begins with a castling token, [O-O-O] or else [O-O], gives
    that token, whatever follows it; any other reply that ends with a token
    of the algebraic grammar gives the longest such token that ends it,
    exactly; and what the second rule gives for such a reply always ends the
    reply, so a token followed by a comment is not matched. *)
Theorem C2_notation_rule (mvs : list jsstring) (reply : jsstring) :
  string_match_g re_regular (trim reply) = None ->
  (forall b, trim reply = "O-O-O"%js ++ b ->
             parseMove mvs reply = VString "O-O-O"%js) /\
  (forall b, trim reply = "O-O"%js ++ b -> startsWith b "-O"%js = false ->
             parseMove mvs reply = VString "O-O"%js) /\
  (startsWith (trim reply) "O-O"%js = false ->
   (forall pre t,
       trim reply = pre ++ t -> san_token is_promotion t ->
       (forall pre' t', trim reply = pre' ++ t' -> san_token is_promotion t' ->
                        length t' <= length t) ->
       parseMove mvs reply = VString t) /\
   (forall t, string_match re_notation (trim reply) = Some t ->
              exists pre, trim reply = pre ++ t)).
Proof.
  intros H1. split; [|split].
  - intros b E. unfold parseMove. rewrite H1, E, castle_long. reflexivity.
  - intros b E Hb. unfold parseMove. rewrite H1, E, castle_short by assumption.
    reflexivity.
  - intros Hc. split.
    + intros pre t E Tk Hmax. unfold parseMove. rewrite H1.
      rewrite (notation_longest (trim reply) pre t); try assumption.
      * reflexivity.
      * now apply promotion_is_piece.
      * intros pre' t' E' Tk'. apply (Hmax pre' t' E').
        apply (promotion_agree pre t pre' t'); [congruence|assumption..].
    + intros t Ht. destruct (notation_found _ _ Ht) as [[Hc' _]|(pre & E & _)].
      * congruence.
      * now exists pre.
Qed.

Lemma C2_notation_rule_witness :
  parseMove ["e4"%js; "O-O"%js] " O-O, I castle "%js = VString "O-O"%js /\
  parseMove ["e4"%js; "O-O"%js] "O-O-O!"%js = VString "O-O-O"%js /\
  parseMove ["e4"%js; "O-O"%js] " Nc6 "%js = VString "Nc6"%js.
Proof.
  split; [|split].
  - exact (proj1 (proj2 (C2_notation_rule ["e4"%js; "O-O"%js]
                           " O-O, I castle "%js eq_refl))
             ", I castle"%js eq_refl eq_refl).
  - exact (proj1 (C2_notation_rule ["e4"%js; "O-O"%js] "O-O-O!"%js eq_refl)
             "!"%js eq_refl).
  - apply (proj1 (proj2 (proj2 (C2_notation_rule ["e4"%js; "O-O"%js]
                                  " Nc6 "%js eq_refl)) eq_refl)
             ""%js "Nc6"%js eq_refl).
    + exists "N"%js, ""%js, ""%js, ""%js, "c6"%js, ""%js, ""%js.
      split; [reflexivity|].
      split; [right; exists "N"; split; reflexivity|].
      split; [now left|]. split; [now left|]. split; [now left|].
      split; [exists "c", "6"; repeat split; reflexivity|].
      split; now left.
    + intros pre' t' E _. change ("Nc6"%js = pre' ++ t') in E.
      apply (f_equal (@length ascii)) in E.
      rewrite length_app in E. simpl in E. simpl. lia.
Defined.

End NotationFacts.

(* ================================================================= *)
(** * The random index *)

Module RandomFacts.
Import JsNumber Orchestrator.

Local Open Scope Z_scope.

(** ** The number of binary digits *)

Lemma digits2_pos_bounds (p : positive) :
  2 ^ (Zpos (digits2_pos p) - 1) <= Zpos p < 2 ^ Zpos (digits2_pos p).
Proof.
  induction p as [p IH|p IH|]; cbn [digits2_pos].
  - rewrite Pos2Z.inj_succ.
    replace (Z.succ (Zpos (digits2_pos p)) - 1)
      with (Z.succ (Zpos (digits2_pos p) - 1)) by lia.
    rewrite !Z.pow_succ_r by lia. lia.
  - rewrite Pos2Z.inj_succ.
    replace (Z.succ (Zpos (digits2_pos p)) - 1)
      with (Z.succ (Zpos (digits2_pos p) - 1)) by lia.
    rewrite !Z.pow_succ_r by lia. lia.
  - cbn. lia.
Qed.

(** ** Shifts to the right *)

Lemma iter_pos_nat {A} (f : A -> A) (p : positive) :
  forall x, iter_pos f p x = Nat.iter (Pos.to_nat p) f x.
Proof.
  induction p as [p IH|p IH|]; intros x; cbn [iter_pos].
  - rewrite !IH, Pos2Nat.inj_xI.
    replace (S (2 * Pos.to_nat p))%nat
      with (Pos.to_nat p + S (Pos.to_nat p))%nat by lia.
    rewrite Nat.iter_add. f_equal. now rewrite Nat.iter_succ_r.
  - rewrite !IH, Pos2Nat.inj_xO.
    replace (2 * Pos.to_nat p)%nat with (Pos.to_nat p + Pos.to_nat p)%nat by lia.
    now rewrite Nat.iter_add.
  - reflexivity.
Qed.

Lemma shr_1_spec (mrs : shr_record) :
  0 <= shr_m mrs ->
  shr_m (shr_1 mrs) = shr_m mrs / 2 /\ shr_r (shr_1 mrs) = Z.odd (shr_m mrs).
Proof.
  destruct mrs as [m r s]. cbn [shr_m]. intros H.
  rewrite <- Z.div2_div.
  destruct m as [|[p|p|]|p]; try lia; split; reflexivity.
Qed.

Lemma shr_iter_m (mrs : shr_record) (n : nat) :
  0 <= shr_m mrs ->
  shr_m (Nat.iter n shr_1 mrs) = shr_m mrs / 2 ^ Z.of_nat n.
Proof.
  intros H. induction n as [|n IH].
  - cbn. now rewrite Z.div_1_r.
  - change (Nat.iter (S n) shr_1 mrs) with (shr_1 (Nat.iter n shr_1 mrs)).
    assert (P : 0 <= shr_m (Nat.iter n shr_1 mrs)).
    { rewrite IH. apply Z.div_pos; lia. }
    rewrite (proj1 (shr_1_spec _ P)), IH.
    rewrite Nat2Z.inj_succ, Z.pow_succ_r by lia.
    rewrite Z.div_div by lia. f_equal. lia.
Qed.

Lemma shr_iter_r (mrs : shr_record) (n : nat) :
  0 <= shr_m mrs ->
  shr_r (Nat.iter (S n) shr_1 mrs) = Z.testbit (shr_m mrs) (Z.of_nat n).
Proof.
  intros H.
  change (Nat.iter (S n) shr_1 mrs) with (shr_1 (Nat.iter n shr_1 mrs)).
  assert (P : 0 <= shr_m (Nat.iter n shr_1 mrs)).
  { rewrite shr_iter_m by assumption. apply Z.div_pos; lia. }
  rewrite (proj2 (shr_1_spec _ P)), shr_iter_m by assumption.
  rewrite Z.testbit_odd, Z.shiftr_div_pow2 by lia. reflexivity.
Qed.

Lemma shr_spec (m e k : Z) :
  0 <= m ->
  snd (shr (Build_shr_record m false false) e k) = e + Z.max 0 k /\
  shr_m (fst (shr (Build_shr_record m false false) e k)) = m / 2 ^ Z.max 0 k /\
  (0 < k ->
   shr_r (fst (shr (Build_shr_record m false false) e k)) = Z.testbit m (k - 1)) /\
  (k <= 0 ->
   fst (shr (Build_shr_record m false false) e k) = Build_shr_record m false false).
Proof.
  intros H. destruct k as [|p|p]; cbn [shr fst snd].
  - rewrite Z.div_1_r. repeat split; try lia; try reflexivity.
  - rewrite iter_pos_nat.
    replace (Z.max 0 (Zpos p)) with (Z.of_nat (Pos.to_nat p))
      by (rewrite positive_nat_Z; lia).
    split; [now rewrite positive_nat_Z|].
    split; [now rewrite shr_iter_m|].
    split; [|lia]. intros _.
    destruct (Pos2Nat.is_succ p) as [n Hn]. rewrite Hn.
    rewrite shr_iter_r by assumption. cbn [shr_m]. f_equal. lia.
  - rewrite Z.div_1_r. repeat split; try lia; try reflexivity.
Qed.

(** ** Rounding *)

(** A number below [n], on the scale [2 ^ a]. *)
Lemma Math_floor_below (m : positive) (e a n : Z) :
  0 <= a -> 0 <= e + a ->
  Zpos m * 2 ^ (e + a) < n * 2 ^ a ->
  exists i, Math_floor (S754_finite false m e) = Some i /\ 0 <= i < n.
Proof.
  intros Ha Hea H. cbn [Math_floor]. eexists. split; [reflexivity|].
  destruct (Z.leb_spec 0 e) as [He|He].
  - split; [apply Z.mul_nonneg_nonneg; lia|].
    rewrite Z.pow_add_r in H by lia.
    assert (P : 0 < 2 ^ a) by (apply Z.pow_pos_nonneg; lia). nia.
  - rewrite Z.shiftr_div_pow2 by lia.
    assert (P : 0 < 2 ^ (- e)) by (apply Z.pow_pos_nonneg; lia).
    assert (Q : 0 < 2 ^ (e + a)) by (apply Z.pow_pos_nonneg; lia).
    split; [apply Z.div_pos; lia|].
    apply Z.div_lt_upper_bound; [assumption|].
    assert (S : 2 ^ a = 2 ^ (- e) * 2 ^ (e + a)).
    { rewrite <- Z.pow_add_r by lia. f_equal; lia. }
    rewrite S in H. nia.
Qed.

(** The second half of [binary_round_aux], for a mantissa that stands for a
    number below [n]. *)
Lemma finish_below (rm e a n : Z) :
  0 <= rm -> 0 <= a -> 0 <= e + a -> 0 < n < 2 ^ 32 ->
  rm * 2 ^ (e + a) < n * 2 ^ a ->
  exists i,
    Math_floor
      (let '(mrs, e') := shr_fexp prec emax rm e loc_Exact in
       match shr_m mrs with
       | Z0 => S754_zero false
       | Zpos m => if e' <=? emax - prec then S754_finite false m e'
                   else S754_infinity false
       | Zneg _ => S754_nan
       end) = Some i /\ 0 <= i < n.
Proof.
  intros Hrm Ha Hea Hn H.
  unfold shr_fexp. cbn [shr_record_of_loc].
  set (k := fexp prec emax (Zdigits2 rm + e) - e).
  destruct (shr_spec rm e k Hrm) as (He' & Hm & _).
  destruct (shr (Build_shr_record rm false false) e k) as [mrs e'].
  cbn [fst snd] in He', Hm. rewrite Hm.
  assert (K : 0 <= Z.max 0 k) by lia.
  set (kk := Z.max 0 k) in *.
  assert (P : 0 < 2 ^ kk) by (apply Z.pow_pos_nonneg; lia).
  assert (D : rm / 2 ^ kk * 2 ^ kk <= rm).
  { rewrite Z.mul_comm. apply Z.mul_div_le. assumption. }
  assert (B : rm / 2 ^ kk * 2 ^ (e' + a) < n * 2 ^ a).
  { subst e'. replace (e + kk + a) with (kk + (e + a)) by lia.
    rewrite Z.pow_add_r by lia.
    assert (Q : 0 < 2 ^ (e + a)) by (apply Z.pow_pos_nonneg; lia). nia. }
  assert (N : 0 <= rm / 2 ^ kk) by (apply Z.div_pos; lia).
  destruct (rm / 2 ^ kk) as [|m|m] eqn:M; [|clear N|lia].
  - exists 0. split; [reflexivity|lia].
  - assert (L : e' <= emax - prec).
    { assert (Q : 2 ^ (e' + a) < 2 ^ (32 + a)).
      { rewrite (Z.pow_add_r 2 32 a) by lia.
        assert (0 < 2 ^ a) by (apply Z.pow_pos_nonneg; lia).
        assert (0 < 2 ^ (e' + a)) by (apply Z.pow_pos_nonneg; lia). nia. }
      apply Z.pow_lt_mono_r_iff in Q; unfold emax, prec; lia. }
    apply Z.leb_le in L. rewrite L.
    apply (Math_floor_below m e' a n); lia.
Qed.

(** A mantissa whose bit below the cut is set is at least half a step above
    the cut. *)
Lemma round_up_half (M k : Z) :
  0 <= M -> 0 < k -> Z.testbit M (k - 1) = true ->
  (M / 2 ^ k + 1) * 2 ^ k <= M + 2 ^ (k - 1).
Proof.
  intros HM Hk Hb.
  apply Z.testbit_true in Hb; [|lia].
  assert (P : 0 < 2 ^ (k - 1)) by (apply Z.pow_pos_nonneg; lia).
  assert (S : 2 ^ k = 2 ^ (k - 1) * 2).
  { replace k with (Z.succ (k - 1)) at 1 by lia.
    rewrite Z.pow_succ_r by lia. lia. }
  pose proof (Z.div_mod M (2 ^ k) ltac:(lia)) as D.
  assert (R : M mod 2 ^ k
              = M mod 2 ^ (k - 1) + 2 ^ (k - 1) * ((M / 2 ^ (k - 1)) mod 2)).
  { rewrite S. apply Z.rem_mul_r; lia. }
  rewrite Hb in R.
  pose proof (Z.mod_pos_bound M (2 ^ (k - 1)) P) as B.
  nia.
Qed.

(** The product of a number below one and of a length, rounded, has its
    integer part below the length. *)
Lemma round_below (M : positive) (a n : Z) :
  53 <= a -> 0 < n < 2 ^ 32 ->
  Zpos M + n * 2 ^ (a - 53) <= n * 2 ^ a ->
  exists i,
    Math_floor (binary_round_aux prec emax false (Zpos M) (- a) loc_Exact)
    = Some i /\ 0 <= i < n.
Proof.
  intros Ha Hn H. unfold binary_round_aux.
  unfold shr_fexp at 1. cbn [shr_record_of_loc].
  set (k := fexp prec emax (Zdigits2 (Zpos M) + - a) - - a).
  destruct (shr_spec (Zpos M) (- a) k ltac:(lia)) as (He & Hm & Hr & Hx).
  destruct (shr (Build_shr_record (Zpos M) false false) (- a) k) as [mrs' e'].
  cbn [fst snd] in He, Hm, Hr, Hx.
  assert (P53 : 0 < 2 ^ (a - 53)) by (apply Z.pow_pos_nonneg; lia).
  assert (S53 : 2 ^ a = 2 ^ (a - 53) * 2 ^ 53).
  { rewrite <- Z.pow_add_r by lia. f_equal; lia. }
  apply (finish_below _ e' a n); try lia.
  - (* the rounded mantissa is not negative *)
    assert (Q : 0 <= shr_m mrs') by (rewrite Hm; apply Z.div_pos; lia).
    destruct mrs' as [q [|] [|]]; cbn [shr_m loc_of_shr_record round_nearest_even] in *;
      try destruct (Z.even q); lia.
  - (* and stands for a number below [n] *)
    replace (e' + a) with (Z.max 0 k) by lia.
    destruct (Z.le_gt_cases k 0) as [K|K].
    + rewrite (Hx K). cbn [shr_m loc_of_shr_record round_nearest_even].
      replace (Z.max 0 k) with 0 by lia. rewrite Z.pow_0_r. lia.
    + replace (Z.max 0 k) with k in * by lia.
      specialize (Hr K).
      assert (Pk : 0 < 2 ^ k) by (apply Z.pow_pos_nonneg; lia).
      assert (D : Zpos M / 2 ^ k * 2 ^ k <= Zpos M).
      { rewrite Z.mul_comm. apply Z.mul_div_le. assumption. }
      destruct mrs' as [q [|] s]; cbn [shr_m shr_r] in Hm, Hr |- *; subst q.
      * (* the bit below the cut is set *)
        assert (U : round_nearest_even (Zpos M / 2 ^ k)
                      (loc_of_shr_record
                         (Build_shr_record (Zpos M / 2 ^ k) true s))
                    <= Zpos M / 2 ^ k + 1).
        { destruct s; cbn [loc_of_shr_record round_nearest_even];
            try destruct (Z.even _); lia. }
        pose proof (round_up_half (Zpos M) k ltac:(lia) K (eq_sym Hr)) as R.
        assert (Small : 2 ^ (k - 1) < n * 2 ^ (a - 53)).
        { pose proof (digits2_pos_bounds M) as B.
          set (d := Zpos (digits2_pos M)) in *.
          assert (Kc : k = a - 1074 \/ k = d - 53).
          { unfold k, fexp, emin, prec, emax. cbn [Zdigits2].
            change IntDef.Z.max with Z.max. fold d. lia. }
          clearbody k. destruct Kc as [-> | ->].
          - replace (a - 1074 - 1) with (a - 1075) by lia.
            assert (T : 2 ^ (a - 53) = 2 ^ (a - 1075) * 2 ^ 1022).
            { rewrite <- Z.pow_add_r by lia. f_equal; lia. }
            assert (0 < 2 ^ (a - 1075)) by (apply Z.pow_pos_nonneg; lia).
            assert (1 < 2 ^ 1022) by (apply Z.pow_gt_1; lia).
            rewrite T. nia.
          - replace (d - 53 - 1) with (d - 54) by lia.
            assert (T : 2 ^ (d - 1) = 2 ^ (d - 54) * 2 ^ 53).
            { rewrite <- Z.pow_add_r by lia. f_equal; lia. }
            assert (0 < 2 ^ (d - 54)) by (apply Z.pow_pos_nonneg; lia).
            assert (0 < 2 ^ 53) by (apply Z.pow_pos_nonneg; lia).
            nia. }
        apply Z.le_lt_trans with ((Zpos M / 2 ^ k + 1) * 2 ^ k); [|lia].
        apply Z.mul_le_mono_nonneg_r; lia.
      * destruct s; cbn [loc_of_shr_record round_nearest_even]; nia.
Qed.

Lemma digits2_pos_unique (p : positive) (d : Z) :
  2 ^ (d - 1) <= Zpos p < 2 ^ d -> 0 < d -> Zpos (digits2_pos p) = d.
Proof.
  intros [L U] Hd. destruct (digits2_pos_bounds p) as [L' U'].
  assert (A : 2 ^ (d - 1) < 2 ^ Zpos (digits2_pos p)) by lia.
  assert (B : 2 ^ (Zpos (digits2_pos p) - 1) < 2 ^ d) by lia.
  apply Z.pow_lt_mono_r_iff in A; [|lia|lia].
  apply Z.pow_lt_mono_r_iff in B; [|lia|lia]. lia.
Qed.

Lemma iter_xO (p k : positive) : Zpos (Pos.iter xO p k) = Zpos p * 2 ^ Zpos k.
Proof.
  induction k as [|k IH] using Pos.peano_ind.
  - cbn. lia.
  - rewrite Pos.iter_succ, Pos2Z.inj_xO, IH, Pos2Z.inj_succ, Z.pow_succ_r by lia.
    lia.
Qed.

(** Rounding leaves a number of the format as it is. *)
Lemma round_canonical (s : bool) (m : positive) (e : Z) :
  canonical_mantissa prec emax m e = true -> e <= emax - prec ->
  binary_round_aux prec emax s (Zpos m) e loc_Exact = S754_finite s m e.
Proof.
  unfold canonical_mantissa. intros C L. apply Z.eqb_eq in C.
  unfold binary_round_aux, shr_fexp. cbn [Zdigits2 shr_record_of_loc].
  rewrite C, Z.sub_diag. cbn [shr loc_of_shr_record shr_m round_nearest_even].
  cbn [Zdigits2 shr_record_of_loc]. rewrite C, Z.sub_diag. cbn [shr shr_m].
  apply Z.leb_le in L. now rewrite L.
Qed.

(** The length of an array is a number of the format. *)
Lemma of_length_exact (n : nat) :
  0 < Z.of_nat n < 2 ^ 32 ->
  exists mn en,
    of_length n = S754_finite false mn en /\ en <= 0 /\
    Zpos mn = Z.of_nat n * 2 ^ (- en).
Proof.
  intros Hn. unfold of_length.
  destruct (Z.of_nat n) as [|p|p]; try lia.
  cbn [binary_normalize]. unfold binary_round.
  pose proof (digits2_pos_bounds p) as B.
  set (d := Zpos (digits2_pos p)) in *.
  assert (D : d <= 32).
  { assert (A : 2 ^ (d - 1) < 2 ^ 32) by lia.
    apply Z.pow_lt_mono_r_iff in A; lia. }
  assert (F : fexp prec emax (d + 0) = d - 53).
  { unfold fexp, emin, prec, emax. change IntDef.Z.max with Z.max. lia. }
  rewrite F. unfold shl_align.
  destruct (d - 53 - 0) as [|k|k] eqn:K; try lia.
  assert (M : Zpos (Pos.iter xO p k) = Zpos p * 2 ^ (53 - d)).
  { rewrite iter_xO. f_equal. f_equal. lia. }
  exists (Pos.iter xO p k), (d - 53).
  split; [|split; [lia|]].
  - apply round_canonical; [|unfold emax, prec; lia].
    unfold canonical_mantissa. apply Z.eqb_eq.
    rewrite (digits2_pos_unique _ 53).
    + unfold fexp, emin, prec, emax. change IntDef.Z.max with Z.max. lia.
    + rewrite M.
      assert (S1 : 2 ^ (53 - 1) = 2 ^ (d - 1) * 2 ^ (53 - d)).
      { rewrite <- Z.pow_add_r by lia. f_equal; lia. }
      assert (S2 : 2 ^ 53 = 2 ^ d * 2 ^ (53 - d)).
      { rewrite <- Z.pow_add_r by lia. f_equal; lia. }
      assert (0 < 2 ^ (53 - d)) by (apply Z.pow_pos_nonneg; lia).
      rewrite S1, S2. nia.
    + lia.
  - rewrite M. f_equal. f_equal. lia.
Qed.

(** A number of the format from 0 inclusive to 1 exclusive is 0 or at most
    [1 - 2 ^ -53]. *)
Lemma in_unit_interval_cases (u : spec_float) :
  in_unit_interval u = true ->
  (exists s, u = S754_zero s) \/
  (exists m e, u = S754_finite false m e /\ e <= - 53 /\
               Zpos m + 2 ^ (- e - 53) <= 2 ^ (- e)).
Proof.
  unfold in_unit_interval. intros H.
  apply andb_true_iff in H. destruct H as [H H1].
  apply andb_true_iff in H. destruct H as [Hv H0].
  destruct u as [s|s| |s m e].
  - left. now exists s.
  - destruct s; discriminate.
  - discriminate.
  - right. destruct s; [discriminate|]. exists m, e. split; [reflexivity|].
    cbn [valid_binary] in Hv. unfold bounded, canonical_mantissa in Hv.
    apply andb_true_iff in Hv. destruct Hv as [Hc _]. apply Z.eqb_eq in Hc.
    pose proof (digits2_pos_bounds m) as B.
    set (d := Zpos (digits2_pos m)) in *.
    unfold fexp, emin, prec, emax in Hc. change IntDef.Z.max with Z.max in Hc.
    assert (D : d <= 53) by lia.
    assert (M : Zpos m < 2 ^ 53).
    { apply Z.lt_le_trans with (2 ^ d); [lia|].
      apply Z.pow_le_mono_r; lia. }
    assert (E : e <= - 53).
    { change (SFone prec emax)
        with (S754_finite false 4503599627370496 (- 52)) in H1.
      unfold SFltb, SFcompare in H1.
      destruct (Z.compare_spec e (- 52)) as [E|E|E];
        [subst e|lia|discriminate H1].
      destruct (Pos.compare_cont Eq m 4503599627370496) eqn:Cm;
        [discriminate H1| |discriminate H1].
      assert (Cz : Zpos m < 4503599627370496) by exact Cm.
      clear Cm H1.
      assert (D' : d <= 52).
      { assert (A : 2 ^ (d - 1) < 2 ^ 52) by lia.
        apply Z.pow_lt_mono_r_iff in A; lia. }
      lia. }
    split; [assumption|].
    assert (S : 2 ^ (- e) = 2 ^ (- e - 53) * 2 ^ 53).
    { rewrite <- Z.pow_add_r by lia. f_equal; lia. }
    assert (0 < 2 ^ (- e - 53)) by (apply Z.pow_pos_nonneg; lia).
    rewrite S. nia.
Qed.

(** The index is an index of the array, in the arithmetic of the
    language. *)
Lemma random_index_bounds (u : spec_float) (len : nat) :
  in_unit_interval u = true -> 0 < Z.of_nat len < 2 ^ 32 ->
  exists i, random_index u len = Some i /\ 0 <= i < Z.of_nat len.
Proof.
  intros Hu Hn. unfold random_index, mul.
  destruct (of_length_exact len Hn) as (mn & en & -> & Hen & Hmn).
  destruct (in_unit_interval_cases u Hu) as [[s ->]|(m & e & -> & He & Hm)].
  - exists 0. split; [reflexivity|lia].
  - cbn [SFmul xorb].
    replace (e + en) with (- (- e - en)) by lia.
    apply round_below; try lia.
    rewrite Pos2Z.inj_mul, Hmn.
    assert (S1 : 2 ^ (- e - en) = 2 ^ (- e) * 2 ^ (- en)).
    { rewrite <- Z.pow_add_r by lia. f_equal; lia. }
    assert (S2 : 2 ^ (- e - en - 53) = 2 ^ (- e - 53) * 2 ^ (- en)).
    { rewrite <- Z.pow_add_r by lia. f_equal; lia. }
    assert (0 < 2 ^ (- en)) by (apply Z.pow_pos_nonneg; lia).
    rewrite S1, S2. nia.
Qed.


Lemma element_in_bounds (l : list jsstring) (i : Z) :
  0 <= i < Z.of_nat (length l) ->
  exists m, element l (Some i) = Some m /\ nth_error l (Z.to_nat i) = Some m /\
            In m l /\ (Z.to_nat i < length l)%nat.
Proof.
  intros H. unfold element.
  destruct (Z.ltb_spec i 0); [lia|].
  assert (L : (Z.to_nat i < length l)%nat) by lia.
  destruct (nth_error l (Z.to_nat i)) as [m|] eqn:N.
  - exists m. repeat split; try assumption. eapply nth_error_In; eassumption.
  - apply nth_error_None in N. lia.
Qed.

(** The product is rounded: with six moves and the number
    0.8333333333333333, whose exact product with 6 is below 5, the index
    is 5. *)
Example random_index_rounds :
  random_index (S754_finite false 7505999378950826 (- 53)) 6 = Some 5.
Proof. reflexivity. Qed.

Example random_index_of_the_largest :
  random_index (S754_finite false 9007199254740991 (- 53)) 6 = Some 5.
Proof. reflexivity. Qed.

End RandomFacts.

(* ================================================================= *)
(** * The orchestrator *)

Module OrchestratorFacts.
Import JsString Notions Orchestrator Protocol RandomFacts.

Section WithCollaborators.

Context {Game : Type} (C : Collaborators Game).

Let E := engine C.

(** ** Traces *)

Lemma count_app (p : event -> bool) (l1 l2 : list event) :
  count p (l1 ++ l2) = count p l1 + count p l2.
Proof. unfold count. now rewrite filter_app, length_app. Qed.

Lemma after_nil (st : ChessGame Game) : after st (game st) [] = st.
Proof. destruct st. unfold after. simpl. now rewrite app_nil_r. Qed.

Lemma after_after (st : ChessGame Game) g1 g2 e1 e2 :
  after (after st g1 e1) g2 e2 = after st g2 (e1 ++ e2).
Proof. unfold after. simpl. now rewrite app_assoc. Qed.

Lemma failed_attempt_counts mvs p s evs :
  failed_attempt mvs p s evs ->
  count is_request evs = 1 /\ count is_error evs = 1 /\
  count is_move_made evs = 0 /\ count is_display evs = 0.
Proof. intros H. destruct H; repeat split; reflexivity. Qed.

Lemma successful_attempt_counts mvs p s evs :
  successful_attempt mvs p s evs ->
  count is_request evs = 1 /\ count is_error evs = 0 /\
  count is_move_made evs = 1 /\ count is_display evs = 2.
Proof. intros H. destruct H; repeat split; reflexivity. Qed.

Lemma failed_attempts_counts mvs p s fails :
  Forall (failed_attempt mvs p s) fails ->
  count is_request (concat fails) = length fails /\
  count is_error (concat fails) = length fails /\
  count is_move_made (concat fails) = 0 /\
  count is_display (concat fails) = 0.
Proof.
  induction 1 as [|evs fails H _ IH]; simpl.
  - repeat split; reflexivity.
  - rewrite !count_app.
    destruct (failed_attempt_counts _ _ _ _ H) as (-> & -> & -> & ->).
    destruct IH as (-> & -> & -> & ->). repeat split; reflexivity.
Qed.


(** ** One attempt *)

Ltac same_state :=
  unfold after; simpl; rewrite <- ?app_assoc; reflexivity.

(** The [try] statement never throws.  Either the [catch] clause has run:
    the events are those of a failed attempt, the reply was not usable, and
    the position is the one that the engine left; or the block has returned:
    the events are those of a successful attempt. *)
Lemma try_attempt_cases (pos brd : jsstring) (mvs : list jsstring)
      (sys : jsstring) (st : ChessGame Game) :
  let p := prompt_of pos brd mvs in
  let reply := generateRaw C (count is_request (trace st)) p sys in
  (exists g' evs,
      try_attempt C pos brd mvs sys st = (Normal false, after st g' evs) /\
      failed_attempt mvs p sys evs /\
      usable C (game st) mvs reply = false /\
      (engine_atomic C -> g' = game st)) \/
  (exists g' evs,
      try_attempt C pos brd mvs sys st = (Normal true, after st g' evs) /\
      successful_attempt mvs p sys evs /\
      usable C (game st) mvs reply = true).
Proof.
  intros p reply.
  unfold try_attempt, try_catch, attempt, bind, call_generateRaw, usable.
  fold p. fold reply. simpl.
  destruct reply as [r|] eqn:G.
  2:{ left. exists (game st), [GenerateRaw p sys None; ConsoleError].
      split; [same_state|]. split; [constructor|]. split; [reflexivity|tauto]. }
  destruct (parseMove mvs r) as [|[|c s]|l] eqn:P.
  - simpl. left. exists (game st), [GenerateRaw p sys (Some r); ConsoleError].
    split; [same_state|]. split; [|split; [reflexivity|tauto]].
    constructor. unfold unresolved. now rewrite P.
  - simpl. left. exists (game st), [GenerateRaw p sys (Some r); ConsoleError].
    split; [same_state|]. split; [|split; [reflexivity|tauto]].
    constructor. unfold unresolved. now rewrite P.
  - set (arg := BySan (c :: s)).
    assert (Hc : candidate (parseMove mvs r) = Some arg) by now rewrite P.
    unfold game_move. simpl. fold arg.
    destruct (move (engine C) (game st) arg) as [g' ok] eqn:Mv.
    destruct ok; simpl.
    + right. exists g', [GenerateRaw p sys (Some r); GameMove arg true;
                         BoardPosition (fen (engine C) g'); UpdateStatus].
      split; [same_state|]. split; [|reflexivity]. now constructor.
    + left. exists g', [GenerateRaw p sys (Some r); GameMove arg false;
                        ConsoleError].
      split; [same_state|]. split; [now constructor|]. split; [reflexivity|].
      intros Hat. exact (Hat _ _ _ Mv).
  - set (arg := ByObject (nth_error l 0) (nth_error l 1)).
    assert (Hc : candidate (parseMove mvs r) = Some arg) by now rewrite P.
    unfold game_move. simpl.
    destruct (move (engine C) (game st) _) as [g' ok] eqn:Mv.
    change (move (engine C) (game st) arg = (g', ok)) in Mv.
    destruct ok; simpl.
    + right. exists g', [GenerateRaw p sys (Some r); GameMove arg true;
                         BoardPosition (fen (engine C) g'); UpdateStatus].
      split; [same_state|]. split; [|reflexivity]. now constructor.
    + left. exists g', [GenerateRaw p sys (Some r); GameMove arg false;
                        ConsoleError].
      split; [same_state|]. split; [now constructor|]. split; [reflexivity|].
      intros Hat. exact (Hat _ _ _ Mv).
Qed.

(** The [try] statement does what the description of an attempt by the
    cases of the reply says. *)
Lemma try_attempt_outcome (pos brd : jsstring) (mvs : list jsstring)
      (sys : jsstring) (st : ChessGame Game) :
  try_attempt C pos brd mvs sys st = attempt_outcome C pos brd mvs sys st.
Proof.
  unfold attempt_outcome.
  set (p := prompt_of pos brd mvs).
  unfold try_attempt, try_catch, attempt, bind, call_generateRaw.
  fold p. simpl.
  destruct (generateRaw C (count is_request (trace st)) p sys) as [r|];
    [|same_state].
  destruct (parseMove mvs r) as [|[|c s]|l] eqn:P.
  - simpl. same_state.
  - simpl. same_state.
  - unfold game_move. simpl.
    destruct (move (engine C) (game st) _) as [g' ok].
    destruct ok; same_state.
  - unfold game_move. simpl.
    destruct (move (engine C) (game st) _) as [g' ok].
    destruct ok; same_state.
Qed.



(** ** The loop *)

Lemma retry_cases (pos brd : jsstring) (mvs : list jsstring) (sys : jsstring)
      (n : nat) :
  forall st : ChessGame Game,
  let p := prompt_of pos brd mvs in
  exists fails,
    Forall (failed_attempt mvs p sys) fails /\
    ((exists g',
         retry C n pos brd mvs sys st
         = (Normal false, after st g' (concat fails)) /\
         length fails = n /\ (engine_atomic C -> g' = game st)) \/
     (exists g' last,
         retry C n pos brd mvs sys st
         = (Normal true, after st g' (concat fails ++ last)) /\
         length fails < n /\ successful_attempt mvs p sys last)).
Proof.
  induction n as [|n IH]; intros st p.
  - exists []. split; [constructor|]. left. exists (game st).
    simpl. unfold ret. rewrite after_nil. split; [reflexivity|].
    split; [reflexivity|tauto].
  - cbn [retry]. unfold bind.
    destruct (try_attempt_cases pos brd mvs sys st)
      as [(g1 & evs & -> & Hf & _ & Hg1)|(g1 & evs & -> & Hs & _)].
    + destruct (IH (after st g1 evs)) as (fails & Hfs & Hcases).
      exists (evs :: fails). split; [now constructor|].
      destruct Hcases as [(g' & -> & Hl & Hg')|(g' & last & -> & Hl & Hs)].
      * left. exists g'. rewrite after_after. simpl.
        split; [reflexivity|]. split; [lia|].
        intros Hat. rewrite (Hg' Hat). simpl. now apply Hg1.
      * right. exists g', last. rewrite after_after. simpl.
        rewrite <- app_assoc. split; [reflexivity|]. split; [lia|assumption].
    + exists []. split; [constructor|]. right. exists g1, evs.
      simpl. unfold ret. split; [reflexivity|]. split; [lia|assumption].
Qed.


(** ** The whole function *)

Lemma isOpponentTurn_run (st : ChessGame Game) :
  isOpponentTurn C st = (Normal (opponent_to_move C st), st).
Proof. reflexivity. Qed.

Lemma tryMoveOpponent_noop (st : ChessGame Game) :
  opponent_to_move C st = false \/ isGameOver E (game st) = true ->
  tryMoveOpponent C st = (Normal tt, st).
Proof.
  intros H. unfold tryMoveOpponent. unfold bind at 1.
  rewrite isOpponentTurn_run.
  destruct (opponent_to_move C st); simpl.
  - destruct H as [H|H]; [discriminate|].
    unfold bind, this_game. fold E. now rewrite H.
  - reflexivity.
Qed.

Lemma tryMoveOpponent_active (st : ChessGame Game) :
  opponent_to_move C st = true -> isGameOver E (game st) = false ->
  tryMoveOpponent C st =
  match retry C maxRetries (fen E (game st)) (board_ascii E (game st))
              (moves E (game st)) (systemPrompt_of (color st)) st with
  | (Normal true, st') => (Normal tt, st')
  | (Normal false, st') => random_move C (moves E (game st)) st'
  | (Throw, st') => (Throw, st')
  end.
Proof.
  intros H1 H2. unfold tryMoveOpponent. unfold bind at 1.
  rewrite isOpponentTurn_run, H1. cbn [negb].
  unfold bind at 1. unfold this_game. fold E. rewrite H2.
  unfold bind at 1. unfold this_color.
  unfold bind at 1.
  match goal with
  | |- context [retry C maxRetries ?a ?b ?c ?d ?s] =>
      destruct (retry C maxRetries a b c d s) as [[[|]|] st']
  end; reflexivity.
Qed.

Lemma random_move_run (mvs : list jsstring) (st : ChessGame Game) :
  let u := random C (count is_random (trace st)) in
  let arg := san_or_undefined (element mvs (random_index u (length mvs))) in
  random_move C mvs st =
  (let (g', ok) := move E (game st) arg in
   if ok
   then (Normal tt,
         after st g' [ConsoleWarn; MathRandom u; GameMove arg true;
                      BoardPosition (fen E g'); UpdateStatus])
   else (Throw, after st g' [ConsoleWarn; MathRandom u; GameMove arg false])).
Proof.
  intros u arg.
  unfold random_move, bind, emit, Math_random, game_move, board_position,
    updateStatus, this_game, emit, bind. simpl.
  rewrite count_app. simpl. rewrite Nat.add_0_r. fold u. fold arg. fold E.
  destruct (move E (game st) arg) as [g' ok].
  destruct ok; same_state.
Qed.

Lemma invocation_counts mvs p s r evs :
  invocation_events mvs p s r evs ->
  count is_request evs <= 3 /\
  count is_error evs <= count is_request evs <= S (count is_error evs).
Proof.
  intros H. destruct H as [|fails last Hf Hl Hs|fails r last Hf Hl Hb].
  - cbn. lia.
  - rewrite !count_app.
    destruct (failed_attempts_counts _ _ _ _ Hf) as (-> & -> & _).
    destruct (successful_attempt_counts _ _ _ _ Hs) as (-> & -> & _). lia.
  - rewrite !count_app.
    destruct (failed_attempts_counts _ _ _ _ Hf) as (-> & -> & _).
    destruct Hb; cbn; lia.
Qed.

(** What one invocation does: the events that it adds, their shape, and
    the position that it leaves. *)
Lemma tryMoveOpponent_run (st : ChessGame Game) :
  exists g' evs,
    snd (tryMoveOpponent C st) = after st g' evs /\
    invocation_events (moves E (game st)) (position_prompt C (game st))
                      (systemPrompt_of (color st))
                      (fst (tryMoveOpponent C st)) evs /\
    (engine_atomic C -> count is_move_made evs = 0 ->
     g' = game st /\ count is_display evs = 0).
Proof.
  destruct (opponent_to_move C st) eqn:H1.
  2:{ rewrite tryMoveOpponent_noop by now left.
      exists (game st), []. simpl. rewrite after_nil.
      split; [reflexivity|]. split; [constructor|]. intros _ _. now split. }
  destruct (isGameOver E (game st)) eqn:H2.
  1:{ rewrite tryMoveOpponent_noop by now right.
      exists (game st), []. simpl. rewrite after_nil.
      split; [reflexivity|]. split; [constructor|]. intros _ _. now split. }
  rewrite tryMoveOpponent_active by assumption.
  destruct (retry_cases (fen E (game st)) (board_ascii E (game st))
                        (moves E (game st)) (systemPrompt_of (color st))
                        maxRetries st) as (fails & Hf & Hcases).
  destruct (failed_attempts_counts _ _ _ _ Hf) as (_ & _ & Hm & Hd).
  destruct Hcases as [(g1 & -> & Hl & Hg1)|(g1 & last & -> & Hl & Hs)].
  - rewrite random_move_run. cbn [game after].
    set (u := random C _). set (arg := san_or_undefined _).
    destruct (move E g1 arg) as [g' ok] eqn:Mv. destruct ok.
    + exists g', (concat fails ++ [ConsoleWarn; MathRandom u; GameMove arg true;
                                   BoardPosition (fen E g'); UpdateStatus]).
      cbn [fst snd]. rewrite after_after.
      split; [reflexivity|]. split.
      * apply invocation_fallback; [assumption|assumption|constructor].
      * intros _ H0. rewrite count_app, Hm in H0. discriminate H0.
    + exists g', (concat fails ++ [ConsoleWarn; MathRandom u; GameMove arg false]).
      cbn [fst snd]. rewrite after_after.
      split; [reflexivity|]. split.
      * apply invocation_fallback; [assumption|assumption|constructor].
      * intros Hat _. split.
        -- rewrite <- (Hg1 Hat). exact (Hat _ _ _ Mv).
        -- rewrite count_app, Hd. reflexivity.
  - exists g1, (concat fails ++ last). cbn [fst snd].
    split; [reflexivity|]. split.
    + now apply invocation_success.
    + intros _ H0. rewrite count_app, Hm in H0.
      destruct (successful_attempt_counts _ _ _ _ Hs) as (_ & _ & Hm' & _).
      rewrite Hm' in H0. discriminate H0.
Qed.

(** ** C5 *)

(** C5. One invocation sends at most three generation requests.  Its
    events are: nothing; or fewer than three failed attempts followed by the
    successful one, after which nothing more happens; or three failed
    attempts followed by the fallback.  A failed attempt, whether the
    generation was rejected, the reply had no move or the engine rejected
    the move, is one request followed by one error message, and the loop
    goes on; the function itself throws only if the engine rejects the move
    of the fallback. *)
Theorem C5_bounded_retries (st : ChessGame Game) :
  exists evs,
    trace (snd (tryMoveOpponent C st)) = trace st ++ evs /\
    invocation_events (moves E (game st)) (position_prompt C (game st))
                      (systemPrompt_of (color st))
                      (fst (tryMoveOpponent C st)) evs /\
    count is_request evs <= 3 /\
    count is_error evs <= count is_request evs <= S (count is_error evs).
Proof.
  destruct (tryMoveOpponent_run st) as (g' & evs & Hs & Hi & _).
  exists evs. split; [now rewrite Hs|]. split; [assumption|].
  eapply invocation_counts. eassumption.
Qed.

(** ** C6 *)

(** C6. When it is not the turn of the side that the opponent plays, or
    when the game is over, the function returns at once: the game, and the
    trace of the calls to the generator, the board and the status texts, are
    what they were. *)
Theorem C6_precondition_noop (st : ChessGame Game) :
  fst (isOpponentTurn C st) = Normal false \/ isGameOver E (game st) = true ->
  tryMoveOpponent C st = (Normal tt, st).
Proof.
  intros H. apply tryMoveOpponent_noop.
  destruct H as [H|H]; [left|now right].
  rewrite isOpponentTurn_run in H. simpl in H. congruence.
Qed.

(** ** C9 *)

(** C9. With an engine whose rejected calls leave the position as it was:
    an attempt that fails, for any of the three reasons, leaves the position
    of the game as it was and adds no call to the board or to the status
    texts; and an invocation that makes no move, in the loop or in the
    fallback, leaves the position as it was and calls neither. *)
Theorem C9_failed_attempts_atomic :
  engine_atomic C ->
  (forall pos brd mvs sys (st st' : ChessGame Game),
      try_attempt C pos brd mvs sys st = (Normal false, st') ->
      game st' = game st /\ color st' = color st /\
      exists evs, trace st' = trace st ++ evs /\
                  failed_attempt mvs (prompt_of pos brd mvs) sys evs /\
                  count is_display evs = 0 /\ count is_move_made evs = 0) /\
  (forall st : ChessGame Game,
      exists evs,
        trace (snd (tryMoveOpponent C st)) = trace st ++ evs /\
        (count is_move_made evs = 0 ->
         game (snd (tryMoveOpponent C st)) = game st /\
         count is_display evs = 0)).
Proof.
  intros Hat. split.
  - intros pos brd mvs sys st st' H.
    destruct (try_attempt_cases pos brd mvs sys st)
      as [(g1 & evs & R & Hf & _ & Hg1)|(g1 & evs & R & _)];
      rewrite R in H; [|discriminate].
    injection H as <-. simpl. split; [now apply Hg1|]. split; [reflexivity|].
    exists evs. split; [reflexivity|]. split; [assumption|].
    destruct (failed_attempt_counts _ _ _ _ Hf) as (_ & _ & -> & ->).
    now split.
  - intros st. destruct (tryMoveOpponent_run st) as (g' & evs & Hs & _ & Hg).
    exists evs. rewrite Hs. simpl. split; [reflexivity|].
    intros H0. now apply Hg.
Qed.

(** ** C7 *)




(** ** C4 *)


End WithCollaborators.

End OrchestratorFacts.

(* ================================================================= *)
(** * Runs of the orchestrator *)

Module Runs.
Import JsString Orchestrator Protocol Toy.

Example run_direct :
  let p := position_prompt direct 0 in
  let s := systemPrompt_of black in
  tryMoveOpponent direct start =
  (Normal tt,
   {| color := black; game := 1;
      trace := [GenerateRaw p s (Some "Nf3"%js);
                GameMove (BySan "Nf3"%js) true;
                BoardPosition "position 1"%js; UpdateStatus] |}).
Proof. reflexivity. Qed.

Example run_helpful :
  let p := position_prompt helpful 0 in
  let s := systemPrompt_of black in
  tryMoveOpponent helpful start =
  (Normal tt,
   {| color := black; game := 1;
      trace := [GenerateRaw p s None; ConsoleError;
                GenerateRaw p s (Some "I'll play Nf3"%js);
                GameMove (BySan "Nf3"%js) true;
                BoardPosition "position 1"%js; UpdateStatus] |}).
Proof. reflexivity. Qed.

Example run_garbage :
  let p := position_prompt garbage 0 in
  let s := systemPrompt_of black in
  let r := Some "I have no idea what to play"%js in
  tryMoveOpponent garbage start =
  (Normal tt,
   {| color := black; game := 1;
      trace := [GenerateRaw p s r; ConsoleError;
                GenerateRaw p s r; ConsoleError;
                GenerateRaw p s r; ConsoleError;
                ConsoleWarn; MathRandom half;
                GameMove (BySan "Nf3"%js) true;
                BoardPosition "position 1"%js; UpdateStatus] |}).
Proof. reflexivity. Qed.

(** A rejected coordinate pair, after two rejected requests. *)
Example run_rejected_pair :
  let p := position_prompt helpful 0 in
  let s := systemPrompt_of black in
  try_attempt helpful (fen toy_engine 0) (board_ascii toy_engine 0)
              (moves toy_engine 0) s later =
  (Normal false,
   after later 0
         [GenerateRaw p s (Some "e2-e5"%js);
          GameMove (ByObject (Some "e2"%js) (Some "e5"%js)) false;
          ConsoleError]).
Proof. reflexivity. Qed.

End Runs.

(* ================================================================= *)
(** * The statements at concrete inputs *)

Module ToyFacts.
Import JsString Notions Orchestrator Protocol Toy.

Lemma eqb_string_refl (s : jsstring) : eqb_string s s = true.
Proof.
  induction s as [|c s IH]; simpl; [reflexivity|].
  now rewrite Ascii.eqb_refl.
Qed.

Lemma toy_move_rejected (g : nat) (a : move_arg) (g' : nat) :
  toy_move g a = (g', false) -> g' = g.
Proof.
  unfold toy_move. destruct a as [[o|] [d|]|s|];
    repeat match goal with
           | |- context [if ?c then _ else _] => destruct c
           end; intros H; injection H; congruence.
Qed.

Lemma toy_move_made (g : nat) (a : move_arg) (g' : nat) :
  toy_move g a = (g', true) -> g' = S g.
Proof.
  unfold toy_move. destruct a as [[o|] [d|]|s|];
    repeat match goal with
           | |- context [if ?c then _ else _] => destruct c
           end; intros H; injection H; congruence.
Qed.

Lemma toy_legal (g : nat) (m : jsstring) :
  In m (toy_moves g) -> snd (toy_move g (BySan m)) = true.
Proof.
  intros H. unfold toy_move.
  destruct (existsb (eqb_string m) (toy_moves g)) eqn:X; [reflexivity|].
  exfalso. assert (Y : existsb (eqb_string m) (toy_moves g) = true).
  { apply existsb_exists. exists m. split; [assumption|apply eqb_string_refl]. }
  congruence.
Qed.

Lemma toy_has_moves (g : nat) : toy_over g = false -> toy_moves g <> [].
Proof. unfold toy_moves. intros ->. discriminate. Qed.

Lemma toy_turn (g : nat) :
  (if Nat.even (S g) then W else B) <> (if Nat.even g then W else B).
Proof.
  rewrite Nat.even_succ, <- Nat.negb_even.
  destruct (Nat.even g); discriminate.
Qed.

Lemma helpful_atomic : engine_atomic helpful.
Proof. intros g a g'. apply toy_move_rejected. Qed.

Lemma garbage_atomic : engine_atomic garbage.
Proof. intros g a g'. apply toy_move_rejected. Qed.

Lemma garbage_legal : legal_moves_accepted garbage.
Proof. intros g m. apply toy_legal. Qed.

Lemma garbage_has_moves : nonterminal_has_moves garbage.
Proof. intros g. apply toy_has_moves. Qed.

Lemma garbage_turn : move_passes_turn garbage.
Proof.
  intros g a g' H. apply toy_move_made in H. subst g'. apply toy_turn.
Qed.

Lemma garbage_random : random_in_range garbage.
Proof. intros n. reflexivity. Qed.

End ToyFacts.

Module Witnesses.
Import JsString Notions Orchestrator Protocol Toy ToyFacts.
Import ResolverFacts NotationFacts OrchestratorFacts.

Lemma C1_coordinate_pair_witness :
  exists a0 o d b0,
    parseMove ["e4"%js] "I play e2-e4, then g1-f3"%js = VArray [o; d] /\
    square o /\ square d /\
    "I play e2-e4, then g1-f3"%js = a0 ++ (o ++ "-"%js ++ d) ++ b0 /\
    forall a' w' b',
      "I play e2-e4, then g1-f3"%js = a' ++ w' ++ b' -> coordinate_pair w' ->
      length a0 <= length a'.
Proof.
  apply (C1_coordinate_pair ["e4"%js] "I play e2-e4, then g1-f3"%js
           "I play e2-e4, then "%js "g1-f3"%js ""%js).
  - reflexivity.
  - exists "g1"%js, "f3"%js. split; [|split; [|reflexivity]].
    + exists "g", "1". repeat split; reflexivity.
    + exists "f", "3". repeat split; reflexivity.
Defined.

Lemma C3_first_legal_move_witness :
  parseMove ["e4"%js; "Nf3"%js; "d4"%js] " I'll play NF3 here"%js
  = VString "Nf3"%js.
Proof.
  apply (C3_first_legal_move ["e4"%js; "Nf3"%js; "d4"%js]
           ["e4"%js] ["d4"%js] "Nf3"%js " I'll play NF3 here"%js).
  - reflexivity.
  - reflexivity.
  - reflexivity.
  - exists " I'll play "%js, "NF3"%js, " here"%js. split; reflexivity.
  - intros x [<-|[]] H. apply contains_ci_includes in H. discriminate H.
  - reflexivity.
Defined.


Lemma C6_precondition_noop_witness :
  tryMoveOpponent helpful {| color := white; game := 0; trace := [] |}
  = (Normal tt, {| color := white; game := 0; trace := [] |}) /\
  tryMoveOpponent helpful {| color := white; game := 5; trace := [] |}
  = (Normal tt, {| color := white; game := 5; trace := [] |}).
Proof.
  split.
  - apply (C6_precondition_noop helpful). left. reflexivity.
  - apply (C6_precondition_noop helpful). right. reflexivity.
Defined.



Lemma C9_failed_attempts_atomic_witness :
  game (snd (try_attempt helpful "position 0"%js "board"%js
                         ["e4"%js; "Nf3"%js; "d4"%js] "WHITE"%js later))
  = game later.
Proof.
  exact (proj1 (proj1 (C9_failed_attempts_atomic helpful helpful_atomic)
                      "position 0"%js "board"%js
                      ["e4"%js; "Nf3"%js; "d4"%js] "WHITE"%js later
                      (snd (try_attempt helpful "position 0"%js "board"%js
                                        ["e4"%js; "Nf3"%js; "d4"%js]
                                        "WHITE"%js later))
                      eq_refl)).
Defined.

End Witnesses.

(* ================================================================= *)
(** * More about the resolver *)

Module ResolverMore.
Import JsString JsStringFacts JsSearchFacts Regex RegexFacts Notions.
Import ResolverFacts NotationFacts.

(** What the first rule finds is a coordinate pair. *)
Lemma regular_match_head (s m : jsstring) (rest : list jsstring) :
  string_match_g re_regular s = Some (m :: rest) -> coordinate_pair m.
Proof.
  unfold string_match_g. intros H.
  pose proof (match_all_hd re_regular s 0) as Hhd.
  destruct (match_all re_regular 0 s 0) as [|m0 l]; [discriminate|].
  injection H as -> ->. simpl in Hhd.
  destruct (exec_from re_regular 0 s) as [[p t]|] eqn:X; [|discriminate].
  simpl in Hhd. injection Hhd as <-.
  destruct (exec_from_some _ _ _ _ _ X) as (a0 & r0 & j & _ & _ & Hm & Ht & _).
  rewrite match_at_regular in Hm.
  destruct (coord_here r0) eqn:Hc; [|discriminate]. injection Hm as <-.
  apply coord_here_true in Hc. destruct Hc as (w0 & b0 & -> & Hw0).
  assert (L0 : length w0 = 5).
  { apply coordinate_pair_shape in Hw0.
    destruct Hw0 as (? & ? & ? & ? & -> & _). reflexivity. }
  rewrite Ht. replace (p + 5 - p) with (length w0 + 0) by lia.
  rewrite firstn_app_2. simpl. now rewrite app_nil_r.
Qed.

(** What the castling alternative finds is one of the two castling
    tokens. *)
Lemma castle_match_text (s t : jsstring) :
  startsWith s "O-O"%js = true -> string_match re_notation s = Some t ->
  castling_token t.
Proof.
  intros Hs Ht. apply startsWith_spec in Hs. destruct Hs as [b ->].
  destruct (startsWith b "-O"%js) eqn:Hb.
  - apply startsWith_spec in Hb. destruct Hb as [b' ->].
    change ("O-O"%js ++ "-O"%js ++ b') with ("O-O-O"%js ++ b') in Ht.
    rewrite castle_long in Ht. injection Ht as <-. now right.
  - rewrite castle_short in Ht by assumption. injection Ht as <-. now left.
Qed.

(** A string that [parseMove] returns comes from the second pattern or from
    the list. *)
Lemma parseMove_string_cases (mvs : list jsstring) (reply s : jsstring) :
  parseMove mvs reply = VString s ->
  In s mvs \/ castling_token s \/ san_token is_piece s.
Proof.
  unfold parseMove.
  destruct (string_match_g re_regular (trim reply)) as [[|m0 rest]|] eqn:R;
    [discriminate|discriminate|].
  destruct (string_match re_notation (trim reply)) as [t|] eqn:N.
  - intros H. injection H as <-. right.
    destruct (notation_found _ _ N) as [[Hc _]|(pre & _ & Tk & _)].
    + left. eapply castle_match_text; eassumption.
    + now right.
  - destruct (find _ mvs) as [m|] eqn:F; [|discriminate].
    intros H. injection H as <-. left. apply find_some in F. tauto.
Qed.

(** X1.  The shape of every result of [parseMove]: an array has exactly two
    elements, both squares, so that [move[0]] and [move[1]] are defined; a
    string is a member of the list of legal moves, or a castling token, or
    a token of the algebraic grammar in which any letter of [NBRQK] may
    follow [=]. *)
Theorem parseMove_shape (mvs : list jsstring) (reply : jsstring) :
  match parseMove mvs reply with
  | VArray l => exists o d, l = [o; d] /\ square o /\ square d
  | VString s => In s mvs \/ castling_token s \/ san_token is_piece s
  | VNull => True
  end.
Proof.
  destruct (parseMove mvs reply) as [|s|l] eqn:P.
  - exact I.
  - eapply parseMove_string_cases. eassumption.
  - unfold parseMove in P.
    destruct (string_match_g re_regular (trim reply)) as [[|m0 rest]|] eqn:R.
    + discriminate.
    + apply regular_match_head in R. destruct R as (o & d & So & Sd & ->).
      rewrite split_coordinate_pair in P by assumption.
      injection P as <-. now exists o, d.
    + destruct (string_match re_notation (trim reply)); [discriminate|].
      destruct (find _ mvs); discriminate.
Qed.

(** X2.  With a list of legal moves that has no empty string, the test
    [if (!move)] of the loop takes its branch exactly when [parseMove] has
    returned [null]: neither pattern ever yields the empty string. *)
Theorem parseMove_falsy_is_null (mvs : list jsstring) (reply : jsstring) :
  ~ In [] mvs ->
  (truthy (parseMove mvs reply) = false <-> parseMove mvs reply = VNull).
Proof.
  intros Hno. split.
  - destruct (parseMove mvs reply) as [|[|c s]|l] eqn:P;
      [reflexivity| |discriminate|discriminate].
    intros _. exfalso.
    destruct (parseMove_string_cases _ _ _ P) as [S|[[S|S]|S]].
    + now apply Hno.
    + discriminate S.
    + discriminate S.
    + destruct (token_end _ _ S) as (body & e & c & E & _).
      destruct body; discriminate E.
  - intros ->. reflexivity.
Qed.

(** X3.  The list of legal moves matters only when neither pattern matches: a
    reply in which [parseMove] finds a move without any list gives the same
    move with every list, legal or not. *)
Theorem parseMove_patterns_ignore_list (mvs : list jsstring) (reply : jsstring) :
  parseMove [] reply <> VNull ->
  parseMove mvs reply = parseMove [] reply.
Proof.
  unfold parseMove.
  destruct (string_match_g re_regular (trim reply)) as [[|m0 rest]|];
    [reflexivity|reflexivity|].
  destruct (string_match re_notation (trim reply)); [reflexivity|].
  simpl. intros H. now contradiction H.
Qed.

End ResolverMore.

(* ================================================================= *)
(** * More about the orchestrator *)

Module OrchestratorMore.
Import JsString Notions Orchestrator Protocol ProtocolMore RandomFacts.
Import OrchestratorFacts.

Section WithCollaborators.

Context {Game : Type} (C : Collaborators Game).

Ltac same_state :=
  unfold after; simpl; rewrite <- ?app_assoc; reflexivity.

(** A usable reply makes the attempt succeed with the move that
    [parseMove] has found in it. *)
Lemma try_attempt_usable (pos brd : jsstring) (mvs : list jsstring)
      (sys r : jsstring) (st : ChessGame Game) :
  let p := prompt_of pos brd mvs in
  generateRaw C (count is_request (trace st)) p sys = Some r ->
  usable C (game st) mvs (Some r) = true ->
  exists arg g',
    candidate (parseMove mvs r) = Some arg /\
    move (engine C) (game st) arg = (g', true) /\
    try_attempt C pos brd mvs sys st
    = (Normal true,
       after st g' [GenerateRaw p sys (Some r); GameMove arg true;
                    BoardPosition (fen (engine C) g'); UpdateStatus]).
Proof.
  intros p G U. rewrite try_attempt_outcome. unfold attempt_outcome.
  fold p. rewrite G. unfold usable in U.
  apply andb_true_iff in U. destruct U as [T U].
  destruct (candidate (parseMove mvs r)) as [arg|]; [|discriminate].
  rewrite T.
  destruct (move (engine C) (game st) arg) as [g' ok] eqn:Mv. simpl in U. subst ok.
  exists arg, g'. split; [reflexivity|]. split; [exact Mv|reflexivity].
Qed.

(** The fallback in a game that is not over. *)
Lemma random_move_made (st : ChessGame Game) :
  legal_moves_accepted C -> nonterminal_has_moves C -> random_in_range C ->
  isGameOver (engine C) (game st) = false ->
  exists u m g',
    In m (moves (engine C) (game st)) /\
    move (engine C) (game st) (BySan m) = (g', true) /\
    random_move C (moves (engine C) (game st)) st
    = (Normal tt,
       after st g' [ConsoleWarn; MathRandom u; GameMove (BySan m) true;
                    BoardPosition (fen (engine C) g'); UpdateStatus]).
Proof.
  intros Hlegal Hmoves Hrand H2.
  rewrite random_move_run.
  set (u := random C _).
  pose proof (Hrand (count is_random (trace st))) as U. fold u in U.
  assert (Hlen : (0 < Z.of_nat (length (moves (engine C) (game st))) < 2 ^ 32)%Z).
  { split; [|apply moves_is_array].
    specialize (Hmoves _ H2).
    destruct (moves (engine C) (game st)); [congruence|simpl; lia]. }
  destruct (random_index_bounds u _ U Hlen) as (i & -> & Hi).
  destruct (element_in_bounds (moves (engine C) (game st)) i Hi)
    as (m & -> & _ & Hin & _).
  cbn [san_or_undefined].
  pose proof (Hlegal _ _ Hin) as Hacc.
  destruct (move (engine C) (game st) (BySan m)) as [g' ok] eqn:Mv.
  simpl in Hacc. subst ok.
  exists u, m, g'. split; [assumption|]. split; [exact Mv|reflexivity].
Qed.

(** The attempt that succeeds ends with the move, the board drawn with the
    position that the move has left, and the status. *)
Lemma try_attempt_true_shape (pos brd : jsstring) (mvs : list jsstring)
      (sys : jsstring) (st st' : ChessGame Game) :
  try_attempt C pos brd mvs sys st = (Normal true, st') ->
  exists r arg,
    st' = after st (game st')
                [GenerateRaw (prompt_of pos brd mvs) sys (Some r);
                 GameMove arg true;
                 BoardPosition (fen (engine C) (game st')); UpdateStatus] /\
    move (engine C) (game st) arg = (game st', true).
Proof.
  rewrite try_attempt_outcome. unfold attempt_outcome.
  destruct (generateRaw C _ _ sys) as [r|]; [|discriminate].
  destruct (candidate (parseMove mvs r)) as [arg|]; [|discriminate].
  destruct (truthy (parseMove mvs r)); [|discriminate].
  destruct (move (engine C) (game st) arg) as [g' ok] eqn:Mv.
  destruct ok; [|discriminate].
  intros H. injection H as <-. exists r, arg. now split.
Qed.

Lemma retry_true_shape (pos brd : jsstring) (mvs : list jsstring)
      (sys : jsstring) (n : nat) :
  engine_atomic C ->
  forall st st' : ChessGame Game,
    retry C n pos brd mvs sys st = (Normal true, st') ->
    exists pre arg,
      st' = after st (game st')
                  (pre ++ [GameMove arg true;
                           BoardPosition (fen (engine C) (game st'));
                           UpdateStatus]) /\
      move (engine C) (game st) arg = (game st', true) /\
      count is_move_made pre = 0 /\ count is_display pre = 0 /\
      1 <= count is_request pre <= n.
Proof.
  intros Hat. induction n as [|n IH]; intros st st' H; [discriminate|].
  cbn [retry] in H. unfold bind in H.
  destruct (try_attempt C pos brd mvs sys st) as [[[|]|] st1] eqn:T.
  - injection H as <-.
    destruct (try_attempt_true_shape _ _ _ _ _ _ T) as (r & arg & Hs & Mv).
    exists [GenerateRaw (prompt_of pos brd mvs) sys (Some r)], arg.
    split; [exact Hs|]. split; [exact Mv|]. cbn. lia.
  - destruct (try_attempt_cases C pos brd mvs sys st)
      as [(g1 & evs & R & Hf & _ & Hg1)|(g1 & evs & R & _)];
      rewrite R in T; [|discriminate].
    injection T as <-. rewrite (Hg1 Hat) in H.
    destruct (IH _ _ H) as (pre & arg & Hs & Mv & Hm & Hd & Hq).
    destruct (failed_attempt_counts _ _ _ _ Hf) as (Fq & _ & Fm & Fd).
    exists (evs ++ pre), arg. rewrite after_after in Hs.
    rewrite <- app_assoc. split; [exact Hs|]. split; [exact Mv|].
    rewrite !count_app, Fq, Fm, Fd, Hm, Hd. lia.
  - discriminate.
Qed.

(** The function in a game that is not over, with the opponent to move: the
    events end with the one move that is made, the board drawn with the
    position that the move has left, and the status. *)
Lemma tryMoveOpponent_move_then_refresh :
  engine_atomic C -> legal_moves_accepted C -> nonterminal_has_moves C ->
  move_passes_turn C -> random_in_range C ->
  forall st : ChessGame Game,
    opponent_to_move C st = true ->
    isGameOver (engine C) (game st) = false ->
    exists arg g' pre,
      tryMoveOpponent C st
      = (Normal tt,
         after st g' (pre ++ [GameMove arg true;
                              BoardPosition (fen (engine C) g');
                              UpdateStatus])) /\
      move (engine C) (game st) arg = (g', true) /\
      turn (engine C) g' <> turn (engine C) (game st) /\
      count is_move_made pre = 0 /\
      count is_display pre = 0 /\
      1 <= count is_request pre <= 3.
Proof.
  intros Hat Hlegal Hmoves Hturn Hrand st H1 H2.
  rewrite tryMoveOpponent_active by assumption.
  destruct (retry C maxRetries (fen (engine C) (game st))
                  (board_ascii (engine C) (game st))
                  (moves (engine C) (game st)) (systemPrompt_of (color st)) st)
    as [[[|]|] st1] eqn:R.
  - destruct (retry_true_shape _ _ _ _ _ Hat _ _ R)
      as (pre & arg & Hs & Mv & Hm & Hd & Hq).
    exists arg, (game st1), pre. rewrite <- Hs.
    split; [reflexivity|]. split; [exact Mv|].
    split; [exact (Hturn _ _ _ Mv)|]. now repeat split.
  - destruct (retry_cases C (fen (engine C) (game st))
                (board_ascii (engine C) (game st))
                (moves (engine C) (game st)) (systemPrompt_of (color st))
                maxRetries st) as (fails & Hf & Hcases).
    destruct (failed_attempts_counts _ _ _ _ Hf) as (Hq & _ & Hm & Hd).
    destruct Hcases as [(g1 & R' & Hl & Hg1)|(g1 & last & R' & _)];
      rewrite R' in R; [|discriminate].
    injection R as <-. rewrite (Hg1 Hat).
    destruct (random_move_made (after st (game st) (concat fails))
                Hlegal Hmoves Hrand H2) as (u & m & g' & _ & Mv & Rm).
    cbn [game after] in Rm, Mv. rewrite Rm.
    exists (BySan m), g', (concat fails ++ [ConsoleWarn; MathRandom u]).
    rewrite after_after, <- app_assoc.
    split; [reflexivity|]. split; [assumption|].
    split; [exact (Hturn _ _ _ Mv)|].
    rewrite !count_app, Hq, Hm, Hd. cbn. unfold maxRetries in Hl. lia.
  - exfalso.
    destruct (retry_cases C (fen (engine C) (game st))
                (board_ascii (engine C) (game st))
                (moves (engine C) (game st)) (systemPrompt_of (color st))
                maxRetries st) as (fails & _ & [(g1 & R' & _)|(g1 & last & R' & _)]);
      rewrite R' in R; discriminate R.
Qed.

(** The same, by the numbers of the events. *)
Lemma tryMoveOpponent_moves_once :
  engine_atomic C -> legal_moves_accepted C -> nonterminal_has_moves C ->
  move_passes_turn C -> random_in_range C ->
  forall st : ChessGame Game,
    opponent_to_move C st = true ->
    isGameOver (engine C) (game st) = false ->
    exists arg g' evs,
      tryMoveOpponent C st = (Normal tt, after st g' evs) /\
      move (engine C) (game st) arg = (g', true) /\
      turn (engine C) g' <> turn (engine C) (game st) /\
      count is_move_made evs = 1 /\
      count is_display evs = 2 /\
      1 <= count is_request evs <= 3.
Proof.
  intros Hat Hlegal Hmoves Hturn Hrand st H1 H2.
  destruct (tryMoveOpponent_move_then_refresh Hat Hlegal Hmoves Hturn Hrand
              st H1 H2) as (arg & g' & pre & R & Mv & T & Hm & Hd & Hq).
  exists arg, g', (pre ++ [GameMove arg true;
                           BoardPosition (fen (engine C) g'); UpdateStatus]).
  split; [exact R|]. split; [exact Mv|]. split; [exact T|].
  rewrite !count_app, Hm, Hd. cbn. lia.
Qed.

(** X4.  Whatever the generator replies: when [isOpponentTurn] answers yes
    in a game that is not over, the function returns normally, having made
    exactly one move, from the position in which it was called, and the turn
    has passed.  The events of the invocation end with that move, then one
    call to the board, with the position that the move has left, then one
    update of the status; before the move there is no accepted move and no
    call to the board or to the status, and there are at least one request
    and at most three.  The run is sequential: nothing happens between a
    request and its reply. *)
Theorem tryMoveOpponent_progress :
  engine_atomic C -> legal_moves_accepted C -> nonterminal_has_moves C ->
  move_passes_turn C -> random_in_range C ->
  forall st : ChessGame Game,
    fst (isOpponentTurn C st) = Normal true ->
    isGameOver (engine C) (game st) = false ->
    exists arg g' pre,
      tryMoveOpponent C st
      = (Normal tt,
         after st g' (pre ++ [GameMove arg true;
                              BoardPosition (fen (engine C) g');
                              UpdateStatus])) /\
      move (engine C) (game st) arg = (g', true) /\
      turn (engine C) g' <> turn (engine C) (game st) /\
      count is_move_made pre = 0 /\
      count is_display pre = 0 /\
      1 <= count is_request pre <= 3.
Proof.
  intros Hat Hlegal Hmoves Hturn Hrand st H1 H2.
  rewrite isOpponentTurn_run in H1. simpl in H1. injection H1 as H1.
  now apply tryMoveOpponent_move_then_refresh.
Qed.

Lemma opponent_has_moved (st : ChessGame Game) (g' : Game) (evs : list event) :
  opponent_to_move C st = true ->
  turn (engine C) g' <> turn (engine C) (game st) ->
  opponent_to_move C (after st g' evs) = false.
Proof.
  unfold opponent_to_move. simpl.
  destruct (turn (engine C) (game st)), (turn (engine C) g'), (color st);
    congruence.
Qed.

(** X5.  Called a second time as soon as it has returned, the function does
    nothing: the two calls in sequence do what one call does, in every
    state. *)
Theorem tryMoveOpponent_twice :
  engine_atomic C -> legal_moves_accepted C -> nonterminal_has_moves C ->
  move_passes_turn C -> random_in_range C ->
  forall st : ChessGame Game,
    bind (tryMoveOpponent C) (fun _ => tryMoveOpponent C) st
    = tryMoveOpponent C st.
Proof.
  intros Hat Hlegal Hmoves Hturn Hrand st. unfold bind.
  destruct (opponent_to_move C st) eqn:H1.
  - destruct (isGameOver (engine C) (game st)) eqn:H2.
    + rewrite (tryMoveOpponent_noop C st) by (right; exact H2).
      apply tryMoveOpponent_noop. right. exact H2.
    + destruct (tryMoveOpponent_moves_once Hat Hlegal Hmoves Hturn Hrand st H1 H2)
        as (arg & g' & evs & -> & _ & T & _).
      apply tryMoveOpponent_noop. left. now apply opponent_has_moved.
  - rewrite (tryMoveOpponent_noop C st) by (left; exact H1).
    apply tryMoveOpponent_noop. left. exact H1.
Qed.

Lemma retry_first_usable (pos brd : jsstring) (mvs : list jsstring)
      (sys r : jsstring) (n k : nat) :
  engine_atomic C ->
  forall st : ChessGame Game,
    let p := prompt_of pos brd mvs in
    (forall i, i < k ->
               usable C (game st) mvs
                      (generateRaw C (count is_request (trace st) + i) p sys)
               = false) ->
    generateRaw C (count is_request (trace st) + k) p sys = Some r ->
    usable C (game st) mvs (Some r) = true ->
    exists fails arg g',
      retry C (k + S n) pos brd mvs sys st
      = (Normal true,
         after st g' (concat fails ++
                      [GenerateRaw p sys (Some r); GameMove arg true;
                       BoardPosition (fen (engine C) g'); UpdateStatus])) /\
      Forall (failed_attempt mvs p sys) fails /\ length fails = k /\
      candidate (parseMove mvs r) = Some arg /\
      move (engine C) (game st) arg = (g', true).
Proof.
  intros Hat. induction k as [|k IH]; intros st p Hu G U.
  - rewrite Nat.add_0_r in G.
    destruct (try_attempt_usable pos brd mvs sys r st G U)
      as (arg & g' & Hc & Mv & T).
    exists [], arg, g'. cbn [Nat.add retry]. unfold bind. rewrite T.
    split; [reflexivity|]. split; [constructor|]. now repeat split.
  - cbn [Nat.add retry]. unfold bind.
    destruct (try_attempt_cases C pos brd mvs sys st)
      as [(g1 & evs & -> & Hf & _ & Hg1)|(g1 & evs & _ & _ & Hs)].
    + rewrite (Hg1 Hat).
      destruct (failed_attempt_counts _ _ _ _ Hf) as (Hq & _).
      destruct (IH (after st (game st) evs)) as (fails & arg & g' & -> & Hfs & Hl & Hc & Mv).
      * intros i Hi. simpl. rewrite count_app, Hq.
        replace (count is_request (trace st) + 1 + i)
          with (count is_request (trace st) + S i) by lia.
        apply Hu. lia.
      * simpl. rewrite count_app, Hq.
        replace (count is_request (trace st) + 1 + k)
          with (count is_request (trace st) + S k) by lia.
        exact G.
      * exact U.
      * exists (evs :: fails), arg, g'. rewrite after_after. simpl.
        rewrite <- app_assoc.
        split; [reflexivity|]. split; [now constructor|].
        split; [lia|]. now split.
    + specialize (Hu 0 (Nat.lt_0_succ k)). rewrite Nat.add_0_r in Hu.
      fold p in Hs. congruence.
Qed.

(** X6.  The first usable reply decides.  When the replies to the first [k]
    requests, [k] below three, are not usable and the next one is, the
    function makes the move that [parseMove] finds in that reply, after
    [k + 1] requests and [k] error messages, and never draws a random
    number. *)
Theorem tryMoveOpponent_first_usable :
  engine_atomic C ->
  forall (st : ChessGame Game) (k : nat) (r : jsstring),
    fst (isOpponentTurn C st) = Normal true ->
    isGameOver (engine C) (game st) = false ->
    k < 3 ->
    (forall i, i < k ->
               usable C (game st) (moves (engine C) (game st))
                      (generateRaw C (count is_request (trace st) + i)
                                   (position_prompt C (game st))
                                   (systemPrompt_of (color st)))
               = false) ->
    generateRaw C (count is_request (trace st) + k)
                (position_prompt C (game st)) (systemPrompt_of (color st))
    = Some r ->
    usable C (game st) (moves (engine C) (game st)) (Some r) = true ->
    exists fails arg g',
      tryMoveOpponent C st
      = (Normal tt,
         after st g' (concat fails ++
                      [GenerateRaw (position_prompt C (game st))
                                   (systemPrompt_of (color st)) (Some r);
                       GameMove arg true;
                       BoardPosition (fen (engine C) g'); UpdateStatus])) /\
      Forall (failed_attempt (moves (engine C) (game st)) (position_prompt C (game st))
                             (systemPrompt_of (color st))) fails /\
      length fails = k /\
      candidate (parseMove (moves (engine C) (game st)) r) = Some arg /\
      move (engine C) (game st) arg = (g', true).
Proof.
  intros Hat st k r H1 H2 Hk Hu G U.
  rewrite isOpponentTurn_run in H1. simpl in H1. injection H1 as H1.
  rewrite tryMoveOpponent_active by assumption.
  replace maxRetries with (k + S (2 - k)) by (unfold maxRetries; lia).
  destruct (retry_first_usable (fen (engine C) (game st)) (board_ascii (engine C) (game st))
              (moves (engine C) (game st)) (systemPrompt_of (color st)) r (2 - k) k
              Hat st Hu G U) as (fails & arg & g' & -> & Hfs & Hl & Hc & Mv).
  now exists fails, arg, g'.
Qed.

End WithCollaborators.

End OrchestratorMore.

(* ================================================================= *)
(** * The handlers *)

Module HandlersFacts.
Import JsString Notions Protocol ProtocolMore Handlers.
Import OrchestratorFacts OrchestratorMore.

Section WithCollaborators.

Context {Game : Type} (C : Collaborators Game) (X : ChessMore Game).

Lemma user_or_opponent (st : ChessGame Game) :
  user_to_move C st = negb (opponent_to_move C st).
Proof.
  unfold user_to_move, opponent_to_move.
  destruct (turn (engine C) (game st)), (color st); reflexivity.
Qed.

(** X7.  At every moment it is the turn of exactly one of the two players:
    [isOpponentTurn] and [isUserTurn] never agree. *)
Theorem turn_of_exactly_one (st : ChessGame Game) :
  exists b,
    Orchestrator.isOpponentTurn C st = (Normal b, st) /\
    isUserTurn C st = (Normal (negb b), st).
Proof.
  exists (opponent_to_move C st). split; [reflexivity|].
  unfold isUserTurn, opponent_to_move.
  destruct (turn (engine C) (game st)), (color st); reflexivity.
Qed.

Lemma chess_eta (st : ChessGame Game) :
  {| color := color st; game := game st; trace := trace st |} = st.
Proof. now destruct st. Qed.

Lemma widget_eta (w : Widget Game) : {| chess := chess w; ui := ui w |} = w.
Proof. now destruct w. Qed.

(** X8.  [onDragStart] lets the user pick up a piece exactly when the game is
    not over and it is the user's turn; it never changes the game and calls
    no collaborator of the game; when the game is over it does not even
    clear the highlighted squares. *)
Theorem onDragStart_guard (source piece : jsstring) (w : Widget Game) :
  exists r w',
    onDragStart C source piece w = (Normal r, w') /\
    chess w' = chess w /\
    (r = ReturnsUndefined <->
     isGameOver (engine C) (game (chess w)) = false /\
     user_to_move C (chess w) = true) /\
    ui w' = ui w ++ (if isGameOver (engine C) (game (chess w)) then []
                     else [RemoveGraySquares]).
Proof.
  unfold onDragStart.
  destruct (isGameOver (engine C) (game (chess w))) eqn:Over.
  - exists ReturnsFalse, w. unfold ret. rewrite app_nil_r.
    repeat split; try reflexivity; try discriminate.
    intros [H _]. discriminate H.
  - unfold bind, removeGraySquares, emit_ui, ret, opponent_pieces_move. simpl.
    rewrite user_or_opponent. unfold opponent_to_move.
    destruct (turn (engine C) (game (chess w))), (color (chess w)); simpl;
      eexists _, _; (split; [reflexivity|]); simpl;
      repeat split; try reflexivity; try discriminate;
      intros [_ H]; discriminate H.
Qed.

Lemma not_awaited_noop (w : Widget Game) :
  opponent_to_move C (chess w) = false \/
  isGameOver (engine C) (game (chess w)) = true ->
  not_awaited (Orchestrator.tryMoveOpponent C) w = (Normal tt, w).
Proof.
  intros H. unfold not_awaited.
  rewrite tryMoveOpponent_noop by assumption. now rewrite widget_eta.
Qed.

(** X9.  A drop that the engine rejects: the piece snaps back, and the game, with
    its trace, is what it was before the drop; the board is not drawn again
    and the opponent is not asked to move. *)
Theorem onDrop_illegal (source target : jsstring) (w : Widget Game) (g' : Game) :
  promotion_atomic X ->
  move_promotion X (game (chess w)) source target "q"%js = (g', false) ->
  onDrop C X source target w
  = (Normal (Some "snapback"%js),
     {| chess := chess w;
        ui := ui w ++ [RemoveGraySquares;
                       MovePromotion source target "q"%js false] |}).
Proof.
  intros Hat Mv. pose proof (Hat _ _ _ _ _ Mv) as ->.
  unfold onDrop, bind, try_catch, removeGraySquares, emit_ui,
    game_move_promotion, ret. simpl.
  rewrite Mv. simpl. rewrite chess_eta, <- app_assoc. reflexivity.
Qed.

Lemma not_awaited_normal (m : Orchestrator.M unit) (w : Widget Game) :
  not_awaited m w = (Normal tt, snd (not_awaited m w)).
Proof. unfold not_awaited. now destruct (m (chess w)). Qed.

Lemma onDrop_made (source target : jsstring) (w : Widget Game) (g1 : Game) :
  move_promotion X (game (chess w)) source target "q"%js = (g1, true) ->
  onDrop C X source target w
  = (Normal None,
     snd (not_awaited (Orchestrator.tryMoveOpponent C)
                      (dropped C w source target g1))).
Proof.
  intros Mv.
  unfold onDrop, bind, try_catch, removeGraySquares, emit_ui,
    game_move_promotion, ret, core. simpl.
  rewrite Mv. simpl.
  match goal with
  | |- context [not_awaited ?m ?x] =>
      replace x with (dropped C w source target g1);
      [rewrite (not_awaited_normal m (dropped C w source target g1)); reflexivity|]
  end.
  unfold dropped, after. simpl. now rewrite <- !app_assoc.
Qed.

Lemma side_back (a b c : Side) : b <> a -> c <> b -> c = a.
Proof. destruct a, b, c; congruence. Qed.

Lemma opponent_after_user (st : ChessGame Game) (g1 : Game) (evs : list event) :
  user_to_move C st = true -> turn (engine C) g1 <> turn (engine C) (game st) ->
  opponent_to_move C (after st g1 evs) = true.
Proof.
  unfold user_to_move, opponent_to_move. simpl.
  destruct (turn (engine C) (game st)), (turn (engine C) g1), (color st);
    congruence.
Qed.

(** A drop that the engine accepts, on the user's turn, in a game that goes
    on: the opponent replies. *)
Lemma onDrop_then_reply (source target : jsstring) (w : Widget Game) (g1 : Game) :
  engine_atomic C -> legal_moves_accepted C -> nonterminal_has_moves C ->
  move_passes_turn C -> random_in_range C -> promotion_passes_turn C X ->
  user_to_move C (chess w) = true ->
  move_promotion X (game (chess w)) source target "q"%js = (g1, true) ->
  isGameOver (engine C) g1 = false ->
  exists arg g2 evs,
    onDrop C X source target w
    = (Normal None,
       {| chess := after (chess w) g2
                         ([BoardPosition (fen (engine C) g1); UpdateStatus] ++ evs);
          ui := ui w ++ [RemoveGraySquares;
                         MovePromotion source target "q"%js true] |}) /\
    move (engine C) g1 arg = (g2, true) /\
    count is_move_made evs = 1 /\ 1 <= count is_request evs <= 3 /\
    user_to_move C (after (chess w) g2
                          ([BoardPosition (fen (engine C) g1); UpdateStatus] ++ evs))
    = true.
Proof.
  intros Hat Hlegal Hmoves Hturn Hrand Hprom Hu Mv Over.
  rewrite (onDrop_made _ _ _ _ Mv).
  pose proof (Hprom _ _ _ _ _ Mv) as T1.
  pose proof (opponent_after_user (chess w) g1
                [BoardPosition (fen (engine C) g1); UpdateStatus] Hu T1) as Ho.
  unfold not_awaited.
  destruct (tryMoveOpponent_moves_once C Hat Hlegal Hmoves Hturn Hrand
              (chess (dropped C w source target g1)) Ho Over)
    as (arg & g2 & evs & R & Mv2 & T2 & Hm & _ & Hq).
  rewrite R. simpl in Mv2, T2. exists arg, g2, evs.
  unfold dropped. cbn [chess ui snd]. rewrite after_after.
  split; [reflexivity|].
  split; [assumption|]. split; [assumption|]. split; [assumption|].
  unfold user_to_move in *. simpl.
  now rewrite (side_back _ _ _ T1 T2).
Qed.

(** X10.  A drop that the engine accepts, on the user's turn: [onDrop] returns no
    value, the board is drawn again, and then either the game is over and
    nothing more happens, or the opponent makes exactly one move, with one
    to three requests, and it is the user's turn again.  The state is the
    one in which the promise of [tryMoveOpponent] has settled, with nothing
    else run in between. *)
Theorem onDrop_legal (source target : jsstring) (w : Widget Game) (g1 : Game) :
  engine_atomic C -> legal_moves_accepted C -> nonterminal_has_moves C ->
  move_passes_turn C -> random_in_range C -> promotion_passes_turn C X ->
  user_to_move C (chess w) = true ->
  move_promotion X (game (chess w)) source target "q"%js = (g1, true) ->
  exists w',
    onDrop C X source target w = (Normal None, w') /\
    ui w' = ui w ++ [RemoveGraySquares;
                     MovePromotion source target "q"%js true] /\
    if isGameOver (engine C) g1
    then chess w' = after (chess w) g1
                          [BoardPosition (fen (engine C) g1); UpdateStatus]
    else exists arg g2 evs,
        move (engine C) g1 arg = (g2, true) /\
        chess w' = after (chess w) g2
                         ([BoardPosition (fen (engine C) g1); UpdateStatus]
                            ++ evs) /\
        count is_move_made evs = 1 /\ 1 <= count is_request evs <= 3 /\
        user_to_move C (chess w') = true.
Proof.
  intros Hat Hlegal Hmoves Hturn Hrand Hprom Hu Mv.
  destruct (isGameOver (engine C) g1) eqn:Over.
  - rewrite (onDrop_made _ _ _ _ Mv).
    rewrite not_awaited_noop by (right; exact Over).
    eexists. split; [reflexivity|]. now split.
  - destruct (onDrop_then_reply source target w g1 Hat Hlegal Hmoves Hturn
                                Hrand Hprom Hu Mv Over)
      as (arg & g2 & evs & R & Mv2 & Hm & Hq & Hu').
    eexists. split; [exact R|]. split; [reflexivity|].
    exists arg, g2, evs. now repeat split.
Qed.

(** ** The undo button *)

Lemma undoButton_opponent (w : Widget Game) :
  opponent_to_move C (chess w) = true ->
  undoButton_click C X w = (Normal tt, w).
Proof.
  intros H.
  unfold undoButton_click, bind, core. rewrite isOpponentTurn_run, H.
  unfold ret. now rewrite widget_eta.
Qed.

(** What the button does on the user's turn. *)
Lemma undoButton_run (w : Widget Game) :
  opponent_to_move C (chess w) = false ->
  let g1 := undo X (game (chess w)) in
  let g2 := undo X g1 in
  undoButton_click C X w
  = not_awaited (Orchestrator.tryMoveOpponent C)
      {| chess := after (chess w) g2
                        [BoardPosition (fen (engine C) g1);
                         BoardPosition (fen (engine C) g2); UpdateStatus];
         ui := ui w ++ [Undo; Undo] |}.
Proof.
  intros H g1 g2.
  unfold undoButton_click, bind, core. rewrite isOpponentTurn_run, H.
  unfold game_undo, ret. simpl.
  unfold after. simpl. rewrite <- !app_assoc. simpl.
  rewrite (not_awaited_normal _ _). symmetry.
  rewrite (not_awaited_normal _ _). reflexivity.
Qed.

(** X11.  The move with which the user ends the game cannot be taken back: after
    it the undo button does nothing. *)
Theorem final_move_is_not_undone (source target : jsstring) (w : Widget Game)
        (g1 : Game) :
  promotion_passes_turn C X ->
  user_to_move C (chess w) = true ->
  move_promotion X (game (chess w)) source target "q"%js = (g1, true) ->
  isGameOver (engine C) g1 = true ->
  exists w1,
    onDrop C X source target w = (Normal None, w1) /\
    game (chess w1) = g1 /\
    undoButton_click C X w1 = (Normal tt, w1).
Proof.
  intros Hprom Hu Mv Over.
  rewrite (onDrop_made _ _ _ _ Mv).
  pose proof (Hprom _ _ _ _ _ Mv) as T1.
  pose proof (opponent_after_user (chess w) g1
                [BoardPosition (fen (engine C) g1); UpdateStatus] Hu T1) as Ho.
  rewrite not_awaited_noop by (right; exact Over).
  eexists. split; [reflexivity|]. split; [reflexivity|].
  apply undoButton_opponent. exact Ho.
Qed.

(** X12.  A move and the reply of the opponent are taken back together.  With an
    engine whose [undo] takes back the last move: after a drop that the
    engine accepts in a game that goes on, and the move of the opponent that
    follows, the undo button restores the position in which the piece was
    dropped, and asks the generator nothing. *)
Theorem undo_round_trip (source target : jsstring) (w : Widget Game) (g1 : Game) :
  engine_atomic C -> legal_moves_accepted C -> nonterminal_has_moves C ->
  move_passes_turn C -> random_in_range C -> promotion_passes_turn C X ->
  undo_takes_back C X ->
  user_to_move C (chess w) = true ->
  move_promotion X (game (chess w)) source target "q"%js = (g1, true) ->
  isGameOver (engine C) g1 = false ->
  exists w1 w2,
    onDrop C X source target w = (Normal None, w1) /\
    undoButton_click C X w1 = (Normal tt, w2) /\
    game (chess w2) = game (chess w) /\
    count is_request (trace (chess w2)) = count is_request (trace (chess w1)) /\
    ui w2 = ui w1 ++ [Undo; Undo].
Proof.
  intros Hat Hlegal Hmoves Hturn Hrand Hprom [Hundo1 Hundo2] Hu Mv Over.
  destruct (onDrop_then_reply source target w g1 Hat Hlegal Hmoves Hturn Hrand
                              Hprom Hu Mv Over)
    as (arg & g2 & evs & R1 & Mv2 & _ & _ & Hu1).
  eexists. eexists. split; [exact R1|].
  match goal with
  | |- undoButton_click C X ?w1 = _ /\ _ =>
      assert (Ho1 : opponent_to_move C (chess w1) = false)
        by (apply negb_true_iff; now rewrite <- user_or_opponent);
      rewrite (undoButton_run w1 Ho1)
  end.
  cbn [chess game after].
  rewrite (Hundo1 _ _ _ Mv2), (Hundo2 _ _ _ _ _ Mv).
  rewrite not_awaited_noop.
  2:{ left. apply negb_true_iff. rewrite <- user_or_opponent.
      unfold user_to_move in *. simpl. exact Hu. }
  split; [reflexivity|]. simpl. split; [reflexivity|].
  split; [|reflexivity].
  rewrite !count_app. cbn. lia.
Qed.

(** X13.  The button when the second [undo] leaves the opponent to move, as when
    the only move made is the first move of the opponent: the opponent is
    asked again, and makes a move from the position that the two calls have
    left, with one to three requests. *)
Theorem undo_of_a_lone_move (w : Widget Game) :
  engine_atomic C -> legal_moves_accepted C -> nonterminal_has_moves C ->
  move_passes_turn C -> random_in_range C ->
  user_to_move C (chess w) = true ->
  turn (engine C) (undo X (undo X (game (chess w))))
  <> turn (engine C) (game (chess w)) ->
  isGameOver (engine C) (undo X (undo X (game (chess w)))) = false ->
  exists arg g3 evs,
    undoButton_click C X w
    = (Normal tt,
       {| chess :=
            after (chess w) g3
                  ([BoardPosition (fen (engine C) (undo X (game (chess w))));
                    BoardPosition
                      (fen (engine C) (undo X (undo X (game (chess w)))));
                    UpdateStatus] ++ evs);
          ui := ui w ++ [Undo; Undo] |}) /\
    move (engine C) (undo X (undo X (game (chess w)))) arg = (g3, true) /\
    count is_move_made evs = 1 /\
    1 <= count is_request evs <= 3.
Proof.
  intros Hat Hlegal Hmoves Hturn Hrand Hu T Over.
  assert (Ho : opponent_to_move C (chess w) = false)
    by (apply negb_true_iff; now rewrite <- user_or_opponent).
  rewrite (undoButton_run w Ho). unfold not_awaited. cbn [chess ui].
  destruct (tryMoveOpponent_moves_once C Hat Hlegal Hmoves Hturn Hrand
              (after (chess w) (undo X (undo X (game (chess w))))
                     [BoardPosition (fen (engine C) (undo X (game (chess w))));
                      BoardPosition
                        (fen (engine C) (undo X (undo X (game (chess w)))));
                      UpdateStatus]))
    as (arg & g3 & evs & R & Mv & _ & Hm & _ & Hq).
  { now apply opponent_after_user. }
  { exact Over. }
  rewrite R. rewrite after_after. exists arg, g3, evs.
  split; [reflexivity|]. split; [exact Mv|]. split; assumption.
Qed.

(** ** The squares that are highlighted *)

Lemma graySquares_run (moves : list jsstring) :
  forall (done : H (Game := Game) unit) (w w0 : Widget Game),
    done w0 = (Normal tt, w) ->
    fold_left (fun done to => bind done (fun _ => graySquare to)) moves done w0
    = (Normal tt, {| chess := chess w; ui := ui w ++ map GraySquare moves |}).
Proof.
  induction moves as [|m moves IH]; intros done w w0 Hd; simpl.
  - now rewrite app_nil_r, widget_eta.
  - rewrite (IH _ {| chess := chess w; ui := ui w ++ [GraySquare m] |} w0).
    + simpl. now rewrite <- app_assoc.
    + unfold bind. rewrite Hd. reflexivity.
Qed.

(** X14.  [onMouseoverSquare] never changes the game and never takes a highlight
    away.  It highlights squares exactly when the game is not over, the user
    is to move and the engine lists a move from the square: then the square
    itself, and after it the destinations, in the order of the engine, one
    for every move (a destination that two moves share is highlighted
    twice). *)
Theorem onMouseoverSquare_highlights (square piece : jsstring) (w : Widget Game) :
  onMouseoverSquare C X square piece w
  = (Normal tt,
     {| chess := chess w;
        ui := ui w ++
              if negb (isGameOver (engine C) (game (chess w)))
                 && user_to_move C (chess w)
                 && negb (length (moves_from X (game (chess w)) square) =? 0)%nat
              then map GraySquare (square :: moves_from X (game (chess w)) square)
              else [] |}).
Proof.
  unfold onMouseoverSquare.
  destruct (isGameOver (engine C) (game (chess w))).
  { unfold ret. simpl. now rewrite app_nil_r, widget_eta. }
  rewrite user_or_opponent.
  replace (opponent_pieces_move C w) with (opponent_to_move C (chess w))
    by reflexivity.
  destruct (opponent_to_move C (chess w)).
  { unfold ret. simpl. now rewrite app_nil_r, widget_eta. }
  destruct (length (moves_from X (game (chess w)) square) =? 0)%nat.
  { unfold ret. simpl. now rewrite app_nil_r, widget_eta. }
  unfold bind at 1. unfold graySquare at 1, emit_ui.
  rewrite (graySquares_run _ _ {| chess := chess w; ui := ui w ++ [GraySquare square] |})
    by reflexivity.
  simpl. now rewrite <- app_assoc.
Qed.

(** ** The texts of the status *)

(** X15.  The text for the opponent is never empty, so that the last branch of
    the first statement of [updateStatus] is never taken: it is the text of
    the end of the game exactly when the game is over, [Thinking...]
    exactly when the opponent is to move in a game that is not over, and
    [Your turn!] exactly when the user is. *)
Theorem opponentStatusText_cases (st : ChessGame Game) :
  opponentStatusText C st <> [] /\
  (opponentStatusText C st
   = units "Game over. Press "%js ++ [10005%N] ++ units " to close"%js <->
   isGameOver (engine C) (game st) = true) /\
  (opponentStatusText C st = units "Thinking..."%js <->
   isGameOver (engine C) (game st) = false /\ opponent_to_move C st = true) /\
  (opponentStatusText C st = units "Your turn!"%js <->
   isGameOver (engine C) (game st) = false /\ user_to_move C st = true).
Proof.
  unfold opponentStatusText. rewrite isOpponentTurn_run.
  rewrite user_or_opponent.
  destruct (isGameOver (engine C) (game st)).
  - split; [discriminate|]. split; [now split|].
    split; (split; [discriminate|intros [H _]; discriminate H]).
  - unfold isUserTurn, opponent_to_move.
    destruct (turn (engine C) (game st)), (color st); simpl;
      (split; [discriminate|]);
      (split; [split; discriminate|]);
      split; (split; [try discriminate; now split|]);
      try reflexivity; intros [_ H]; discriminate H.
Qed.

(** X16.  With an engine for which a threefold repetition is a draw, the texts
    about a threefold repetition are never used: neither by [getOutcome] nor
    by [updateStatus].  And [getOutcome] finds the game inconclusive exactly
    when it is neither a checkmate, nor a stalemate, nor a draw. *)
Theorem threefold_text_is_dead (st : ChessGame Game) :
  threefold_is_draw X ->
  getOutcome C X (game st) <> "the game is a threefold repetition"%js /\
  userStatusText C X st <> units "Game is a threefold repetition"%js /\
  (getOutcome C X (game st) = "the game was inconclusive"%js <->
   isCheckmate X (game st) = false /\ isStalemate X (game st) = false /\
   isDraw X (game st) = false).
Proof.
  intros H3. unfold getOutcome, userStatusText. cbv zeta.
  pose proof (H3 (game st)) as H.
  destruct (isCheckmate X (game st)).
  { destruct (turn (engine C) (game st)); simpl;
      (split; [discriminate|]); (split; [discriminate|]);
      (split; [discriminate|intros [? _]; discriminate]). }
  destruct (isStalemate X (game st)).
  { split; [discriminate|]. split.
    - destruct (inCheck X (game st)); [|discriminate].
      destruct (turn (engine C) (game st)); discriminate.
    - split; [discriminate|intros (_ & ? & _); discriminate]. }
  destruct (isDraw X (game st)).
  { split; [discriminate|]. split.
    - destruct (inCheck X (game st)); [|discriminate].
      destruct (turn (engine C) (game st)); discriminate.
    - split; [discriminate|intros (_ & _ & ?); discriminate]. }
  destruct (isThreefoldRepetition X (game st)).
  { specialize (H eq_refl). discriminate H. }
  split; [discriminate|]. split.
  - destruct (inCheck X (game st)); [|discriminate].
    destruct (turn (engine C) (game st)); discriminate.
  - split; [now intros _|reflexivity].
Qed.

End WithCollaborators.

End HandlersFacts.

(* ================================================================= *)
(** * The listener that removes the injects *)

Module StuckInjectsFacts.
Import JsString JsStringFacts JsSearchFacts Regex RegexFacts StuckInjects.

Lemma plus_class_some {X} (l : list citem) (s : jsstring) :
  forall i (k : nat -> jsstring -> option X) x,
    plus_class l i s k = Some x ->
    exists w t, s = w ++ t /\ w <> [] /\ forallb (in_class l) w = true /\
                k (i + length w) t = Some x.
Proof.
  induction s as [|d s IH]; intros i k x H; simpl in H; [discriminate|].
  destruct (in_class l d) eqn:D; [|discriminate].
  destruct (plus_class l (S i) s k) as [y|] eqn:P.
  - injection H as ->. apply IH in P.
    destruct P as (w & t & -> & _ & Hw & Hk).
    exists (d :: w), t. simpl. rewrite D, Hw.
    split; [reflexivity|]. split; [discriminate|]. split; [reflexivity|].
    now rewrite <- plus_n_Sm.
  - exists [d], s. simpl. rewrite D.
    split; [reflexivity|]. split; [discriminate|]. split; [reflexivity|].
    now rewrite Nat.add_1_r.
Qed.

Lemma plus_class_none {X} (l : list citem) (s : jsstring) :
  forall i (k : nat -> jsstring -> option X),
    plus_class l i s k = None ->
    forall w t, s = w ++ t -> w <> [] -> forallb (in_class l) w = true ->
                k (i + length w) t = None.
Proof.
  induction s as [|d s IH]; intros i k H w t E Hne Hw.
  - destruct w; [congruence|discriminate].
  - destruct w as [|c w]; [congruence|]. simpl in E. injection E as <- ->.
    simpl in Hw. apply andb_true_iff in Hw. destruct Hw as [D Hw].
    simpl in H. rewrite D in H.
    destruct (plus_class l (S i) (w ++ t) k) eqn:P; [discriminate|].
    destruct w as [|c' w].
    + simpl. now rewrite Nat.add_1_r.
    + simpl length. rewrite <- plus_n_Sm.
      apply (IH (S i) k P (c' :: w) t); [reflexivity|discriminate|assumption].
Qed.

Lemma rmatch_chess {X} (i : nat) (s : jsstring)
      (k : nat -> jsstring -> option X) :
  rmatch re_chess i s k =
  if startsWith s "chess-"%js then k (i + 6) (skipn 6 s) else None.
Proof.
  unfold re_chess. cbn [seq rmatch startsWith].
  destruct s as [|c1 s]; [reflexivity|].
  rewrite (Ascii.eqb_sym "c" c1). destruct (Ascii.eqb c1 "c"); [|reflexivity].
  destruct s as [|c2 s]; [reflexivity|].
  rewrite (Ascii.eqb_sym "h" c2). destruct (Ascii.eqb c2 "h"); [|reflexivity].
  destruct s as [|c3 s]; [reflexivity|].
  rewrite (Ascii.eqb_sym "e" c3). destruct (Ascii.eqb c3 "e"); [|reflexivity].
  destruct s as [|c4 s]; [reflexivity|].
  rewrite (Ascii.eqb_sym "s" c4). destruct (Ascii.eqb c4 "s"); [|reflexivity].
  destruct s as [|c5 s]; [reflexivity|].
  rewrite (Ascii.eqb_sym "s" c5). destruct (Ascii.eqb c5 "s"); [|reflexivity].
  destruct s as [|c6 s]; [reflexivity|].
  rewrite (Ascii.eqb_sym "-" c6). destruct (Ascii.eqb c6 "-"); [|reflexivity].
  simpl. f_equal. lia.
Qed.

(** The pattern matches at an index exactly when the rest of the key, from
    that index to its end, is [chess-] and one or more code units of the
    class. *)
Lemma match_stuck_at_iff (i : nat) (s : jsstring) :
  match_stuck_at i s <> None <->
  exists w, s = "chess-"%js ++ w /\ w <> [] /\
            forallb (in_class alnum) w = true.
Proof.
  unfold match_stuck_at. rewrite rmatch_chess. split.
  - destruct (startsWith s "chess-"%js) eqn:S; [|congruence].
    apply startsWith_spec in S. destruct S as [b ->].
    change (skipn 6 ("chess-"%js ++ b)) with b.
    destruct (plus_class alnum (i + 6) b _) as [j|] eqn:P; [|congruence].
    intros _. apply plus_class_some in P.
    destruct P as (w & t & -> & Hne & Hw & Hk).
    destruct t; [|discriminate]. exists w. now rewrite app_nil_r.
  - intros (w & -> & Hne & Hw).
    change (startsWith ("chess-"%js ++ w) "chess-"%js) with (startsWith w []).
    replace (startsWith w []) with true by (now destruct w).
    change (skipn 6 ("chess-"%js ++ w)) with w.
    intros P.
    pose proof (plus_class_none _ _ _ _ P w [] (eq_sym (app_nil_r w)) Hne Hw) as K.
    discriminate K.
Qed.

Lemma match_stuck_at_nil (i : nat) : match_stuck_at i [] = None.
Proof. reflexivity. Qed.

Lemma test_from_iff (s : jsstring) :
  forall i,
    test_from i s = true <->
    exists pre rest, s = pre ++ rest /\ match_stuck_at (i + length pre) rest <> None.
Proof.
  induction s as [|c s IH]; intros i.
  - split; [discriminate|]. intros (pre & rest & E & H).
    symmetry in E. apply app_eq_nil in E. destruct E as [-> ->].
    now rewrite match_stuck_at_nil in H.
  - cbn [test_from]. destruct (match_stuck_at i (c :: s)) eqn:M.
    + split; [intros _|reflexivity]. exists [], (c :: s). simpl length.
      rewrite Nat.add_0_r, M. split; [reflexivity|discriminate].
    + rewrite IH. split.
      * intros (pre & rest & -> & H). exists (c :: pre), rest. simpl length.
        rewrite <- plus_n_Sm. now split.
      * intros ([|x pre] & rest & E & H); simpl in E.
        -- subst rest. simpl length in H. rewrite Nat.add_0_r in H. congruence.
        -- injection E as -> ->. exists pre, rest. simpl length in H.
           rewrite <- plus_n_Sm in H. now split.
Qed.

(** The keys that the test accepts. *)
Lemma test_iff (key : jsstring) : test key = true <-> stuck_key key.
Proof.
  unfold test, stuck_key. rewrite test_from_iff. split.
  - intros (pre & rest & -> & H). apply match_stuck_at_iff in H.
    destruct H as (w & -> & Hne & Hw). now exists pre, w.
  - intros (pre & w & -> & Hne & Hw). exists pre, ("chess-"%js ++ w).
    split; [reflexivity|]. apply match_stuck_at_iff. now exists w.
Qed.

Lemma key_eqb_eq (s t : jsstring) : key_eqb s t = true <-> s = t.
Proof.
  revert t. induction s as [|c s IH]; intros [|d t]; simpl;
    try (split; [discriminate|discriminate]); [tauto|].
  rewrite andb_true_iff, Ascii.eqb_eq, IH. split.
  - intros [-> ->]. reflexivity.
  - intros E. injection E as -> ->. now split.
Qed.

Lemma filter_twice {A} (f g : A -> bool) (l : list A) :
  filter f (filter g l) = filter (fun x => g x && f x) l.
Proof.
  induction l as [|x l IH]; simpl; [reflexivity|].
  destruct (g x); simpl; [|assumption].
  destruct (f x); now rewrite IH.
Qed.

Section Loop.

Context {V : Type}.

Lemma loop_object (keys : list jsstring) :
  forall (o : object V) (log : list jsstring),
    fst (fold_left visit keys (o, log))
    = filter (fun kv => negb (test (fst kv) && existsb (key_eqb (fst kv)) keys)) o.
Proof.
  induction keys as [|k keys IH]; intros o log; simpl.
  - symmetry. rewrite <- (filter_ext (fun _ => true)).
    + induction o as [|x o IHo]; simpl; [reflexivity|now rewrite IHo].
    + intros kv. now rewrite andb_false_r.
  - unfold visit at 2. destruct (test k) eqn:T; simpl.
    + rewrite IH. unfold delete. rewrite filter_twice.
      apply filter_ext. intros kv.
      destruct (key_eqb (fst kv) k) eqn:K; simpl.
      * apply key_eqb_eq in K. rewrite K, T. reflexivity.
      * reflexivity.
    + rewrite IH. apply filter_ext. intros kv.
      destruct (key_eqb (fst kv) k) eqn:K; simpl; [|reflexivity].
      apply key_eqb_eq in K. rewrite K, T. reflexivity.
Qed.

Lemma loop_log (keys : list jsstring) :
  forall (o : object V) (log : list jsstring),
    snd (fold_left visit keys (o, log)) = log ++ filter test keys.
Proof.
  induction keys as [|k keys IH]; intros o log; simpl.
  - now rewrite app_nil_r.
  - unfold visit at 2. destruct (test k); simpl.
    + rewrite IH. now rewrite <- app_assoc.
    + apply IH.
Qed.

(** X17.  The listener removes a property exactly when its key ends with
    [chess-] and one or more lower-case letters or digits; every other
    property is kept, with its value, in the order in which it was; the keys
    reported are those removed. *)
Theorem remove_stuck_spec (chatMetadata : object V) :
  (forall key, test key = true <-> stuck_key key) /\
  fst (remove_stuck chatMetadata)
  = filter (fun kv => negb (test (fst kv))) chatMetadata /\
  snd (remove_stuck chatMetadata) = filter test (map fst chatMetadata) /\
  (forall key v, In (key, v) (fst (remove_stuck chatMetadata)) <->
                 In (key, v) chatMetadata /\ ~ stuck_key key).
Proof.
  assert (Hobj : fst (remove_stuck chatMetadata)
                 = filter (fun kv => negb (test (fst kv))) chatMetadata).
  { unfold remove_stuck.
    rewrite loop_object. apply filter_ext_in. intros kv Hin.
    replace (existsb (key_eqb (fst kv)) (map fst chatMetadata)) with true;
      [now rewrite andb_true_r|].
    symmetry. apply existsb_exists. exists (fst kv).
    split; [now apply in_map|now apply key_eqb_eq]. }
  split; [exact test_iff|]. split; [exact Hobj|]. split.
  - unfold remove_stuck.
    now rewrite loop_log.
  - intros key v. rewrite Hobj, filter_In. simpl.
    rewrite negb_true_iff, <- test_iff.
    destruct (test key); split; intros [H1 H2]; split; congruence.
Qed.

End Loop.

Example test_needs_an_identifier : test "chess-"%js = false.
Proof. reflexivity. Qed.

Example test_accepts_a_game_identifier :
  test "sillytavern-chess-k3x9"%js = true.
Proof. reflexivity. Qed.

Example remove_stuck_example :
  remove_stuck [("note"%js, 1); ("chess-8f3k"%js, 2); ("chess-"%js, 3);
                ("Chess-ab"%js, 4); ("chess-ab "%js, 5); ("xchess-0"%js, 6)]
  = ([("note"%js, 1); ("chess-"%js, 3); ("Chess-ab"%js, 4); ("chess-ab "%js, 5)],
     ["chess-8f3k"%js; "xchess-0"%js]).
Proof. reflexivity. Qed.

End StuckInjectsFacts.

(* ================================================================= *)
(** * The statements at concrete inputs, with the small engine *)

Module ToyMoreFacts.
Import JsString Notions Orchestrator Protocol ProtocolMore Toy ToyFacts ToyMore.

Lemma toy_promotion_rejected (g : nat) (o d p : jsstring) (g' : nat) :
  move_promotion toy_more g o d p = (g', false) -> g' = g.
Proof.
  simpl. destruct (negb (toy_over g) && eqb_string o "e7"%js
                   && eqb_string d "e5"%js);
    intros H; injection H; congruence.
Qed.

Lemma toy_promotion_made (g : nat) (o d p : jsstring) (g' : nat) :
  move_promotion toy_more g o d p = (g', true) -> g' = S g.
Proof.
  simpl. destruct (negb (toy_over g) && eqb_string o "e7"%js
                   && eqb_string d "e5"%js);
    intros H; injection H; congruence.
Qed.

Lemma toy_promotion_atomic : promotion_atomic toy_more.
Proof. intros g o d p g'. apply toy_promotion_rejected. Qed.

Lemma toy_promotion_turn : promotion_passes_turn garbage toy_more.
Proof.
  intros g o d p g' H. apply toy_promotion_made in H. subst g'. apply toy_turn.
Qed.

Lemma toy_undo : undo_takes_back garbage toy_more.
Proof.
  split.
  - intros g a g' H. apply toy_move_made in H. now subst g'.
  - intros g o d p g' H. apply toy_promotion_made in H. now subst g'.
Qed.

Lemma toy_threefold : threefold_is_draw toy_more.
Proof.
  intros g H. change ((7 <=? g)%nat = true) in H.
  change ((6 <=? g)%nat = true).
  apply Nat.leb_le in H. apply Nat.leb_le. lia.
Qed.

End ToyMoreFacts.

Module WitnessesMore.
Import JsString Notions Orchestrator Protocol ProtocolMore Handlers.
Import Toy ToyFacts ToyMore ToyMoreFacts.
Import ResolverMore OrchestratorMore HandlersFacts.

Lemma parseMove_falsy_is_null_witness :
  truthy (parseMove ["e4"%js; "Nf3"%js] "no idea"%js) = false <->
  parseMove ["e4"%js; "Nf3"%js] "no idea"%js = VNull.
Proof.
  apply (parseMove_falsy_is_null ["e4"%js; "Nf3"%js] "no idea"%js).
  intros [H|[H|[]]]; discriminate H.
Defined.

Lemma tryMoveOpponent_progress_witness :
  exists arg g' pre,
    tryMoveOpponent garbage start
    = (Normal tt,
       after start g' (pre ++ [GameMove arg true;
                               BoardPosition (fen toy_engine g');
                               UpdateStatus])) /\
    move toy_engine 0 arg = (g', true) /\
    turn toy_engine g' <> turn toy_engine 0 /\
    count is_move_made pre = 0 /\
    count is_display pre = 0 /\
    1 <= count is_request pre <= 3.
Proof.
  exact (tryMoveOpponent_progress garbage garbage_atomic garbage_legal
           garbage_has_moves garbage_turn garbage_random start eq_refl eq_refl).
Defined.

Lemma tryMoveOpponent_twice_witness :
  Orchestrator.bind (tryMoveOpponent garbage) (fun _ => tryMoveOpponent garbage)
                    start
  = tryMoveOpponent garbage start.
Proof.
  exact (tryMoveOpponent_twice garbage garbage_atomic garbage_legal
           garbage_has_moves garbage_turn garbage_random start).
Defined.

Lemma parseMove_patterns_ignore_list_witness :
  parseMove ["e4"%js; "Nf3"%js; "d4"%js] "O-O-O, I castle"%js
  = parseMove [] "O-O-O, I castle"%js.
Proof.
  apply (parseMove_patterns_ignore_list ["e4"%js; "Nf3"%js; "d4"%js]
           "O-O-O, I castle"%js).
  vm_compute. discriminate.
Defined.

Lemma undo_of_a_lone_move_witness :
  exists arg g3 evs,
    undoButton_click garbage toy_more users_turn
    = (Normal tt,
       {| chess :=
            after (chess users_turn) g3
                  ([BoardPosition (fen toy_engine 0);
                    BoardPosition (fen toy_engine 0);
                    UpdateStatus] ++ evs);
          ui := [Undo; Undo] |}) /\
    move toy_engine 0 arg = (g3, true) /\
    count is_move_made evs = 1 /\
    1 <= count is_request evs <= 3.
Proof.
  refine (undo_of_a_lone_move garbage toy_more users_turn
            garbage_atomic garbage_legal garbage_has_moves garbage_turn
            garbage_random eq_refl _ eq_refl).
  discriminate.
Defined.

Lemma tryMoveOpponent_first_usable_witness :
  exists fails arg g',
    tryMoveOpponent helpful start
    = (Normal tt,
       after start g'
             (concat fails ++
              [GenerateRaw (position_prompt helpful 0) (systemPrompt_of black)
                           (Some "I'll play Nf3"%js);
               GameMove arg true;
               BoardPosition (fen toy_engine g'); UpdateStatus])) /\
    Forall (failed_attempt (moves toy_engine 0) (position_prompt helpful 0)
                           (systemPrompt_of black)) fails /\
    length fails = 1 /\
    candidate (parseMove (moves toy_engine 0) "I'll play Nf3"%js) = Some arg /\
    move toy_engine 0 arg = (g', true).
Proof.
  apply (tryMoveOpponent_first_usable helpful helpful_atomic start 1
           "I'll play Nf3"%js).
  - reflexivity.
  - reflexivity.
  - lia.
  - intros [|i] Hi; [reflexivity|lia].
  - reflexivity.
  - reflexivity.
Defined.

Lemma onDrop_illegal_witness :
  onDrop garbage toy_more "e7"%js "e4"%js users_turn
  = (Normal (Some "snapback"%js),
     {| chess := chess users_turn;
        ui := [RemoveGraySquares; MovePromotion "e7"%js "e4"%js "q"%js false] |}).
Proof.
  exact (onDrop_illegal garbage toy_more "e7"%js "e4"%js users_turn 1
           toy_promotion_atomic eq_refl).
Defined.

Lemma onDrop_legal_witness :
  exists w',
    onDrop garbage toy_more "e7"%js "e5"%js users_turn = (Normal None, w') /\
    ui w' = [RemoveGraySquares; MovePromotion "e7"%js "e5"%js "q"%js true] /\
    exists arg g2 evs,
      move toy_engine 2 arg = (g2, true) /\
      chess w' = after (chess users_turn) g2
                       ([BoardPosition (fen toy_engine 2); UpdateStatus] ++ evs) /\
      count is_move_made evs = 1 /\ 1 <= count is_request evs <= 3 /\
      user_to_move garbage (chess w') = true.
Proof.
  exact (onDrop_legal garbage toy_more "e7"%js "e5"%js users_turn 2
           garbage_atomic garbage_legal garbage_has_moves garbage_turn
           garbage_random toy_promotion_turn eq_refl eq_refl).
Defined.

Lemma final_move_is_not_undone_witness :
  exists w1,
    onDrop garbage toy_more "e7"%js "e5"%js last_move = (Normal None, w1) /\
    game (chess w1) = 4 /\
    undoButton_click garbage toy_more w1 = (Normal tt, w1).
Proof.
  exact (final_move_is_not_undone garbage toy_more "e7"%js "e5"%js last_move 4
           toy_promotion_turn eq_refl eq_refl eq_refl).
Defined.

Lemma undo_round_trip_witness :
  exists w1 w2,
    onDrop garbage toy_more "e7"%js "e5"%js users_turn = (Normal None, w1) /\
    undoButton_click garbage toy_more w1 = (Normal tt, w2) /\
    game (chess w2) = 1 /\
    count is_request (trace (chess w2)) = count is_request (trace (chess w1)) /\
    ui w2 = ui w1 ++ [Undo; Undo].
Proof.
  exact (undo_round_trip garbage toy_more "e7"%js "e5"%js users_turn 2
           garbage_atomic garbage_legal garbage_has_moves garbage_turn
           garbage_random toy_promotion_turn toy_undo eq_refl eq_refl eq_refl).
Defined.

Lemma threefold_text_is_dead_witness :
  getOutcome garbage toy_more 7 <> "the game is a threefold repetition"%js /\
  userStatusText garbage toy_more repeated
  <> units "Game is a threefold repetition"%js /\
  (getOutcome garbage toy_more 7 = "the game was inconclusive"%js <->
   isCheckmate toy_more 7 = false /\ isStalemate toy_more 7 = false /\
   isDraw toy_more 7 = false).
Proof.
  exact (threefold_text_is_dead garbage toy_more repeated toy_threefold).
Defined.

End WitnessesMore.
